(** * The dependency consolidator of ConsistentAppearance

    A shallow embedding of [scripts/consolidate_node_requirements.py]: the
    script reads a JSON list of repositories, fetches every repository's
    [requirements.txt], follows [git+] lines into further repositories, merges
    the version specifiers per package name and writes one sorted manifest.
    Of [predict.py], [Predictor.update_workflow] is embedded: the assignments
    that write a prediction's inputs into the workflow document.

    Python strings are byte strings here ([string] of [ascii]), with the ASCII
    reading of [strip], [lower] and [splitlines].  The third-party libraries
    the script calls ([packaging], [urllib], [requests], [json]) are interfaces
    (type classes); the script itself is translated function by function. *)

From Stdlib Require Import ZArith Ascii.
From stdpp Require Import gmap strings list sorting pretty.

(** ** Python string methods *)

Module Str.

Definition LF : ascii := "010"%char.
Definition CR : ascii := "013"%char.

(** [f"{s}\n"] *)
Definition nl : string := String LF "".

(** [not s] *)
Definition is_empty (s : string) : bool :=
  match s with EmptyString => true | String _ _ => false end.

(** The whitespace [str.strip()] removes, within ASCII. *)
Definition is_space (c : ascii) : bool :=
  match c with
  | "009" | "010" | "011" | "012" | "013"
  | "028" | "029" | "030" | "031" | " " => true
  | _ => false
  end%char.

(** The line boundaries of [str.splitlines()], within ASCII. *)
Definition is_linebreak (c : ascii) : bool :=
  match c with
  | "010" | "011" | "012" | "013" | "028" | "029" | "030" => true
  | _ => false
  end%char.

Fixpoint lstrip (p : ascii → bool) (s : string) : string :=
  match s with
  | EmptyString => EmptyString
  | String c s' => if p c then lstrip p s' else s
  end.

Definition rstrip (p : ascii → bool) (s : string) : string :=
  String.rev (lstrip p (String.rev s)).

(** [s.strip()] *)
Definition strip (s : string) : string := rstrip is_space (lstrip is_space s).

(** [s.strip(c)] for a one-character argument *)
Definition strip_char (c : ascii) (s : string) : string :=
  rstrip (λ x, bool_decide (x = c)) (lstrip (λ x, bool_decide (x = c)) s).

(** [s.startswith(p)] *)
Definition startswith (p s : string) : bool := String.prefix p s.

(** [s.endswith(p)] *)
Definition endswith (p s : string) : bool :=
  String.prefix (String.rev p) (String.rev s).

(** [s[:-n]] *)
Definition drop_last (n : nat) (s : string) : string :=
  String.substring 0 (String.length s - n) s.

(** [s.lower()] on ASCII letters *)
Definition lower_char (c : ascii) : ascii :=
  let n := Ascii.nat_of_ascii c in
  if bool_decide (65 ≤ n ≤ 90) then Ascii.ascii_of_nat (n + 32) else c.

Fixpoint lower (s : string) : string :=
  match s with
  | EmptyString => EmptyString
  | String c s' => String (lower_char c) (lower s')
  end.

(** [s.splitlines()]: [acc] holds the current line, reversed. *)
Fixpoint splitlines_go (acc : string) (s : string) : list string :=
  match s with
  | EmptyString => if is_empty acc then [] else [String.rev acc]
  | String c s' =>
      if is_linebreak c then
        String.rev acc ::
          match s' with
          | String c' s'' =>
              if bool_decide (c = CR ∧ c' = LF) then splitlines_go "" s''
              else splitlines_go "" s'
          | EmptyString => []
          end
      else splitlines_go (String c acc) s'
  end.

Definition splitlines (s : string) : list string := splitlines_go "" s.

(** [s.split(sep)] for a one-character separator: never the empty list. *)
Fixpoint split_go (sep : ascii) (acc : string) (s : string) : list string :=
  match s with
  | EmptyString => [String.rev acc]
  | String c s' =>
      if bool_decide (c = sep) then String.rev acc :: split_go sep "" s'
      else split_go sep (String c acc) s'
  end.

Definition split (sep : ascii) (s : string) : list string := split_go sep "" s.

(** The longest prefix whose characters satisfy [p], and the rest. *)
Fixpoint span (p : ascii → bool) (s : string) : string * string :=
  match s with
  | EmptyString => (EmptyString, EmptyString)
  | String c s' =>
      if p c then let '(a, b) := span p s' in (String c a, b)
      else (EmptyString, s)
  end.

(** [s] without the prefix [p], when it has it. *)
Fixpoint strip_prefix (p s : string) : option string :=
  match p, s with
  | EmptyString, _ => Some s
  | String a p', String b s' =>
      if bool_decide (a = b) then strip_prefix p' s' else None
  | String _ _, EmptyString => None
  end.

(** [s.replace(old, new)] for a non-empty [old]: occurrences are replaced
    from the left and do not overlap; [skip] counts the characters of an
    occurrence still to be passed over. *)
Fixpoint replace_go (old new : string) (skip : nat) (s : string) : string :=
  match s with
  | EmptyString => EmptyString
  | String c s' =>
      match skip with
      | S k => replace_go old new k s'
      | O =>
          if String.prefix old s
          then new +:+ replace_go old new (String.length old - 1) s'
          else String c (replace_go old new 0 s')
      end
  end.

Definition replace (old new s : string) : string := replace_go old new 0 s.

(** [sep.join(l)] *)
Definition join (sep : string) (l : list string) : string := String.concat sep l.

(** [sorted(l)] on strings: the ascending list for the code-point order. *)
Definition sorted (l : list string) : list string := merge_sort String.le l.

End Str.

(** ** JSON values, as [json.load] returns them *)

Local Set Warnings "-register-all".


Inductive json : Type :=
  | JNull
  | JBool (b : bool)
  | JNumber (n : Z)
  | JString (s : string)
  | JArray (items : list json)
  | JObject (fields : list (string * json)).

(** [d.get(key)] on a decoded object: of a repeated key the last value stands. *)
Fixpoint dict_get (key : string) (fields : list (string * json)) : option json :=
  match fields with
  | [] => None
  | (k, v) :: rest =>
      match dict_get key rest with
      | Some v' => Some v'
      | None => if bool_decide (k = key) then Some v else None
      end
  end.

(** Python truth of a decoded value: [None], [False], zero and the empty
    string, list and dict are false. *)
Definition truthy (v : json) : bool :=
  match v with
  | JNull => false
  | JBool b => b
  | JNumber n => negb (n =? 0)%Z
  | JString s => negb (Str.is_empty s)
  | JArray items => match items with [] => false | _ => true end
  | JObject fields => match fields with [] => false | _ => true end
  end.

(** ** The libraries the script calls *)

(** What [Requirement(req_line)] does: it returns a requirement, of which the
    script reads [name] and [specifier], or raises [InvalidRequirement], or
    raises something else. *)
Inductive ParseResult (SpecifierSet : Type) : Type :=
  | Parsed (name : string) (specifier : SpecifierSet)
  | InvalidRequirement
  | OtherException.
Arguments Parsed {_} _ _.
Arguments InvalidRequirement {_}.
Arguments OtherException {_}.

(** [packaging], as release 24.2 implements it (the script pins no release).
    A [Specifier] is a version clause such as [>=1.0].  It compares and hashes
    by its canonical form, the operator with the canonical version, so [>=1.0]
    and [>=1.0.0] are one [Specifier]; [str] gives the text it was written
    with.  A [SpecifierSet] holds a frozenset of them: here the finite map
    from the clauses to the text of the one kept.

    [Specifier_contains c v] is the test of the clause's operator
    ([c.contains(v, prereleases=True)]), [Specifier_prereleases c] tells
    whether the clause names a pre-release ([c.prereleases]) and
    [Version_is_prerelease v] is [v.is_prerelease].  The sets a [Requirement]
    yields carry no pre-release override, so [&] never raises. *)
Class Packaging : Type := {
  Specifier : Type;
  Specifier_eq_dec :: EqDecision Specifier;
  Specifier_countable :: Countable Specifier;
  Version : Type;
  Version_is_prerelease : Version → bool;
  Specifier_prereleases : Specifier → bool;
  Specifier_contains : Specifier → Version → bool;
  Requirement : string → ParseResult (gmap Specifier string);
}.

Abbreviation SpecifierSet := (gmap Specifier string).

(** [urllib.parse]: [urlparse(url).path] and [urljoin(base, url)]; [None]
    stands for the [ValueError] both raise on a malformed URL. *)
Class Urllib : Type := {
  urlparse_path : string → option string;
  urljoin : string → string → option string;
}.

(** [requests.get(url, headers=headers)]: a response with its [status_code]
    and [text], or an exception.  The mapping is fixed for a run. *)
Inductive Response : Type :=
  | HttpResponse (status_code : Z) (text : string)
  | RequestException.

Class Requests : Type := {
  requests_get : string → Response;
}.

(** [json]: [json_loads] decodes a document ([None]: it raises);
    [json_repr v] is [str(v)] of a decoded value that is not a string. *)
Class Json : Type := {
  json_loads : string → option json;
  json_repr : json → string;
}.

(** [f"{v}"] *)
Definition format_value `{Json} (v : json) : string :=
  match v with
  | JString s => s
  | _ => json_repr v
  end.

(** ** A small world to run the script in

    Fragments of the four libraries, enough to run the script on concrete
    repositories: requirement lines of the shape [name] or
    [name op version, ...], URLs of the shape [scheme://host/path], a JSON
    decoder that knows the documents of a catalogue, and a network of a few
    repositories. *)

Module World.

Definition is_alnum (c : ascii) : bool :=
  let n := Ascii.nat_of_ascii c in
  bool_decide (48 ≤ n ≤ 57 ∨ 65 ≤ n ≤ 90 ∨ 97 ≤ n ≤ 122).

Definition is_name_char (c : ascii) : bool :=
  is_alnum c || bool_decide (c = "-" ∨ c = "_" ∨ c = ".")%char.

Definition is_version_char (c : ascii) : bool :=
  is_alnum c || bool_decide (c = "." ∨ c = "*" ∨ c = "+" ∨ c = "!")%char.

Fixpoint all_chars (p : ascii → bool) (s : string) : bool :=
  match s with
  | EmptyString => true
  | String c s' => p c && all_chars p s'
  end.

(** The comparison operators; [~=] and [===] are outside the fragment. *)
Definition operators : list string :=
  ["=="; "!="; "<="; ">="; "<"; ">"].

(** A clause [op version]: the operator and the version, blanks removed. *)
Definition parse_clause (clause : string) : option (string * string) :=
  let try_operator (op : string) :=
    match Str.strip_prefix op clause with
    | Some v =>
        let v := Str.strip v in
        if negb (Str.is_empty v) && all_chars is_version_char v
        then Some (op, v) else None
    | None => None
    end in
  list_find (λ r, is_Some r) (try_operator <$> operators) ≫= snd.

Fixpoint decimal_go (acc : nat) (s : string) : option nat :=
  match s with
  | EmptyString => Some acc
  | String c s' =>
      match Ascii.is_nat c with
      | Some d => decimal_go (10 * acc + d) s'
      | None => None
      end
  end.

Definition decimal (s : string) : option nat :=
  if Str.is_empty s then None else decimal_go 0 s.

(** Versions are release numbers with an optional pre-release tag: [1.0] is
    [([1; 0], None)] and [1.5b1] is [([1; 5], Some (1, 1))], the tags [a], [b]
    and [rc] numbered 0, 1 and 2.  Epochs, post-releases, development releases
    and local versions are outside the fragment. *)
Definition version : Type := list nat * option (nat * nat).

Definition parse_pre (s : string) : option (option (nat * nat)) :=
  let tagged (kind : nat) (tag : string) : option (option (nat * nat)) :=
    n ← Str.strip_prefix tag s ≫= decimal; Some (Some (kind, n)) in
  if Str.is_empty s then Some None
  else
    match tagged 0 "a" with
    | Some pre => Some pre
    | None =>
        match tagged 1 "b" with
        | Some pre => Some pre
        | None => tagged 2 "rc"
        end
    end.

Definition parse_version (s : string) : option version :=
  let '(release, pre) :=
    Str.span (λ c, bool_decide (c = "."%char) || bool_decide (is_Some (Ascii.is_nat c))) s in
  release ← mapM decimal (Str.split "." release);
  pre ← parse_pre pre;
  Some (release, pre).

(** [v.is_prerelease] *)
Definition is_prerelease (v : version) : bool := bool_decide (is_Some v.2).

(** Release numbers compare segment by segment, missing segments as zero. *)
Definition all_zero (a : list nat) : bool := forallb (λ x, bool_decide (x = 0)) a.

Fixpoint compare_release (a b : list nat) : comparison :=
  match a, b with
  | [], _ => if all_zero b then Eq else Lt
  | _ :: _, [] => if all_zero a then Eq else Gt
  | x :: a', y :: b' =>
      match Nat.compare x y with Eq => compare_release a' b' | c => c end
  end.

(** Of two versions with the same release, a pre-release comes first. *)
Definition compare_pre (a b : option (nat * nat)) : comparison :=
  match a, b with
  | None, None => Eq
  | None, Some _ => Gt
  | Some _, None => Lt
  | Some (k, n), Some (k', n') =>
      match Nat.compare k k' with Eq => Nat.compare n n' | c => c end
  end.

Definition compare_version (a b : version) : comparison :=
  match compare_release a.1 b.1 with
  | Eq => compare_pre a.2 b.2
  | c => c
  end.

Fixpoint strip_trailing_zeros (l : list nat) : list nat :=
  match l with
  | [] => []
  | x :: l' =>
      match strip_trailing_zeros l' with
      | [] => if bool_decide (x = 0) then [] else [x]
      | stripped => x :: stripped
      end
  end.

(** [canonicalize_version]: the trailing zeros of the release are dropped,
    the first number apart. *)
Definition canonical (v : version) : version :=
  match v.1 with
  | [] => v
  | x :: rest => (x :: strip_trailing_zeros rest, v.2)
  end.

(** A clause as [packaging] compares it: the operator and the canonical
    version. *)
Definition specifier : Type := string * version.

Definition specifier_eq_dec : EqDecision specifier := _.
Definition specifier_countable : Countable specifier := _.

(** The frozenset of a set of clauses, each with its text. *)
Definition specifier_set : Type :=
  @gmap specifier specifier_eq_dec specifier_countable string.

(** [Specifier(clause)], with the text [str] gives for it. *)
Definition parse_specifier (clause : string) : option (specifier * string) :=
  '(op, text) ← parse_clause clause;
  v ← parse_version text;
  Some ((op, canonical v), op +:+ text).

(** The operators' tests.  [<V] takes no pre-release of [V] itself, unless
    [V] is one. *)
Definition clause_contains (clause : specifier) (v : version) : bool :=
  let '(op, bound) := clause in
  let c := compare_version v bound in
  if bool_decide (op = ">=") then negb (bool_decide (c = Lt))
  else if bool_decide (op = "<=") then negb (bool_decide (c = Gt))
  else if bool_decide (op = ">") then bool_decide (c = Gt)
  else if bool_decide (op = "<") then
    bool_decide (c = Lt) &&
    negb (negb (is_prerelease bound) && is_prerelease v &&
          bool_decide (compare_release v.1 bound.1 = Eq))
  else if bool_decide (op = "==") then bool_decide (c = Eq)
  else if bool_decide (op = "!=") then negb (bool_decide (c = Eq))
  else false.

(** [Specifier.prereleases]: an operator other than [!=] with a
    pre-release. *)
Definition clause_prereleases (clause : specifier) : bool :=
  negb (bool_decide (clause.1 = "!=")) && is_prerelease clause.2.

(** [SpecifierSet(specifiers)]: of two equal clauses the first is kept. *)
Definition specifiers (text : string) : specifier_set :=
  list_to_map (omap (λ c, parse_specifier (Str.strip c)) (Str.split "," text)).

Definition parse_requirement (req_line : string)
  : ParseResult specifier_set :=
  let '(name, rest) := Str.span is_name_char req_line in
  let well_formed_name :=
    match name, String.rev name with
    | String a _, String z _ => is_alnum a && is_alnum z
    | _, _ => false
    end in
  if negb well_formed_name then InvalidRequirement
  else
    let rest := Str.strip rest in
    if Str.is_empty rest then Parsed name ∅
    else
      match mapM (λ c, parse_specifier (Str.strip c)) (Str.split "," rest) with
      | Some clauses => Parsed name (list_to_map clauses)
      | None => InvalidRequirement
      end.

Definition packaging : Packaging := {|
  Specifier := specifier;
  Specifier_eq_dec := specifier_eq_dec;
  Specifier_countable := specifier_countable;
  Version := version;
  Version_is_prerelease := is_prerelease;
  Specifier_prereleases := clause_prereleases;
  Specifier_contains := clause_contains;
  Requirement := parse_requirement;
|}.

(** [urlparse(url).path] of [scheme://host/path?query#fragment]. *)
Definition url_path (url : string) : option string :=
  let not_in (stops : list ascii) (c : ascii) := negb (bool_decide (c ∈ stops)) in
  let after_scheme :=
    match String.index 0 "://" url with
    | Some i =>
        let rest := String.substring (i + 3) (String.length url) url in
        snd (Str.span (not_in ["/"; "?"; "#"]%char) rest)
    | None => url
    end in
  Some (fst (Str.span (not_in ["?"; "#"]%char) after_scheme)).

(** [urljoin(base, path)] for a base that ends in [/] and a relative path
    without dot segments. *)
Definition url_join (base path : string) : option string := Some (base +:+ path).

Definition urllib : Urllib := {|
  urlparse_path := url_path;
  urljoin := url_join;
|}.

Definition quoted (s : string) : string :=
  String "034"%char (s +:+ String "034"%char "").

(** [json.dumps], for strings without escapes. *)
Fixpoint json_dumps (v : json) : string :=
  match v with
  | JNull => "null"
  | JBool b => if b then "true" else "false"
  | JNumber n => pretty n
  | JString s => quoted s
  | JArray items => "[" +:+ Str.join ", " (map json_dumps items) +:+ "]"
  | JObject fields =>
      let member :=
        fix member (fields : list (string * json)) : list string :=
          match fields with
          | [] => []
          | (k, v) :: rest => (quoted k +:+ ": " +:+ json_dumps v) :: member rest
          end in
      "{" +:+ Str.join ", " (member fields) +:+ "}"
  end.

Definition repository (url commit : string) : json :=
  JObject [("repo", JString url); ("commit", JString commit)].

(** The documents the decoder knows. *)
Definition catalogue : list json := [
  JArray [];
  JArray [JNumber 1];
  JObject [("default_branch", JString "main")];
  JArray [repository "https://github.com/a/b" "main"];
  JArray [repository "https://github.com/a/b" ""; repository "https://github.com/a/b" "main"];
  JArray [repository "https://github.com/a/opaque" "main"];
  JArray [repository "https://github.com/c/x" "main"];
  JArray [repository "https://github.com/c/y" "main"];
  JArray [repository "https://github.com/c/x" "main"; repository "https://github.com/a/b" "main"];
  JArray [repository "https://github.com/a/b" "main"; repository "https://github.com/c/x" "main"];
  JArray [repository "https://github.com/n/a" "main"; repository "https://github.com/a/b" "main"];
  JArray [repository "https://github.com/d/e" ""];
  JArray [JObject [("repo", JString "https://github.com/a")]]
].

Definition decode (text : string) : option json :=
  snd <$> list_find (λ v, json_dumps v = text) catalogue.

(** [str(v)] of a decoded value that is not a string, arrays and objects
    apart. *)
Definition repr (v : json) : string :=
  match v with
  | JNull => "None"
  | JBool b => if b then "True" else "False"
  | JNumber n => pretty n
  | _ => ""
  end.

Definition json_lib : Json := {|
  json_loads := decode;
  json_repr := repr;
|}.

(** The network: [a/b] has default branch [main] and two requirements;
    [a/opaque] has a line that is no requirement; [c/x] and [c/y] point at
    each other; the metadata query for [d/e] fails.  Every other request is
    answered 404. *)
Definition responses : list (string * Response) := [
  ("https://api.github.com/repos/a/b",
   HttpResponse 200 (json_dumps (JObject [("default_branch", JString "main")])));
  ("https://raw.githubusercontent.com/a/b/main/requirements.txt",
   HttpResponse 200 ("foo>=1.0" +:+ Str.nl +:+ "bar==2.0"));
  ("https://raw.githubusercontent.com/a/opaque/main/requirements.txt",
   HttpResponse 200 ("-e ." +:+ Str.nl +:+ "foo>=1.0"));
  ("https://raw.githubusercontent.com/c/x/main/requirements.txt",
   HttpResponse 200 ("git+https://github.com/c/y@main" +:+ Str.nl +:+ "foo<2.0"));
  ("https://raw.githubusercontent.com/c/y/main/requirements.txt",
   HttpResponse 200 ("git+https://github.com/c/x@main" +:+ Str.nl +:+ "Foo>=1.0"));
  ("https://api.github.com/repos/d/e", HttpResponse 503 "");
  ("https://raw.githubusercontent.com/d/e/main/requirements.txt",
   HttpResponse 200 "baz")
].

Definition get (url : string) : Response :=
  default (HttpResponse 404 "")
          (snd <$> (snd <$> list_find (λ r, fst r = url) responses)).

Definition network : Requests := {| requests_get := get |}.

(** The input file of the runs below holds one document of the catalogue. *)
Definition input (document : json) : gmap string string :=
  {[ "repos.json" := json_dumps document ]}.

End World.

(** A string without the character [c]. *)
Definition without (c : ascii) (s : string) : bool :=
  World.all_chars (λ x, negb (bool_decide (x = c))) s.

(** ** A second world, for the edges

    [World] with a URL library that refuses a host with one bracket and not
    the other (as [urlparse] and [urljoin] do, with [ValueError]), a metadata
    answer without a default branch, manifests that refer to such a host,
    an input list with a [null] commit, and a cycle through a repository
    that is reached with and without its default branch. *)

Module Edge.

(** The host of [scheme://host/path]. *)
Definition netloc (url : string) : string :=
  match String.index 0 "://" url with
  | Some i =>
      let rest := String.substring (i + 3) (String.length url) url in
      fst (Str.span (λ c, negb (bool_decide (c ∈ ["/"; "?"; "#"]%char))) rest)
  | None => ""
  end.

Definition invalid_host (url : string) : bool :=
  xorb (negb (without "[" (netloc url))) (negb (without "]" (netloc url))).

Definition url_path (url : string) : option string :=
  if invalid_host url then None else World.url_path url.

Definition url_join (base path : string) : option string :=
  if invalid_host base then None else World.url_join base path.

Definition urllib : Urllib := {|
  urlparse_path := url_path;
  urljoin := url_join;
|}.

Definition catalogue : list json := [
  JObject [("default_branch", JNull)];
  JArray [World.repository "https://github.com/e/bad" "main"];
  JArray [World.repository "https://github.com/a/b" "main";
          JObject [("repo", JString "https://github.com/c/x"); ("commit", JNull)]];
  JObject [("default_branch", JString "main")];
  JArray [World.repository "https://github.com/e/p" "main";
          World.repository "https://github.com/e/q" "main"];
  JArray [World.repository "https://github.com/e/q" "main";
          World.repository "https://github.com/e/p" "main"];
  JArray [World.repository "https://github.com/r/x" "main"];
  JArray [World.repository "https://[bad" "x"];
  JArray [World.repository "https://github.com/e/pin" "main";
          World.repository "https://[bad" "x"]
].

Definition decode (text : string) : option json :=
  snd <$> list_find (λ v, World.json_dumps v = text) catalogue.

Definition json_lib : Json := {|
  json_loads := decode;
  json_repr := World.repr;
|}.

(** The metadata of [e/nobranch] has a [null] default branch; the second of
    the three lines of [e/bad] refers to a host the URL library refuses, and
    so do the first lines of [e/p], [e/q] and [e/pin]; [r/x], whose default
    branch is [main], refers to [r/y], which refers back to [r/x] without a
    branch.  Every other request is answered as in [World]. *)
Definition responses : list (string * Response) := [
  ("https://api.github.com/repos/e/nobranch",
   HttpResponse 200 (World.json_dumps (JObject [("default_branch", JNull)])));
  ("https://raw.githubusercontent.com/e/bad/main/requirements.txt",
   HttpResponse 200 ("foo>=1.0" +:+ Str.nl +:+ "git+https://[bad" +:+ Str.nl
                     +:+ "bar==2.0"));
  ("https://raw.githubusercontent.com/e/p/main/requirements.txt",
   HttpResponse 200 ("git+https://[bad" +:+ Str.nl +:+ "pkgp==1.0"));
  ("https://raw.githubusercontent.com/e/q/main/requirements.txt",
   HttpResponse 200 ("git+https://[bad" +:+ Str.nl +:+ "pkgq==2.0"));
  ("https://raw.githubusercontent.com/e/pin/main/requirements.txt",
   HttpResponse 200 "git+https://[bad@x");
  ("https://api.github.com/repos/r/x",
   HttpResponse 200 (World.json_dumps (JObject [("default_branch", JString "main")])));
  ("https://raw.githubusercontent.com/r/x/main/requirements.txt",
   HttpResponse 200 "git+https://github.com/r/y@main");
  ("https://raw.githubusercontent.com/r/y/main/requirements.txt",
   HttpResponse 200 "git+https://github.com/r/x")
].

Definition get (url : string) : Response :=
  match list_find (λ r, fst r = url) responses with
  | Some r => snd (snd r)
  | None => World.get url
  end.

Definition network : Requests := {| requests_get := get |}.

End Edge.

(** ** [predict.py]: the workflow document

    [update_workflow] indexes and mutates the decoded workflow, a tree of
    dicts, lists and atoms ([None], booleans, numbers, strings; none of them
    can be indexed or assigned by a string key).  A dict is the list of its
    items in insertion order. *)

Inductive PyValue (A : Type) : Type :=
  | Atom (a : A)
  | PyList (items : list (PyValue A))
  | PyDict (items : list (string * PyValue A)).
Arguments Atom {_} _.
Arguments PyList {_} _.
Arguments PyDict {_} _.

(** The exceptions of indexing: [d[key]] of a missing key, and indexing or
    assigning what is no dict by a string. *)
Inductive PyError : Type :=
  | KeyError (key : string)
  | TypeError.

Section Workflow.
Context {A : Type}.

Fixpoint items_get (key : string) (items : list (string * PyValue A))
  : option (PyValue A) :=
  match items with
  | [] => None
  | (k, v) :: rest => if bool_decide (k = key) then Some v else items_get key rest
  end.

(** An assignment to a key the dict has keeps the key's place; a new key
    goes last. *)
Fixpoint items_set (key : string) (x : PyValue A)
    (items : list (string * PyValue A)) : list (string * PyValue A) :=
  match items with
  | [] => [(key, x)]
  | (k, v) :: rest =>
      if bool_decide (k = key) then (k, x) :: rest
      else (k, v) :: items_set key x rest
  end.

(** [v[key]] *)
Definition getitem (v : PyValue A) (key : string) : PyError + PyValue A :=
  match v with
  | PyDict items =>
      match items_get key items with
      | Some x => inr x
      | None => inl (KeyError key)
      end
  | _ => inl TypeError
  end.

(** [v[key] = x]: the value [v] has become. *)
Definition setitem (v : PyValue A) (key : string) (x : PyValue A)
  : PyError + PyValue A :=
  match v with
  | PyDict items => inr (PyDict (items_set key x items))
  | _ => inl TypeError
  end.

(** [workflow[node]["inputs"]] *)
Definition inputs_of (workflow : PyValue A) (node : string)
  : PyError + PyValue A :=
  match getitem workflow node with
  | inr n => getitem n "inputs"
  | inl e => inl e
  end.

(** The workflow once the object [workflow[node]["inputs"]] has become
    [inputs]: the object is part of the workflow, so a change of it is a
    change of the workflow. *)
Definition with_inputs (workflow : PyValue A) (node : string)
    (inputs : PyValue A) : PyValue A :=
  match workflow with
  | PyDict items =>
      match items_get node items with
      | Some (PyDict fields) =>
          PyDict (items_set node (PyDict (items_set "inputs" inputs fields)) items)
      | _ => workflow
      end
  | _ => workflow
  end.

(** A statement: the exception it raises, if any, and the workflow it
    leaves. *)
Definition Stmt : Type := PyValue A → option PyError * PyValue A.

Definition seq (s1 s2 : Stmt) : Stmt :=
  λ workflow,
    match s1 workflow with
    | (None, workflow) => s2 workflow
    | raised => raised
    end.

(** [inputs[field] = kwargs[arg]], one after the other, on the object
    [inputs = workflow[node]["inputs"]]. *)
Fixpoint assign_inputs (kwargs : gmap string (PyValue A)) (node : string)
    (inputs : PyValue A) (targets : list (string * string)) : Stmt :=
  λ workflow,
    match targets with
    | [] => (None, workflow)
    | (field, arg) :: targets =>
        match kwargs !! arg with
        | None => (Some (KeyError arg), workflow)
        | Some x =>
            match setitem inputs field x with
            | inl e => (Some e, workflow)
            | inr inputs =>
                assign_inputs kwargs node inputs targets
                  (with_inputs workflow node inputs)
            end
        end
    end.

(** [inputs = workflow[node]["inputs"]] and the assignments to it. *)
Definition assign (kwargs : gmap string (PyValue A)) (node : string)
    (targets : list (string * string)) : Stmt :=
  λ workflow,
    match inputs_of workflow node with
    | inl e => (Some e, workflow)
    | inr inputs => assign_inputs kwargs node inputs targets workflow
    end.

(** [Predictor.update_workflow] (lines 86-105) *)
Definition update_workflow (kwargs : gmap string (PyValue A)) : Stmt :=
  seq (assign kwargs "979" [("text", "prompt")])
 (seq (assign kwargs "980" [("text", "negative_prompt")])
 (seq (assign kwargs "983" [("seed", "seed")])
 (seq (assign kwargs "991" [("image", "image_filename")])
      (assign kwargs "1261" [("crop_size_margin", "crop_size");
                             ("crop_pos_margin", "crop_margin")])))).

(** [workflow[node]["inputs"][field]] *)
Definition input (workflow : PyValue A) (node field : string)
  : PyError + PyValue A :=
  match inputs_of workflow node with
  | inr inputs => getitem inputs field
  | inl e => inl e
  end.

(** [workflow[node][key]] *)
Definition node_item (workflow : PyValue A) (node key : string)
  : PyError + PyValue A :=
  match getitem workflow node with
  | inr n => getitem n key
  | inl e => inl e
  end.

(** The node has an [inputs] dict. *)
Definition has_inputs (workflow : PyValue A) (node : string) : Prop :=
  ∃ fields, inputs_of workflow node = inr (PyDict fields).

(** The inputs [update_workflow] assigns, with the keyword each comes from. *)
Definition assigned : list (string * string * string) :=
  [("979", "text", "prompt"); ("980", "text", "negative_prompt");
   ("983", "seed", "seed"); ("991", "image", "image_filename");
   ("1261", "crop_size_margin", "crop_size");
   ("1261", "crop_pos_margin", "crop_margin")].

(** What the assignments of [targets] make of the items of [inputs]. *)
Fixpoint fields_after (kwargs : gmap string (PyValue A))
    (targets : list (string * string)) (fields : list (string * PyValue A))
  : option (list (string * PyValue A)) :=
  match targets with
  | [] => Some fields
  | (field, arg) :: targets =>
      match kwargs !! arg with
      | Some x => fields_after kwargs targets (items_set field x fields)
      | None => None
      end
  end.

(** The workflow with the [inputs] of the five nodes replaced, in the order
    of the assignments. *)
Definition replaced (workflow : PyValue A)
    (g1 g2 g3 g4 g5 : list (string * PyValue A)) : PyValue A :=
  with_inputs
    (with_inputs
       (with_inputs
          (with_inputs (with_inputs workflow "979" (PyDict g1)) "980" (PyDict g2))
          "983" (PyDict g3))
       "991" (PyDict g4))
    "1261" (PyDict g5).

End Workflow.

(** A workflow of the five nodes, each with a [class_type] and [inputs], and
    the keywords of a prediction; the atoms are strings. *)
Module Sample.

Definition node (fields : list (string * PyValue string)) : PyValue string :=
  PyDict [("class_type", Atom "Node"); ("inputs", PyDict fields)].

Definition workflow : PyValue string :=
  PyDict [("979", node [("text", Atom "old"); ("clip", PyList [Atom "4"])]);
          ("980", node [("text", Atom "old")]);
          ("983", node [("seed", Atom "0"); ("steps", Atom "20")]);
          ("991", node []);
          ("1261", node [("crop_size_margin", Atom "1")])].

Definition kwargs : gmap string (PyValue string) :=
  list_to_map [("prompt", Atom "a photo"); ("negative_prompt", Atom "blurry");
               ("seed", Atom "7"); ("image_filename", Atom "image.png");
               ("crop_size", Atom "2"); ("crop_margin", Atom "0.5")].

End Sample.

(** ** What a run leaves behind *)

(** The key of [visited_repos]: [(repo_url, commit_hash)] as the function
    received them; [commit_hash] may be [None]. *)
Abbreviation RepoKey := (string * option string)%type.

(** The script's [print] calls, by source line. *)
Inductive Message : Type :=
  | InvalidRepositoryURL (repo_url : string)
  | FailedDefaultBranch (repo_url : string) (status_code : Z)
  | ErrorDefaultBranch (repo_url : string)
  | SkippingRepository (repo_url : string)
  | UnexpectedParseError (req_line repo_url : string)
  | NoRequirementsFound (repo_url commit_hash : string) (status_code : Z)
  | ErrorFetchingRequirements (repo_url : string)
  | ErrorReadingJSON (json_file : string)
  | InvalidRepositoryEntry (repo : json)
  | Generated.

(** The observable steps of a run, in order.  [Visit] marks
    [visited_repos.add]; [QueryApi] and [FetchManifest] are the two
    [requests.get] calls, the second tagged with the key it is made for. *)
Inductive Event : Type :=
  | Print (m : Message)
  | Visit (key : RepoKey)
  | QueryApi (api_url : string)
  | FetchManifest (key : RepoKey) (raw_requirements_url : string)
  | Sleep.

(** How a call ends: it returns, an exception leaves it, or the model's
    recursion budget is used up. *)
Inductive Outcome : Type := Returned | Raised | OutOfFuel.

(** A returned value or an exception. *)
Inductive Exc (A : Type) : Type :=
  | Value (a : A)
  | Raise.
Arguments Value {_} _.
Arguments Raise {_}.

Section Consolidator.
Context {Pkg : Packaging} {Url : Urllib} {Net : Requests} {Js : Json}.

(** The three containers the traversal mutates, with two histories the
    script does not keep: the requirements recorded so far (lines 64-74), in
    order, and the trace of the run. *)
Record State : Type := mkState {
  dependency_dict : gmap string SpecifierSet;
  url_requirements : gset string;
  visited_repos : gset RepoKey;
  recorded : list (string * SpecifierSet);
  trace : list Event;
}.

Definition emit (e : Event) (st : State) : State :=
  mkState (dependency_dict st) (url_requirements st) (visited_repos st)
          (recorded st) (trace st ++ [e]).

Definition print (m : Message) : State → State := emit (Print m).

(** [time.sleep(0.1)] *)
Definition sleep : State → State := emit Sleep.

(** ** [packaging.specifiers.SpecifierSet] *)

(** The frozenset of a [SpecifierSet]. *)
Definition clauses (s : SpecifierSet) : gset Specifier := dom s.

(** [a & b]: the union of the two frozensets; of two equal clauses the one
    of [a] stays, with its text. *)
Definition specifier_and (a b : SpecifierSet) : SpecifierSet := a ∪ b.

(** [str(specifier)]: the texts of the clauses, sorted, joined by commas. *)
Definition SpecifierSet_str (s : SpecifierSet) : string :=
  Str.join "," (Str.sorted (map_to_list s).*2).

(** [bool(specifier)] *)
Definition SpecifierSet_bool (s : SpecifierSet) : bool :=
  bool_decide (s ≠ ∅).

(** [specifier.prereleases], [None] counted as false: some clause names a
    pre-release. *)
Definition SpecifierSet_prereleases (s : SpecifierSet) : bool :=
  existsb Specifier_prereleases (elements (clauses s)).

(** [version in specifier]: a pre-release is refused unless some clause of
    the set names a pre-release; otherwise the test of every clause decides. *)
Definition SpecifierSet_contains (s : SpecifierSet) (v : Version) : bool :=
  if Version_is_prerelease v && negb (SpecifierSet_prereleases s) then false
  else forallb (λ c, Specifier_contains c v) (elements (clauses s)).

(** ** [get_default_branch] (lines 11-30) *)

Definition get_default_branch (repo_url : string) (st : State)
  : Exc (option json) * State :=
  match urlparse_path repo_url with
  | None => (Raise, st)
  | Some path =>
      match Str.split "/" (Str.strip_char "/" path) with
      | owner :: repo_name :: _ =>
          let api_url :=
            "https://api.github.com/repos/" +:+ owner +:+ "/" +:+ repo_name in
          let st := emit (QueryApi api_url) st in
          match requests_get api_url with
          | HttpResponse status_code text =>
              if (status_code =? 200)%Z then
                match json_loads text with
                | Some (JObject repo_info) =>
                    match dict_get "default_branch" repo_info with
                    | Some branch => (Value (Some branch), st)
                    | None => (Value (Some (JString "main")), st)
                    end
                | _ => (Value (Some (JString "main")),
                        print (ErrorDefaultBranch repo_url) st)
                end
              else (Value (Some (JString "main")),
                    print (FailedDefaultBranch repo_url status_code) st)
          | RequestException =>
              (Value (Some (JString "main")),
               print (ErrorDefaultBranch repo_url) st)
          end
      | _ => (Value None, print (InvalidRepositoryURL repo_url) st)
      end
  end.

(** ** [parse_git_requirement] (lines 95-109)

    [re.match] of [git\+(https://[^@]+)(?:@([^#]+))?(?:#egg=([\w\d\.]+))?]
    at the start of the line.  The first group is greedy and everything after
    it is optional, so the match is decided by the first group alone: it takes
    [https://] and every character up to the first [@], at least one.  The
    second group is there when an [@] and at least one character other than
    [#] follow.  The third group is not read. *)
Definition parse_git_requirement (req_line : string)
  : option string * option string :=
  match Str.strip_prefix "git+https://" req_line with
  | None => (None, None)
  | Some rest =>
      let '(host_path, after) :=
        Str.span (λ c, negb (bool_decide (c = "@"%char))) rest in
      if Str.is_empty host_path then (None, None)
      else
        let repo_url := "https://" +:+ host_path in
        let commit_hash :=
          match after with
          | String _ revision =>
              let '(c, _) :=
                Str.span (λ c, negb (bool_decide (c = "#"%char))) revision in
              if Str.is_empty c then None else Some c
          | EmptyString => None
          end in
        let repo_url :=
          if Str.endswith ".git" repo_url then Str.drop_last 4 repo_url
          else repo_url in
        (Some repo_url, commit_hash)
  end.

(** ** [process_requirements_from_repo] (lines 32-93) *)

(** [not commit_hash] *)
Definition unset (commit_hash : option string) : bool :=
  match commit_hash with
  | None => true
  | Some c => Str.is_empty c
  end.

(** Lines 65-74: the entry of [name.lower()] becomes the intersection with
    the specifier already there, or the specifier itself. *)
Definition merge_requirement (name : string) (specifier : SpecifierSet)
    (d : gmap string SpecifierSet) : gmap string SpecifierSet :=
  let name := Str.lower name in
  match d !! name with
  | Some existing_specifier =>
      <[name := specifier_and existing_specifier specifier]> d
  | None => <[name := specifier]> d
  end.

Definition record_requirement (name : string) (specifier : SpecifierSet)
    (st : State) : State :=
  mkState (merge_requirement name specifier (dependency_dict st))
          (url_requirements st) (visited_repos st)
          (recorded st ++ [(name, specifier)]) (trace st).

(** Line 84 *)
Definition add_url_requirement (req_line : string) (st : State) : State :=
  mkState (dependency_dict st) ({[req_line]} ∪ url_requirements st)
          (visited_repos st) (recorded st) (trace st).

(** Line 40 *)
Definition mark_visited (key : RepoKey) (st : State) : State :=
  emit (Visit key)
    (mkState (dependency_dict st) (url_requirements st)
             ({[key]} ∪ visited_repos st) (recorded st) (trace st)).

(** Lines 46-49: the default branch, or the early return of line 49
    ([Value None]) when there is none. *)
Definition default_branch_or_skip (repo_url : string) (st : State)
  : Exc (option string) * State :=
  match get_default_branch repo_url st with
  | (Raise, st) => (Raise, st)
  | (Value (Some branch), st) =>
      if truthy branch then (Value (Some (format_value branch)), st)
      else (Value None, print (SkippingRepository repo_url) st)
  | (Value None, st) => (Value None, print (SkippingRepository repo_url) st)
  end.

(** Lines 44-49: the commit or branch to fetch. *)
Definition resolve_commit (repo_url : string) (commit_hash : option string)
    (st : State) : Exc (option string) * State :=
  if unset commit_hash then default_branch_or_skip repo_url st
  else (Value commit_hash, st).

(** Lines 52-53 *)
Definition raw_requirements_url (repo_url commit_hash : string)
  : option string :=
  let raw_base_url :=
    Str.replace "github.com" "raw.githubusercontent.com" repo_url in
  urljoin (raw_base_url +:+ "/") (commit_hash +:+ "/requirements.txt").

(** Lines 60-86, the body of the loop over the manifest's lines; [recurse] is
    the recursive call of line 81.  In line 80, [git_repo_url not in
    visited_repos] compares a string with the pairs the set holds and is
    always true, so only the emptiness test decides. *)
Definition process_line (recurse : string → option string → State → Outcome * State)
    (repo_url req_line : string) (st : State) : Outcome * State :=
  let req_line := Str.strip req_line in
  if Str.is_empty req_line || Str.startswith "#" req_line then (Returned, st)
  else
    match Requirement req_line with
    | Parsed name specifier => (Returned, record_requirement name specifier st)
    | InvalidRequirement =>
        if Str.startswith "git+" req_line then
          match parse_git_requirement req_line with
          | (Some git_repo_url, git_commit) =>
              if Str.is_empty git_repo_url then (Returned, st)
              else recurse git_repo_url git_commit st
          | (None, _) => (Returned, st)
          end
        else (Returned, add_url_requirement req_line st)
    | OtherException =>
        (Returned, print (UnexpectedParseError req_line repo_url) st)
    end.

(** Lines 59-86: an exception of the recursive call ends the loop. *)
Fixpoint process_lines (recurse : string → option string → State → Outcome * State)
    (repo_url : string) (requirements : list string) (st : State)
  : Outcome * State :=
  match requirements with
  | [] => (Returned, st)
  | req_line :: rest =>
      match process_line recurse repo_url req_line st with
      | (Returned, st) => process_lines recurse repo_url rest st
      | stop => stop
      end
  end.

Fixpoint process_requirements_from_repo (fuel : nat) (repo_url : string)
    (commit_hash : option string) (st : State) : Outcome * State :=
  match fuel with
  | O => (OutOfFuel, st)
  | S fuel =>
      if Str.is_empty repo_url then (Returned, st)
      else
        let repo_commit_key := (repo_url, commit_hash) in
        if bool_decide (repo_commit_key ∈ visited_repos st) then (Returned, st)
        else
          let st := mark_visited repo_commit_key st in
          match resolve_commit repo_url commit_hash st with
          | (Raise, st) => (Raised, st)
          | (Value None, st) => (Returned, st)
          | (Value (Some commit_hash), st) =>
              match raw_requirements_url repo_url commit_hash with
              | None => (Raised, st)
              | Some url =>
                  let st := emit (FetchManifest repo_commit_key url) st in
                  match requests_get url with
                  | HttpResponse status_code text =>
                      if (status_code =? 200)%Z then
                        match
                          process_lines (process_requirements_from_repo fuel)
                            repo_url (Str.splitlines text) st
                        with
                        | (Returned, st) => (Returned, sleep st)
                        | (Raised, st) =>
                            (Returned,
                             sleep (print (ErrorFetchingRequirements repo_url) st))
                        | (OutOfFuel, st) => (OutOfFuel, st)
                        end
                      else
                        (Returned,
                         sleep (print (NoRequirementsFound repo_url commit_hash
                                         status_code) st))
                  | RequestException =>
                      (Returned,
                       sleep (print (ErrorFetchingRequirements repo_url) st))
                  end
              end
          end
  end.


(** ** [consolidate_requirements] (lines 111-152) *)

(** Lines 130-137, the loop over the decoded list.  An entry that is not an
    object has no [get], a [commit] that is not a string has no [strip], and a
    true [repo] that is not a string fails in [process_requirements_from_repo]
    (it cannot be hashed, parsed or [replace]d): each is an exception nothing
    catches. *)
Fixpoint process_repos (fuel : nat) (repos : list json) (st : State)
  : Outcome * State :=
  match repos with
  | [] => (Returned, st)
  | repo :: rest =>
      match repo with
      | JObject fields =>
          let repo_url := dict_get "repo" fields in
          match default (JString "") (dict_get "commit" fields) with
          | JString commit =>
              let commit_hash := Str.strip commit in
              match repo_url with
              | Some (JString url) =>
                  if Str.is_empty url then
                    process_repos fuel rest (print (InvalidRepositoryEntry repo) st)
                  else
                    match
                      process_requirements_from_repo fuel url (Some commit_hash) st
                    with
                    | (Returned, st) => process_repos fuel rest st
                    | stop => stop
                    end
              | Some v =>
                  if truthy v then (Raised, st)
                  else process_repos fuel rest (print (InvalidRepositoryEntry repo) st)
              | None =>
                  process_repos fuel rest (print (InvalidRepositoryEntry repo) st)
              end
          | _ => (Raised, st)
          end
      | _ => (Raised, st)
      end
  end.

(** Lines 126-128 *)
Definition initial_state : State := mkState ∅ ∅ ∅ [] [].

(** Lines 139-145: one line per entry of [dependency_dict]. *)
Definition requirement_line (entry : string * SpecifierSet) : string :=
  let '(name, specifier) := entry in
  if SpecifierSet_bool specifier then name +:+ SpecifierSet_str specifier
  else name.

Definition consolidated_requirements (d : gmap string SpecifierSet)
  : list string :=
  requirement_line <$> map_to_list d.

(** Lines 148-150: the text written to [requirements.txt]. *)
Definition manifest_text (d : gmap string SpecifierSet) : string :=
  String.concat "" ((λ req, req +:+ Str.nl) <$> Str.sorted (consolidated_requirements d)).

(** The process as seen from outside: its exit status ([None] when the model's
    recursion budget did not suffice), the files and what was printed and
    requested. *)
Record Run : Type := mkRun {
  exit_status : option Z;
  files : gmap string string;
  final : State;
}.

(** Lines 117-124: the decoded list, or the failure of the [try] block. *)
Definition load_repositories (json_file : string) (fs : gmap string string)
  : option (list json) :=
  match fs !! json_file ≫= json_loads with
  | Some (JArray repos) => Some repos
  | _ => None
  end.

Definition consolidate_requirements (fuel : nat) (json_file : string)
    (fs : gmap string string) : Run :=
  match load_repositories json_file fs with
  | None => mkRun (Some 1%Z) fs (print (ErrorReadingJSON json_file) initial_state)
  | Some repos =>
      match process_repos fuel repos initial_state with
      | (Returned, st) =>
          mkRun (Some 0%Z)
                (<["requirements.txt" := manifest_text (dependency_dict st)]> fs)
                (print Generated st)
      | (Raised, st) => mkRun (Some 1%Z) fs st
      | (OutOfFuel, st) => mkRun None fs st
      end
  end.

(** ** Notions the statements use *)

(** The requirement a manifest line records (lines 64-66), if it is one. *)
Definition line_requirement (req_line : string)
  : option (string * SpecifierSet) :=
  let req_line := Str.strip req_line in
  if Str.is_empty req_line || Str.startswith "#" req_line then None
  else
    match Requirement req_line with
    | Parsed name specifier => Some (name, specifier)
    | _ => None
    end.

(** The repository a manifest line leads into (lines 77-81), if it does. *)
Definition line_reference (req_line : string) : option RepoKey :=
  let req_line := Str.strip req_line in
  if Str.is_empty req_line || Str.startswith "#" req_line then None
  else
    match Requirement req_line with
    | InvalidRequirement =>
        if Str.startswith "git+" req_line then
          match parse_git_requirement req_line with
          | (Some git_repo_url, git_commit) =>
              if Str.is_empty git_repo_url then None
              else Some (git_repo_url, git_commit)
          | (None, _) => None
          end
        else None
    | _ => None
    end.

(** What a line that leads into no repository does to the state. *)
Definition plain_line (repo_url req_line : string) (st : State) : State :=
  let req_line := Str.strip req_line in
  if Str.is_empty req_line || Str.startswith "#" req_line then st
  else
    match Requirement req_line with
    | Parsed name specifier => record_requirement name specifier st
    | InvalidRequirement =>
        if Str.startswith "git+" req_line then st
        else add_url_requirement req_line st
    | OtherException => print (UnexpectedParseError req_line repo_url) st
    end.

(** [dependency_dict] after the requirements [l] were recorded in order. *)
Definition merge_all (l : list (string * SpecifierSet))
    (d : gmap string SpecifierSet) : gmap string SpecifierSet :=
  foldl (λ d e, merge_requirement e.1 e.2 d) d l.

(** The keys marked visited, and the keys whose manifest was requested, in
    the order of the trace. *)
Definition visits (t : list Event) : list RepoKey :=
  omap (λ e, match e with Visit k => Some k | _ => None end) t.

Definition fetches (t : list Event) : list RepoKey :=
  omap (λ e, match e with FetchManifest k _ => Some k | _ => None end) t.

(** The URLs requested, in order. *)
Definition requests (t : list Event) : list string :=
  omap (λ e, match e with
             | QueryApi u => Some u
             | FetchManifest _ u => Some u
             | _ => None
             end) t.

(** A trace is ordered when each manifest request comes after the mark of
    its key. *)
Definition visited_before_fetch (t : list Event) : Prop :=
  ∀ t1 k url t2, t = t1 ++ FetchManifest k url :: t2 → k ∈ visits t1.

(** The commit or branch the traversal settles on for a key (lines 44-49);
    it does not depend on the state. *)
Definition resolved_commit (key : RepoKey) : Exc (option string) :=
  (resolve_commit key.1 key.2 initial_state).1.

(** The lines the traversal reads for a key (lines 51-58): those of the
    manifest at the resolved commit, none when it cannot be had. *)
Definition manifest_of (key : RepoKey) : list string :=
  match resolved_commit key with
  | Value (Some commit_hash) =>
      match raw_requirements_url key.1 commit_hash with
      | Some url =>
          match requests_get url with
          | HttpResponse status_code text =>
              if (status_code =? 200)%Z then Str.splitlines text else []
          | RequestException => []
          end
      | None => []
      end
  | _ => []
  end.

(** The keys a key's manifest refers to: the edges of the traversal graph. *)
Definition references (key : RepoKey) : list RepoKey :=
  omap line_reference (manifest_of key).

(** The requirements a key's manifest holds. *)
Definition requirements_of (key : RepoKey) : list (string * SpecifierSet) :=
  omap line_requirement (manifest_of key).

(** A set of keys that holds every key its members refer to. *)
Definition closed (U : gset RepoKey) : Prop :=
  ∀ k k', k ∈ U → k' ∈ references k → k' ∈ U.

(** The key an entry of the input list is traversed under (lines 131-137). *)
Definition entry_key (repo : json) : option RepoKey :=
  match repo with
  | JObject fields =>
      match dict_get "repo" fields, default (JString "") (dict_get "commit" fields) with
      | Some (JString url), JString commit =>
          if Str.is_empty url then None else Some (url, Some (Str.strip commit))
      | _, _ => None
      end
  | _ => None
  end.

Definition roots (repos : list json) : list RepoKey := omap entry_key repos.

(** The URL library accepts a key's URL: neither [urlparse] (line 13) nor
    [urljoin] (line 53) raises for it. *)
Definition url_accepted (key : RepoKey) : Prop :=
  resolved_commit key ≠ Raise ∧
  ∀ commit_hash, resolved_commit key = Value (Some commit_hash) →
                 raw_requirements_url key.1 commit_hash ≠ None.

(** A repository descriptor: an object whose [commit], when present, is a
    string, and whose [repo] is missing, false, or a string the URL library
    accepts. *)
Definition descriptor (repo : json) : Prop :=
  match repo with
  | JObject fields =>
      match default (JString "") (dict_get "commit" fields) with
      | JString commit =>
          match dict_get "repo" fields with
          | Some (JString url) =>
              Str.is_empty url = true ∨ url_accepted (url, Some (Str.strip commit))
          | Some v => truthy v = false
          | None => True
          end
      | _ => False
      end
  | _ => False
  end.

(** An entry the loop over the input list cannot handle (lines 131-137): no
    object, a [commit] that is no string, or a true [repo] that is no
    string. *)
Definition malformed (repo : json) : Prop :=
  match repo with
  | JObject fields =>
      match default (JString "") (dict_get "commit" fields) with
      | JString _ =>
          match dict_get "repo" fields with
          | Some (JString _) | None => False
          | Some v => truthy v = true
          end
      | _ => True
      end
  | _ => True
  end.

(** The URL library refuses a key's URL: [urlparse] (line 13) or [urljoin]
    (line 53) raises for it. *)
Definition url_refused (key : RepoKey) : Prop :=
  resolved_commit key = Raise ∨
  ∃ commit_hash, resolved_commit key = Value (Some commit_hash) ∧
                 raw_requirements_url key.1 commit_hash = None.

(** The failure of the metadata query, as the message the script prints for
    it: an exception of the request or of the decoding, or a status other
    than 200 (lines 25-30). *)
Definition query_failure (repo_url api_url : string) : option Message :=
  match requests_get api_url with
  | HttpResponse status_code text =>
      if (status_code =? 200)%Z then
        match json_loads text with
        | Some (JObject _) => None
        | _ => Some (ErrorDefaultBranch repo_url)
        end
      else Some (FailedDefaultBranch repo_url status_code)
  | RequestException => Some (ErrorDefaultBranch repo_url)
  end.

(** [closed], as a test on the members of [U]. *)
Definition closedb (U : gset RepoKey) : bool :=
  forallb (λ k, forallb (λ k', bool_decide (k' ∈ U)) (references k)) (elements U).

(** The keys the traversal graph holds: those of the input list, and those
    the manifest of such a key refers to. *)
Inductive reachable (repos : list json) : RepoKey → Prop :=
  | reachable_root k : k ∈ roots repos → reachable repos k
  | reachable_reference k k' :
      reachable repos k → k' ∈ references k → reachable repos k'.

(** Every visited key outside [S] (the keys whose manifest is being read)
    has its references visited. *)
Definition explored (S V : gset RepoKey) : Prop :=
  ∀ k k', k ∈ V → k ∉ S → k' ∈ references k → k' ∈ V.

(** What holds of every state a run from [initial_state] reaches. *)
Definition consistent (st : State) : Prop :=
  NoDup (visits (trace st)) ∧
  (∀ k, k ∈ visits (trace st) ↔ k ∈ visited_repos st) ∧
  NoDup (fetches (trace st)) ∧
  visited_before_fetch (trace st) ∧
  dependency_dict st = merge_all (recorded st) ∅.

(** Events other than marks and manifest requests. *)
Definition quiet (e : Event) : Prop :=
  match e with
  | Visit _ | FetchManifest _ _ => False
  | _ => True
  end.

(** [st'] is [st] with quiet events added to the trace. *)
Definition quiet_step (st st' : State) : Prop :=
  ∃ es, Forall quiet es ∧
        st' = mkState (dependency_dict st) (url_requirements st)
                      (visited_repos st) (recorded st) (trace st ++ es).

(** [st'] holds everything [st] holds. *)
Definition extends (st st' : State) : Prop :=
  visited_repos st ⊆ visited_repos st' ∧
  url_requirements st ⊆ url_requirements st' ∧
  recorded st `prefix_of` recorded st' ∧
  trace st `prefix_of` trace st' ∧
  ∀ name S, dependency_dict st !! name = Some S →
            ∃ S', dependency_dict st' !! name = Some S' ∧ S ⊆ S'.

(** The [time.sleep] calls of a trace. *)
Definition sleeps (t : list Event) : nat :=
  length (omap (λ e, match e with Sleep => Some () | _ => None end) t).

(** From [st] to [st'] the manifest requests outnumber the sleeps by [n]. *)
Definition owing (n : nat) (st st' : State) : Prop :=
  ∃ es, trace st' = trace st ++ es ∧ sleeps es + n = length (fetches es).

(** The metadata queries of a trace. *)
Definition queries (t : list Event) : list string :=
  omap (λ e, match e with QueryApi u => Some u | _ => None end) t.

(** The visited keys that came without a commit. *)
Definition unset_visits (t : list Event) : list RepoKey :=
  filter (λ k, unset k.2 = true) (visits t).

(** From [st] to [st'] there is at most one metadata query, to the hosting
    service, for each key visited without a commit. *)
Definition metered (st st' : State) : Prop :=
  ∃ es, trace st' = trace st ++ es ∧
        length (queries es) ≤ length (unset_visits es) ∧
        Forall (λ u, Str.startswith "https://api.github.com/repos/" u = true)
               (queries es).

(** The failure of the manifest request, as the message the script prints
    for it (lines 87-90). *)
Definition fetch_failure (repo_url commit_hash url : string) : option Message :=
  match requests_get url with
  | HttpResponse status_code _ =>
      if (status_code =? 200)%Z then None
      else Some (NoRequirementsFound repo_url commit_hash status_code)
  | RequestException => Some (ErrorFetchingRequirements repo_url)
  end.

(** The clauses recorded for the package [n]: those of the requirements of
    [l] whose lowercased name is [n]. *)
Definition clauses_for (l : list (string * SpecifierSet)) (n : string)
  : option (gset Specifier) :=
  match filter (λ e, Str.lower e.1 = n) l with
  | [] => None
  | es => Some (⋃ (clauses <$> es.*2))
  end.

(** [d1 == d2] of two [dependency_dict]s: the same names, each with the same
    clauses (two [SpecifierSet]s are equal when their frozensets are; the
    texts of the clauses are not compared). *)
Definition same_constraints (d1 d2 : gmap string SpecifierSet) : Prop :=
  ∀ name, clauses <$> d1 !! name = clauses <$> d2 !! name.

(** ** Specifier merging *)

Lemma clauses_and (a b : SpecifierSet) :
  clauses (specifier_and a b) = clauses a ∪ clauses b.
Proof. apply dom_union_L. Qed.


Lemma SpecifierSet_contains_spec (s : SpecifierSet) (v : Version) :
  SpecifierSet_contains s v = true ↔
  (Version_is_prerelease v = true → SpecifierSet_prereleases s = true) ∧
  ∀ c, c ∈ clauses s → Specifier_contains c v = true.
Proof.
  unfold SpecifierSet_contains.
  assert (forallb (λ c, Specifier_contains c v) (elements (clauses s)) = true ↔
          ∀ c, c ∈ clauses s → Specifier_contains c v = true) as Hall.
  { rewrite forallb_forall. split; intros Hall c Hc; apply Hall.
    - apply list_elem_of_In, elem_of_elements, Hc.
    - apply elem_of_elements, list_elem_of_In, Hc. }
  destruct (Version_is_prerelease v), (SpecifierSet_prereleases s); simpl;
    rewrite ?Hall; intuition congruence.
Qed.




Lemma SpecifierSet_contains_clauses (a b : SpecifierSet) (v : Version) :
  clauses a = clauses b → SpecifierSet_contains a v = SpecifierSet_contains b v.
Proof.
  intros Hab. unfold SpecifierSet_contains, SpecifierSet_prereleases.
  by rewrite Hab.
Qed.

Lemma lookup_merge_requirement name specifier (d : gmap string SpecifierSet) k :
  merge_requirement name specifier d !! k =
  if decide (Str.lower name = k)
  then Some (from_option (λ e, specifier_and e specifier) specifier (d !! k))
  else d !! k.
Proof.
  unfold merge_requirement. case_decide as Hk.
  - subst k. destruct (d !! Str.lower name) eqn:E; simpl;
      by rewrite lookup_insert_eq.
  - destruct (d !! Str.lower name); by rewrite lookup_insert_ne.
Qed.

Lemma merge_all_snoc l name specifier (d : gmap string SpecifierSet) :
  merge_all (l ++ [(name, specifier)]) d =
  merge_requirement name specifier (merge_all l d).
Proof. unfold merge_all. by rewrite foldl_app. Qed.

Lemma specifier_and_list (l1 l2 : list SpecifierSet) :
  ⋃ (l1 ++ l2) = specifier_and (⋃ l1) (⋃ l2).
Proof.
  unfold specifier_and. induction l1 as [|s l1 IH]; simpl.
  - by rewrite (left_id_L ∅ (∪)).
  - by rewrite IH, (assoc_L (∪)).
Qed.

(** The entry of a name holds the specifiers recorded for it, merged in the
    order they were recorded. *)
Lemma merge_all_lookup (l : list (string * SpecifierSet)) n :
  merge_all l ∅ !! n =
  match filter (λ e, Str.lower e.1 = n) l with
  | [] => None
  | es => Some (⋃ es.*2)
  end.
Proof.
  induction l as [|[name specifier] l IH] using rev_ind.
  { unfold merge_all. simpl. by rewrite lookup_empty. }
  rewrite merge_all_snoc, lookup_merge_requirement, filter_app, IH.
  rewrite filter_cons, filter_nil. simpl.
  case_decide as Hn.
  - destruct (filter _ l) as [|e es]; simpl.
    + by rewrite (right_id_L ∅ (∪)).
    + f_equal. rewrite fmap_app, specifier_and_list. simpl.
      unfold specifier_and. by rewrite (right_id_L ∅ (∪)), (assoc_L (∪)).
  - by rewrite app_nil_r.
Qed.

Lemma clauses_union_list (l : list SpecifierSet) :
  clauses (⋃ l) = ⋃ (clauses <$> l).
Proof.
  induction l as [|s l IH]; simpl.
  - apply dom_empty_L.
  - unfold clauses in *. by rewrite dom_union_L, IH.
Qed.

Lemma merge_all_clauses (l : list (string * SpecifierSet)) n :
  clauses <$> merge_all l ∅ !! n = clauses_for l n.
Proof.
  rewrite merge_all_lookup. unfold clauses_for.
  destruct (filter _ l) as [|e es]; [done|].
  change (clauses <$> Some (⋃ (e :: es).*2)) with (Some (clauses (⋃ (e :: es).*2))).
  by rewrite clauses_union_list.
Qed.

Lemma elem_of_union_clauses (es : list (string * SpecifierSet)) c :
  c ∈ ⋃ (clauses <$> es.*2) ↔ ∃ name' S', (name', S') ∈ es ∧ c ∈ clauses S'.
Proof.
  rewrite elem_of_union_list. split.
  - intros (X & HX & Hc).
    apply list_elem_of_fmap in HX as (S' & -> & HS').
    apply list_elem_of_fmap in HS' as ([name' S''] & -> & Hin).
    by exists name', S''.
  - intros (name' & S' & Hin & Hc). exists (clauses S'). split; [|done].
    apply list_elem_of_fmap. exists S'. split; [done|].
    apply list_elem_of_fmap. by exists (name', S').
Qed.

Lemma elem_of_clauses_for (l : list (string * SpecifierSet)) n S c :
  clauses_for l n = Some S →
  c ∈ S ↔ ∃ name' S', (name', S') ∈ l ∧ Str.lower name' = n ∧ c ∈ clauses S'.
Proof.
  intros HS.
  assert (S = ⋃ (clauses <$> (filter (λ e, Str.lower e.1 = n) l).*2)) as ->.
  { unfold clauses_for in HS. destruct (filter _ l); [done|]. by injection HS as <-. }
  rewrite elem_of_union_clauses. split.
  - intros (name' & S' & [Hn Hin]%list_elem_of_filter & Hc). by exists name', S'.
  - intros (name' & S' & Hin & Hn & Hc). exists name', S'. split; [|done].
    by apply list_elem_of_filter.
Qed.

Lemma clauses_for_is_Some (l : list (string * SpecifierSet)) n :
  is_Some (clauses_for l n) ↔ ∃ name' S', (name', S') ∈ l ∧ Str.lower name' = n.
Proof.
  unfold clauses_for.
  destruct (filter _ l) as [|[name' S'] es] eqn:E.
  - split; [by intros [? ?]|]. intros (name' & S' & Hin & Hn).
    exfalso. apply (elem_of_nil (name', S')). rewrite <- E.
    by apply list_elem_of_filter.
  - split; [|by eexists]. intros _. exists name', S'.
    assert ((name', S') ∈ filter (λ e, Str.lower e.1 = n) l) as Hin.
    { rewrite E. apply list_elem_of_here. }
    by apply list_elem_of_filter in Hin as [? ?].
Qed.

(** The clauses recorded for a name depend on which requirements were
    recorded, not on their order or number. *)
Lemma clauses_for_same_elements (l1 l2 : list (string * SpecifierSet)) n :
  (∀ e, e ∈ l1 ↔ e ∈ l2) → clauses_for l1 n = clauses_for l2 n.
Proof.
  intros Hsame.
  assert (∀ l l' : list (string * SpecifierSet),
            (∀ e, e ∈ l → e ∈ l') →
            ∀ S, clauses_for l n = Some S →
                 ∃ S', clauses_for l' n = Some S' ∧ S ⊆ S') as Hmono.
  { intros l l' Hsub S HS.
    destruct (clauses_for l' n) as [S'|] eqn:HS'.
    - exists S'. split; [done|]. intros c.
      rewrite (elem_of_clauses_for _ _ _ _ HS), (elem_of_clauses_for _ _ _ _ HS').
      intros (name' & S0 & Hin & Hn & Hc). exists name', S0. auto.
    - assert (is_Some (clauses_for l n)) as Hsome by by eexists.
      apply clauses_for_is_Some in Hsome as (name' & S0 & Hin & Hn).
      assert (is_Some (clauses_for l' n)) as [? Hl'].
      { apply clauses_for_is_Some. exists name', S0. auto. }
      congruence. }
  destruct (clauses_for l1 n) as [S1|] eqn:H1,
           (clauses_for l2 n) as [S2|] eqn:H2; [| | |done].
  - destruct (Hmono l1 l2 (λ e, proj1 (Hsame e)) S1 H1) as (S2' & H2' & Hsub).
    destruct (Hmono l2 l1 (λ e, proj2 (Hsame e)) S2 H2) as (S1' & H1' & Hsub').
    simplify_eq. f_equal. apply set_eq. intros c. split; [apply Hsub|apply Hsub'].
  - destruct (Hmono l1 l2 (λ e, proj1 (Hsame e)) S1 H1) as (? & ? & _). congruence.
  - destruct (Hmono l2 l1 (λ e, proj2 (Hsame e)) S2 H2) as (? & ? & _). congruence.
Qed.

Lemma merge_all_same_constraints (l1 l2 : list (string * SpecifierSet)) :
  (∀ e, e ∈ l1 ↔ e ∈ l2) →
  same_constraints (merge_all l1 ∅) (merge_all l2 ∅).
Proof.
  intros Hsame name. rewrite !merge_all_clauses.
  by apply clauses_for_same_elements.
Qed.


(** ** One manifest line *)

Lemma process_line_unfold recurse repo_url req_line st :
  process_line recurse repo_url req_line st =
  match line_reference req_line with
  | Some (git_repo_url, git_commit) => recurse git_repo_url git_commit st
  | None => (Returned, plain_line repo_url req_line st)
  end.
Proof.
  unfold process_line, line_reference, plain_line.
  destruct (Str.is_empty (Str.strip req_line) || Str.startswith "#" (Str.strip req_line));
    [done|].
  destruct (Requirement (Str.strip req_line)); try done.
  destruct (Str.startswith "git+" (Str.strip req_line)); [|done].
  destruct (parse_git_requirement (Str.strip req_line)) as [[u|] c]; [|done].
  by destruct (Str.is_empty u).
Qed.

Lemma line_requirement_no_reference req_line e :
  line_requirement req_line = Some e → line_reference req_line = None.
Proof.
  unfold line_requirement, line_reference.
  destruct (Str.is_empty (Str.strip req_line) || Str.startswith "#" (Str.strip req_line));
    [done|].
  by destruct (Requirement (Str.strip req_line)).
Qed.

Lemma plain_line_requirement repo_url req_line name specifier st :
  line_requirement req_line = Some (name, specifier) →
  plain_line repo_url req_line st = record_requirement name specifier st.
Proof.
  unfold line_requirement, plain_line.
  destruct (Str.is_empty (Str.strip req_line) || Str.startswith "#" (Str.strip req_line));
    [done|].
  destruct (Requirement (Str.strip req_line)); try done.
  by intros [= -> ->].
Qed.

(** A first specifier for a name is stored as it is. *)
Lemma first_specifier_is_stored recurse repo_url req_line name (S : SpecifierSet) st :
  line_requirement req_line = Some (name, S) →
  dependency_dict st !! Str.lower name = None →
  dependency_dict (process_line recurse repo_url req_line st).2
    !! Str.lower name = Some S.
Proof.
  intros Hline Hnew.
  rewrite process_line_unfold, (line_requirement_no_reference _ _ Hline).
  rewrite (plain_line_requirement _ _ _ _ _ Hline). simpl.
  rewrite lookup_merge_requirement, decide_True by done. by rewrite Hnew.
Qed.

(** A line that is no requirement and does not start with [git+] is kept,
    stripped, in [url_requirements]; nothing else changes. *)
Lemma opaque_line_is_kept recurse repo_url req_line st :
  Str.is_empty (Str.strip req_line) = false →
  Str.startswith "#" (Str.strip req_line) = false →
  Requirement (Str.strip req_line) = InvalidRequirement →
  Str.startswith "git+" (Str.strip req_line) = false →
  process_line recurse repo_url req_line st =
    (Returned, add_url_requirement (Str.strip req_line) st).
Proof.
  intros Hne Hcomment Hinvalid Hgit. unfold process_line.
  by rewrite Hne, Hcomment, Hinvalid, Hgit.
Qed.

(** What is written depends on [dependency_dict] alone. *)
Lemma manifest_ignores_url_requirements req_line st :
  manifest_text (dependency_dict (add_url_requirement req_line st)) =
  manifest_text (dependency_dict st).
Proof. done. Qed.

(** C10. A line that starts with [git+], is no requirement and does not match
    the pattern of [parse_git_requirement] leaves the run as it was: nothing
    is recursed into, recorded, kept as an opaque line or printed. *)
Theorem unmatched_git_line_contributes_nothing recurse repo_url req_line st :
  Str.startswith "git+" (Str.strip req_line) = true →
  Requirement (Str.strip req_line) = InvalidRequirement →
  parse_git_requirement (Str.strip req_line) = (None, None) →
  process_line recurse repo_url req_line st = (Returned, st).
Proof.
  intros Hgit Hinvalid Hmatch. unfold process_line.
  rewrite Hinvalid, Hgit, Hmatch.
  by destruct (Str.is_empty (Str.strip req_line) || Str.startswith "#" (Str.strip req_line)).
Qed.

(** ** Traces *)

Lemma visits_app t1 t2 : visits (t1 ++ t2) = visits t1 ++ visits t2.
Proof. apply omap_app. Qed.

Lemma fetches_app t1 t2 : fetches (t1 ++ t2) = fetches t1 ++ fetches t2.
Proof. apply omap_app. Qed.

Lemma visits_quiet es : Forall quiet es → visits es = [].
Proof.
  induction 1 as [|e es He _ IH]; [done|].
  destruct e; simpl in *; try done.
Qed.

Lemma fetches_quiet es : Forall quiet es → fetches es = [].
Proof.
  induction 1 as [|e es He _ IH]; [done|].
  destruct e; simpl in *; try done.
Qed.

Lemma visited_before_fetch_nil : visited_before_fetch [].
Proof. intros [|? ?] ? ? ? ?; discriminate. Qed.

Lemma visited_before_fetch_snoc t e :
  visited_before_fetch t →
  (∀ k url, e = FetchManifest k url → k ∈ visits t) →
  visited_before_fetch (t ++ [e]).
Proof.
  intros Ht He t1 k url t2 Heq.
  destruct (decide (t2 = [])) as [->|Hne].
  - apply app_inj_tail in Heq as [-> ->]. by eapply He.
  - destruct (exists_last Hne) as (t2' & e' & ->).
    change (t ++ [e] = t1 ++ (FetchManifest k url :: t2') ++ [e']) in Heq.
    rewrite (assoc_L (++)) in Heq. apply app_inj_tail in Heq as [-> ->].
    by eapply Ht.
Qed.

Lemma fetches_in_visits t k :
  visited_before_fetch t → k ∈ fetches t → k ∈ visits t.
Proof.
  intros Ht Hk. unfold fetches in Hk.
  apply list_elem_of_omap in Hk as (e & He & Hek).
  destruct e; try done. injection Hek as ->.
  apply list_elem_of_split in He as (t1 & t2 & ->).
  rewrite visits_app. apply elem_of_app. left. by eapply Ht.
Qed.

(** ** Steps that keep a state consistent *)

Lemma quiet_step_refl st : quiet_step st st.
Proof. exists []. split; [done|]. destruct st; simpl. by rewrite app_nil_r. Qed.

Lemma quiet_step_trans st1 st2 st3 :
  quiet_step st1 st2 → quiet_step st2 st3 → quiet_step st1 st3.
Proof.
  intros (es1 & H1 & ->) (es2 & H2 & ->). exists (es1 ++ es2). split.
  - by apply Forall_app.
  - simpl. by rewrite (assoc_L (++)).
Qed.

Lemma quiet_step_emit e st : quiet e → quiet_step st (emit e st).
Proof. intros He. exists [e]. split; [by constructor|done]. Qed.

Lemma quiet_step_emit_after e st st' :
  quiet e → quiet_step st st' → quiet_step st (emit e st').
Proof. intros He Hs. eapply quiet_step_trans; [done|by apply quiet_step_emit]. Qed.

Lemma quiet_step_visited st st' :
  quiet_step st st' → visited_repos st' = visited_repos st.
Proof. by intros (es & _ & ->). Qed.

Lemma quiet_step_visits st st' :
  quiet_step st st' → visits (trace st') = visits (trace st).
Proof.
  intros (es & Hes & ->). simpl.
  by rewrite visits_app, (visits_quiet _ Hes), app_nil_r.
Qed.

Lemma quiet_step_fetches st st' :
  quiet_step st st' → fetches (trace st') = fetches (trace st).
Proof.
  intros (es & Hes & ->). simpl.
  by rewrite fetches_app, (fetches_quiet _ Hes), app_nil_r.
Qed.

Lemma consistent_initial : consistent initial_state.
Proof.
  repeat split; simpl; try by constructor.
  - by intros ?%elem_of_nil.
  - by intros ?%elem_of_empty.
  - apply visited_before_fetch_nil.
Qed.

Lemma consistent_emit_quiet e st : quiet e → consistent st → consistent (emit e st).
Proof.
  intros He (Hv & Hvs & Hf & Ho & Hd). unfold consistent. simpl.
  rewrite visits_app, fetches_app, (visits_quiet [e]), (fetches_quiet [e]), !app_nil_r
    by (by constructor).
  repeat split; try done; try apply Hvs.
  apply visited_before_fetch_snoc; [done|]. intros k url ->. done.
Qed.

Lemma consistent_quiet_step st st' :
  quiet_step st st' → consistent st → consistent st'.
Proof.
  intros (es & Hes & ->). revert Hes. induction es as [|e es IH] using rev_ind.
  - intros _ Hst. destruct st; simpl. by rewrite app_nil_r.
  - intros [Hes He]%Forall_app Hst. rewrite Forall_singleton in He.
    specialize (IH Hes Hst). apply (consistent_emit_quiet e) in IH; [|done].
    unfold emit in IH; simpl in IH. by rewrite <- (assoc_L (++)) in IH.
Qed.

Lemma consistent_mark_visited key st :
  key ∉ visited_repos st → consistent st → consistent (mark_visited key st).
Proof.
  intros Hnew (Hv & Hvs & Hf & Ho & Hd). unfold consistent. simpl.
  rewrite visits_app, fetches_app. simpl. rewrite app_nil_r.
  repeat split; try done.
  - apply NoDup_app. repeat split; [done| |apply NoDup_singleton].
    intros k Hk ->%list_elem_of_singleton. by apply Hnew, Hvs.
  - intros [Hk| ->%list_elem_of_singleton]%elem_of_app;
      [|by apply elem_of_union_l, elem_of_singleton].
    apply elem_of_union_r. by apply Hvs.
  - intros [->%elem_of_singleton|Hk]%elem_of_union; apply elem_of_app.
    + right. by apply list_elem_of_singleton.
    + left. by apply Hvs.
  - apply visited_before_fetch_snoc; [done|]. intros ? ? [=].
Qed.

Lemma consistent_fetch key url st :
  key ∈ visits (trace st) → key ∉ fetches (trace st) →
  consistent st → consistent (emit (FetchManifest key url) st).
Proof.
  intros Hin Hnew (Hv & Hvs & Hf & Ho & Hd). unfold consistent. simpl.
  rewrite visits_app, fetches_app. simpl. rewrite app_nil_r.
  repeat split; try done; try apply Hvs.
  - apply NoDup_app. repeat split; [done| |apply NoDup_singleton].
    by intros k Hk ->%list_elem_of_singleton.
  - apply visited_before_fetch_snoc; [done|]. by intros ? ? [= -> ->].
Qed.

Lemma consistent_record name specifier st :
  consistent st → consistent (record_requirement name specifier st).
Proof.
  intros (Hv & Hvs & Hf & Ho & Hd). unfold consistent. simpl.
  repeat split; try done; try apply Hvs.
  unfold merge_all. rewrite foldl_app. simpl. f_equal. apply Hd.
Qed.

Lemma consistent_add_url req_line st :
  consistent st → consistent (add_url_requirement req_line st).
Proof. intros (Hv & Hvs & Hf & Ho & Hd). by repeat split; try apply Hvs. Qed.

Lemma consistent_plain_line repo_url req_line st :
  consistent st → consistent (plain_line repo_url req_line st).
Proof.
  intros Hst. unfold plain_line.
  destruct (Str.is_empty (Str.strip req_line) || Str.startswith "#" (Str.strip req_line));
    [done|].
  destruct (Requirement (Str.strip req_line)).
  - by apply consistent_record.
  - destruct (Str.startswith "git+" (Str.strip req_line)); [done|].
    by apply consistent_add_url.
  - by apply consistent_emit_quiet.
Qed.

Lemma plain_line_visited repo_url req_line st :
  visited_repos (plain_line repo_url req_line st) = visited_repos st.
Proof.
  unfold plain_line.
  destruct (Str.is_empty (Str.strip req_line) || Str.startswith "#" (Str.strip req_line));
    [done|].
  destruct (Requirement (Str.strip req_line)); try done.
  by destruct (Str.startswith "git+" (Str.strip req_line)).
Qed.

Ltac consistent_emits :=
  repeat (apply consistent_emit_quiet; [exact I|]); try done.

(** ** The default branch *)

Lemma get_default_branch_quiet repo_url st :
  quiet_step st (get_default_branch repo_url st).2.
Proof.
  unfold get_default_branch.
  destruct (urlparse_path repo_url) as [path|]; [|apply quiet_step_refl].
  destruct (Str.split "/" (Str.strip_char "/" path)) as [|owner [|repo_name rest]];
    try (by apply quiet_step_emit).
  destruct (requests_get _) as [status_code text|].
  - destruct (status_code =? 200)%Z.
    + destruct (json_loads text) as [[| | | | |repo_info]|]; simpl;
        try (by apply quiet_step_emit_after; [|apply quiet_step_emit]).
      destruct (dict_get "default_branch" repo_info); by apply quiet_step_emit.
    + by apply quiet_step_emit_after; [|apply quiet_step_emit].
  - by apply quiet_step_emit_after; [|apply quiet_step_emit].
Qed.

Lemma get_default_branch_value repo_url st st' :
  (get_default_branch repo_url st).1 = (get_default_branch repo_url st').1.
Proof.
  unfold get_default_branch.
  destruct (urlparse_path repo_url) as [path|]; [|done].
  destruct (Str.split "/" (Str.strip_char "/" path)) as [|owner [|repo_name rest]];
    try done.
  destruct (requests_get _) as [status_code text|]; [|done].
  destruct (status_code =? 200)%Z; [|done].
  destruct (json_loads text) as [[| | | | |repo_info]|]; try done.
  by destruct (dict_get "default_branch" repo_info).
Qed.

Lemma resolve_commit_quiet repo_url commit_hash st :
  quiet_step st (resolve_commit repo_url commit_hash st).2.
Proof.
  unfold resolve_commit, default_branch_or_skip.
  destruct (unset commit_hash); [|apply quiet_step_refl].
  pose proof (get_default_branch_quiet repo_url st) as Hq.
  destruct (get_default_branch repo_url st) as [[[branch|]|] st']; simpl in *;
    try done.
  - destruct (truthy branch); [done|]. by apply quiet_step_emit_after.
  - by apply quiet_step_emit_after.
Qed.

Lemma resolve_commit_value repo_url commit_hash st st' :
  (resolve_commit repo_url commit_hash st).1 =
  (resolve_commit repo_url commit_hash st').1.
Proof.
  unfold resolve_commit, default_branch_or_skip.
  destruct (unset commit_hash); [|done].
  pose proof (get_default_branch_value repo_url st st') as Hv.
  destruct (get_default_branch repo_url st) as [[[branch|]|] st1],
           (get_default_branch repo_url st') as [[[branch'|]|] st1'];
    simpl in *; try done.
  injection Hv as ->. by destruct (truthy branch').
Qed.

(** ** The loop over a manifest *)

(** A rule for [process_lines]: what the plain lines keep and the recursive
    calls establish holds at the end of the loop. *)
Lemma process_lines_rule (P : State → Prop) (G : Outcome → Prop)
    recurse repo_url lines :
  G Returned →
  (∀ l st, l ∈ lines → line_reference l = None → P st →
           P (plain_line repo_url l st)) →
  (∀ l u c st, l ∈ lines → line_reference l = Some (u, c) → P st →
               G (recurse u c st).1 ∧ P (recurse u c st).2) →
  ∀ st, P st →
        G (process_lines recurse repo_url lines st).1 ∧
        P (process_lines recurse repo_url lines st).2.
Proof.
  intros HG. induction lines as [|l lines IH]; intros Hplain Hrec st Hst; [done|].
  simpl. rewrite process_line_unfold.
  assert (∀ st, P st →
            G (process_lines recurse repo_url lines st).1 ∧
            P (process_lines recurse repo_url lines st).2) as IH'.
  { apply IH.
    - intros l' st' Hl'. apply Hplain. by apply list_elem_of_further.
    - intros l' u c st' Hl'. apply Hrec. by apply list_elem_of_further. }
  destruct (line_reference l) as [[u c]|] eqn:Href.
  - destruct (Hrec l u c st) as [HGr HPr]; [apply list_elem_of_here|done..|].
    destruct (recurse u c st) as [[| |] st']; simpl in *; auto.
  - apply IH'. apply Hplain; [apply list_elem_of_here|done..].
Qed.

(** ** The traversal keeps the state consistent *)

Lemma process_requirements_consistent fuel repo_url commit_hash st :
  consistent st →
  consistent (process_requirements_from_repo fuel repo_url commit_hash st).2 ∧
  visited_repos st ⊆
    visited_repos (process_requirements_from_repo fuel repo_url commit_hash st).2.
Proof.
  revert repo_url commit_hash st.
  induction fuel as [|fuel IH]; intros repo_url commit_hash st Hst; [done|].
  simpl. destruct (Str.is_empty repo_url); [done|].
  case_bool_decide as Hseen; [done|].
  set (key := (repo_url, commit_hash)) in *.
  assert (consistent (mark_visited key st)) as Hst1
    by by apply consistent_mark_visited.
  assert (key ∈ visits (trace (mark_visited key st))) as Hin.
  { simpl. rewrite visits_app. apply elem_of_app. right. simpl. apply list_elem_of_here. }
  assert (key ∉ fetches (trace (mark_visited key st))) as Hnotin.
  { simpl. rewrite fetches_app, app_nil_r. intros Hk.
    destruct Hst as (_ & Hvs & _ & Ho & _).
    by apply Hseen, Hvs, fetches_in_visits. }
  pose proof (resolve_commit_quiet repo_url commit_hash (mark_visited key st)) as Hq.
  destruct (resolve_commit repo_url commit_hash (mark_visited key st))
    as [resolved st2]; simpl in Hq.
  pose proof (consistent_quiet_step _ _ Hq Hst1) as Hst2.
  assert (visited_repos st ⊆ visited_repos st2) as Hmono.
  { rewrite (quiet_step_visited _ _ Hq). apply union_subseteq_r. }
  destruct resolved as [[commit|]|]; [|done..].
  destruct (raw_requirements_url repo_url commit) as [url|]; [|done].
  assert (consistent (emit (FetchManifest key url) st2)) as Hst3.
  { apply consistent_fetch; [| |done].
    - by rewrite (quiet_step_visits _ _ Hq).
    - by rewrite (quiet_step_fetches _ _ Hq). }
  destruct (requests_get url) as [status_code text|]; simpl;
    [|by split; [consistent_emits|]].
  destruct (status_code =? 200)%Z; simpl; [|by split; [consistent_emits|]].
  destruct (process_lines_rule
    (λ st', consistent st' ∧ visited_repos st ⊆ visited_repos st')
    (λ _, True) (process_requirements_from_repo fuel) repo_url
    (Str.splitlines text)) with (st := emit (FetchManifest key url) st2)
    as [_ [Hc Hv]]; [done| | |done|].
  - intros l st' _ _ [Hc Hv]. split; [by apply consistent_plain_line|].
    by rewrite plain_line_visited.
  - intros l u c st' _ _ [Hc Hv]. split; [done|].
    destruct (IH u c st' Hc) as [Hc' Hv']. split; [done|]. by etrans.
  - destruct (process_lines _ _ _ _) as [[| |] st4]; simpl in *;
      by split; [consistent_emits|].
Qed.

Lemma process_repos_consistent fuel repos st :
  consistent st → consistent (process_repos fuel repos st).2.
Proof.
  revert st. induction repos as [|repo repos IH]; intros st Hst; [done|].
  simpl. destruct repo as [| | | | |fields]; try done.
  destruct (default (JString "") (dict_get "commit" fields)) as [| | |commit| |];
    try done.
  destruct (dict_get "repo" fields) as [[| | |url| |]|];
    repeat match goal with
    | |- context [if ?b then _ else _] => destruct b
    end; try done; try (apply IH; by consistent_emits).
  pose proof (process_requirements_consistent fuel url (Some (Str.strip commit)) st Hst)
    as [Hc _].
  destruct (process_requirements_from_repo _ _ _ _) as [[| |] st']; simpl in *;
    try done. by apply IH.
Qed.

Lemma consolidate_requirements_consistent fuel json_file fs :
  consistent (final (consolidate_requirements fuel json_file fs)).
Proof.
  unfold consolidate_requirements.
  destruct (load_repositories json_file fs) as [repos|]; simpl.
  - pose proof (process_repos_consistent fuel repos _ consistent_initial) as Hc.
    destruct (process_repos _ _ _) as [[| |] st]; simpl in *; try done.
    by consistent_emits.
  - pose proof consistent_initial. by consistent_emits.
Qed.

(** C2, as the code has it.  The key is the pair [(repo_url, commit_hash)]
    as the call received it, before a missing commit is resolved.  In every
    run the keys marked are those of [visited_repos], no key is marked twice,
    no key has its manifest requested twice, and each manifest request comes
    after the mark of its key. *)
Theorem each_key_fetched_at_most_once fuel json_file fs :
  let r := consolidate_requirements fuel json_file fs in
  let t := trace (final r) in
  (∀ key, key ∈ visits t ↔ key ∈ visited_repos (final r)) ∧
  NoDup (visits t) ∧ NoDup (fetches t) ∧ visited_before_fetch t.
Proof.
  destruct (consolidate_requirements_consistent fuel json_file fs)
    as (Hv & Hvs & Hf & Ho & _). done.
Qed.


(** ** Termination *)

Lemma size_unvisited_decreases (U V V' : gset RepoKey) key :
  key ∈ U → key ∉ V → {[key]} ∪ V ⊆ V' → size (U ∖ V') < size (U ∖ V).
Proof.
  intros HU HV Hsub. apply subset_size. split.
  - intros k [Hk Hk']%elem_of_difference. apply elem_of_difference. split; [done|].
    intros HkV. apply Hk', Hsub. by apply elem_of_union_r.
  - intros Hback. assert (key ∈ U ∖ V') as [_ Hn]%elem_of_difference.
    { apply Hback. by apply elem_of_difference. }
    apply Hn, Hsub. by apply elem_of_union_l, elem_of_singleton.
Qed.

Lemma manifest_of_fetched repo_url commit_hash st commit st' url status_code text :
  resolve_commit repo_url commit_hash st = (Value (Some commit), st') →
  raw_requirements_url repo_url commit = Some url →
  requests_get url = HttpResponse status_code text →
  (status_code =? 200)%Z = true →
  manifest_of (repo_url, commit_hash) = Str.splitlines text.
Proof.
  intros Hres Hurl Hget Hok. unfold manifest_of, resolved_commit. simpl.
  rewrite (resolve_commit_value _ _ _ st), Hres. simpl.
  by rewrite Hurl, Hget, Hok.
Qed.

Lemma process_requirements_terminates (U : gset RepoKey) fuel repo_url commit_hash st :
  closed U →
  consistent st →
  (repo_url, commit_hash) ∈ U →
  size (U ∖ visited_repos st) < fuel →
  (process_requirements_from_repo fuel repo_url commit_hash st).1 ≠ OutOfFuel.
Proof.
  intros Hclosed. revert repo_url commit_hash st.
  induction fuel as [|fuel IH]; intros repo_url commit_hash st Hst HU Hsize; [lia|].
  simpl. destruct (Str.is_empty repo_url); [done|].
  case_bool_decide as Hseen; [done|].
  set (key := (repo_url, commit_hash)) in *.
  pose proof (resolve_commit_quiet repo_url commit_hash (mark_visited key st)) as Hq.
  destruct (resolve_commit repo_url commit_hash (mark_visited key st))
    as [resolved st2] eqn:Hres; simpl in Hq.
  destruct resolved as [[commit|]|]; [|done..].
  destruct (raw_requirements_url repo_url commit) as [url|] eqn:Hurl; [|done].
  destruct (requests_get url) as [status_code text|] eqn:Hget; [|done].
  destruct (status_code =? 200)%Z eqn:Hok; [|done].
  assert (consistent (emit (FetchManifest key url) st2)) as Hst3.
  { apply consistent_fetch.
    - rewrite (quiet_step_visits _ _ Hq). simpl. rewrite visits_app.
      apply elem_of_app. right. apply list_elem_of_here.
    - rewrite (quiet_step_fetches _ _ Hq). simpl. rewrite fetches_app, app_nil_r.
      intros Hk. destruct Hst as (_ & Hvs & _ & Ho & _).
      by apply Hseen, Hvs, fetches_in_visits.
    - eapply consistent_quiet_step; [done|]. by apply consistent_mark_visited. }
  destruct (process_lines_rule
    (λ st', consistent st' ∧ {[key]} ∪ visited_repos st ⊆ visited_repos st')
    (λ o, o ≠ OutOfFuel) (process_requirements_from_repo fuel) repo_url
    (Str.splitlines text)) with (st := emit (FetchManifest key url) st2)
    as [Hout _]; [done| | | |].
  - intros l st' _ _ [Hc Hv]. split; [by apply consistent_plain_line|].
    by rewrite plain_line_visited.
  - intros l u c st' Hl Href [Hc Hv].
    destruct (process_requirements_consistent fuel u c st' Hc) as [Hc' Hv'].
    split; [|split; [done|by etrans]].
    apply IH; [done| |].
    + apply (Hclosed key); [done|]. unfold references, key.
      rewrite (manifest_of_fetched _ _ _ _ _ _ _ _ Hres Hurl Hget Hok).
      apply list_elem_of_omap. eauto.
    + pose proof (size_unvisited_decreases U _ _ key HU Hseen Hv). lia.
  - split; [done|]. simpl. by rewrite (quiet_step_visited _ _ Hq).
  - by destruct (process_lines _ _ _ _) as [[| |] st4].
Qed.

Lemma process_repos_terminates (U : gset RepoKey) fuel repos st :
  closed U →
  consistent st →
  (∀ k, k ∈ roots repos → k ∈ U) →
  size U < fuel →
  (process_repos fuel repos st).1 ≠ OutOfFuel.
Proof.
  intros Hclosed Hst Hroots Hsize. revert st Hst.
  induction repos as [|repo repos IH]; intros st Hst; [done|].
  assert (∀ k, k ∈ roots repos → k ∈ U) as Hroots'.
  { intros k Hk. apply Hroots. unfold roots in *. simpl.
    destruct (entry_key repo); [by apply list_elem_of_further|done]. }
  assert (∀ k, entry_key repo = Some k → k ∈ U) as Hroot.
  { intros k Hk. apply Hroots. unfold roots. simpl. rewrite Hk.
    apply list_elem_of_here. }
  simpl. simpl in Hroot. destruct repo as [| | | | |fields]; try done.
  destruct (default (JString "") (dict_get "commit" fields))
    as [| | |commit| |] eqn:Hcommit; try done.
  destruct (dict_get "repo" fields) as [[| | |url| |]|] eqn:Hrepo;
    repeat match goal with
    | |- context [if ?b then _ else _] => destruct b eqn:?
    end; try done; try (apply IH; [done|by consistent_emits]).
  pose proof (process_requirements_consistent fuel url (Some (Str.strip commit)) st Hst)
    as [Hc _].
  pose proof (process_requirements_terminates U fuel url (Some (Str.strip commit)) st
                Hclosed Hst) as Hterm.
  destruct (process_requirements_from_repo _ _ _ _) as [[| |] st']; simpl in *;
    try done.
  - by apply IH.
  - apply Hterm; [apply Hroot; by rewrite Hrepo, Hcommit, Heqb|].
    assert (U ∖ visited_repos st ⊆ U) as Hsub
      by (intros k [? _]%elem_of_difference; done).
    apply subseteq_size in Hsub. lia.
Qed.

Lemma visited_exactly_once (l : list RepoKey) k :
  NoDup l → k ∈ l → length (filter (λ k', k' = k) l) = 1.
Proof.
  induction 1 as [|x l Hx Hl IH]; [by intros ?%elem_of_nil|].
  rewrite filter_cons. intros [->|Hk]%elem_of_cons.
  - rewrite decide_True by done. simpl. f_equal.
    assert (filter (λ k', k' = x) l = []) as ->; [|done].
    apply elem_of_nil_inv. by intros y [-> Hy]%list_elem_of_filter.
  - rewrite decide_False by (by intros ->). by apply IH.
Qed.

(** ** The exit status *)

Lemma process_requirements_not_raised fuel repo_url commit_hash st :
  url_accepted (repo_url, commit_hash) →
  (process_requirements_from_repo fuel repo_url commit_hash st).1 ≠ Raised.
Proof.
  intros [Hresolved Hjoin]. unfold resolved_commit in *. simpl in *.
  destruct fuel as [|fuel]; [done|]. simpl.
  destruct (Str.is_empty repo_url); [done|].
  case_bool_decide; [done|].
  set (st1 := mark_visited (repo_url, commit_hash) st).
  rewrite (resolve_commit_value _ _ _ st1) in Hresolved, Hjoin.
  destruct (resolve_commit repo_url commit_hash st1) as [[[commit|]|] st2];
    simpl in *; try done.
  specialize (Hjoin commit eq_refl).
  destruct (raw_requirements_url repo_url commit) as [url|]; [|done].
  destruct (requests_get url) as [status_code text|]; [|done].
  destruct (status_code =? 200)%Z; [|done].
  by destruct (process_lines _ _ _ _) as [[| |] st4].
Qed.


Lemma process_repos_descriptor fuel repo rest st :
  descriptor repo →
  process_repos fuel (repo :: rest) st =
  match entry_key repo with
  | Some (url, commit_hash) =>
      match process_requirements_from_repo fuel url commit_hash st with
      | (Returned, st) => process_repos fuel rest st
      | stop => stop
      end
  | None => process_repos fuel rest (print (InvalidRepositoryEntry repo) st)
  end.
Proof.
  intros Hrepo. simpl. destruct repo as [| | | | |fields]; try done. simpl in *.
  destruct (default (JString "") (dict_get "commit" fields)) as [| | |commit| |];
    try done.
  destruct (dict_get "repo" fields) as [[| |n|url|items|members]|]; simpl in *;
    try done; try (by rewrite Hrepo).
  by destruct (Str.is_empty url).
Qed.

Lemma entry_key_url repo url commit_hash :
  entry_key repo = Some (url, commit_hash) → Str.is_empty url = false.
Proof.
  destruct repo as [| | | | |fields]; try done. simpl.
  destruct (dict_get "repo" fields) as [[| | |url'| |]|]; try done.
  destruct (default (JString "") (dict_get "commit" fields)); try done.
  destruct (Str.is_empty url') eqn:Hurl; [done|]. by intros [= <- _].
Qed.

Lemma descriptor_accepted repo key :
  descriptor repo → entry_key repo = Some key → url_accepted key.
Proof.
  destruct repo as [| | | | |fields]; try done. simpl.
  destruct (default (JString "") (dict_get "commit" fields)) as [| | |commit| |];
    try done; destruct (dict_get "repo" fields) as [[| | |url| |]|]; try done.
  destruct (Str.is_empty url); [done|]. by intros [|Hok] [= <-].
Qed.

Lemma process_repos_not_raised fuel repos st :
  Forall descriptor repos → (process_repos fuel repos st).1 ≠ Raised.
Proof.
  intros Hrepos. revert st.
  induction Hrepos as [|repo repos Hrepo _ IH]; intros st; [done|].
  rewrite (process_repos_descriptor _ _ _ _ Hrepo).
  destruct (entry_key repo) as [[url commit_hash]|] eqn:Hkey; [|apply IH].
  pose proof (process_requirements_not_raised fuel url commit_hash st
                (descriptor_accepted _ _ Hrepo Hkey)).
  by destruct (process_requirements_from_repo _ _ _ _) as [[| |] st'].
Qed.

Lemma closedb_closed (U : gset RepoKey) : closedb U = true → closed U.
Proof.
  unfold closedb. rewrite forallb_forall. intros Hall k k' Hk Hk'.
  specialize (Hall k). rewrite forallb_forall in Hall.
  eapply bool_decide_eq_true, Hall.
  - by apply list_elem_of_In, elem_of_elements.
  - by apply list_elem_of_In.
Qed.

Lemma process_repos_app fuel before more st :
  process_repos fuel (before ++ more) st =
  match process_repos fuel before st with
  | (Returned, st) => process_repos fuel more st
  | stop => stop
  end.
Proof.
  revert st. induction before as [|repo before IH]; intros st; [done|].
  simpl.
  destruct repo as [| | | | |fields]; try done.
  destruct (default _ _) as [| | |commit| |]; try done.
  destruct (dict_get "repo" fields) as [[| | |url| |]|]; try apply IH.
  all: try (destruct (truthy _); [done|apply IH]).
  all: destruct (Str.is_empty url); [apply IH|].
  all: destruct (process_requirements_from_repo _ _ _ _) as [[] st1]; try done.
  all: apply IH.
Qed.

Lemma process_repos_entry fuel repo rest st url commit_hash :
  entry_key repo = Some (url, commit_hash) →
  process_repos fuel (repo :: rest) st =
  match process_requirements_from_repo fuel url commit_hash st with
  | (Returned, st) => process_repos fuel rest st
  | stop => stop
  end.
Proof.
  destruct repo as [| | | | |fields]; try done. simpl.
  destruct (dict_get "repo" fields) as [[| | |url'| |]|]; try done.
  destruct (default (JString "") (dict_get "commit" fields)) as [| | |commit| |];
    try done.
  destruct (Str.is_empty url') eqn:Hurl; [done|]. by intros [= <- <-].
Qed.

Lemma process_repos_malformed fuel repos st :
  Exists malformed repos → (process_repos fuel repos st).1 ≠ Returned.
Proof.
  intros Hrepos. revert st.
  induction Hrepos as [repo rest Hrepo|repo rest _ IH]; intros st.
  - simpl. destruct repo as [| | | | |fields]; try done. simpl in Hrepo.
    destruct (default (JString "") (dict_get "commit" fields)) as [| | |commit| |];
      try done.
    destruct (dict_get "repo" fields) as [[| | | | |]|]; simpl in *;
      try done; by rewrite Hrepo.
  - simpl. destruct repo as [| | | | |fields]; try done.
    destruct (default (JString "") (dict_get "commit" fields)) as [| | |commit| |];
      try done.
    destruct (dict_get "repo" fields) as [[| | |url| |]|]; try apply IH.
    all: try (destruct (truthy _); [done|apply IH]).
    all: destruct (Str.is_empty url); [apply IH|].
    all: destruct (process_requirements_from_repo _ _ _ _) as [[] st1]; try done.
    all: apply IH.
Qed.

(** A key the URL library refuses: the call for it raises when the key is
    new. *)
Lemma process_requirements_refused fuel key st :
  url_refused key →
  Str.is_empty key.1 = false →
  key ∉ visited_repos st →
  (process_requirements_from_repo (S fuel) key.1 key.2 st).1 = Raised.
Proof.
  intros Hrefused Hurl Hnew. destruct key as [url commit_hash].
  simpl in Hurl. cbn [process_requirements_from_repo fst snd].
  rewrite Hurl, bool_decide_eq_false_2 by done.
  pose proof (resolve_commit_value url commit_hash initial_state
                (mark_visited (url, commit_hash) st)) as Hvalue.
  unfold url_refused, resolved_commit in Hrefused. simpl in Hrefused.
  destruct (resolve_commit url commit_hash (mark_visited (url, commit_hash) st))
    as [v st1]. simpl in Hvalue.
  destruct Hrefused as [Hraise|(commit & Hresolved & Hraw)].
  - rewrite Hraise in Hvalue. by subst v.
  - rewrite Hresolved in Hvalue. subst v. by rewrite Hraw.
Qed.

(** C7, as the code has it.  A run whose input file cannot be read, decoded
    or is no list exits with status 1.  A run over a list of repository
    descriptors exits with status 0 whatever the requests return, failed
    fetches included, once the recursion budget exceeds a finite closed set of
    keys that holds the input's.  A run over a list with a malformed entry
    never exits with status 0, and exits with status 1 under the same
    budget.  An entry whose URL the URL library refuses ends the run with
    status 1 when its key is new as the loop reaches it, and is passed over
    when a manifest read before has marked the key visited. *)
Theorem exit_status_of_run (U : gset RepoKey) fuel json_file fs :
  (load_repositories json_file fs = None →
   exit_status (consolidate_requirements fuel json_file fs) = Some 1%Z) ∧
  (∀ repos,
     load_repositories json_file fs = Some repos →
     Forall descriptor repos →
     closed U →
     (∀ k, k ∈ roots repos → k ∈ U) →
     size U < fuel →
     exit_status (consolidate_requirements fuel json_file fs) = Some 0%Z) ∧
  (∀ repos,
     load_repositories json_file fs = Some repos →
     Exists malformed repos →
     exit_status (consolidate_requirements fuel json_file fs) ≠ Some 0%Z ∧
     (closed U →
      (∀ k, k ∈ roots repos → k ∈ U) →
      size U < fuel →
      exit_status (consolidate_requirements fuel json_file fs) = Some 1%Z)) ∧
  (∀ before repo rest key st,
     load_repositories json_file fs = Some (before ++ repo :: rest) →
     process_repos fuel before initial_state = (Returned, st) →
     entry_key repo = Some key →
     url_refused key →
     0 < fuel →
     (key ∉ visited_repos st →
      exit_status (consolidate_requirements fuel json_file fs) = Some 1%Z) ∧
     (key ∈ visited_repos st →
      process_repos fuel (before ++ repo :: rest) initial_state =
      process_repos fuel rest st)).
Proof.
  unfold consolidate_requirements. split; [|split; [|split]].
  - by intros ->.
  - intros repos -> Hrepos Hclosed Hroots Hsize.
    pose proof (process_repos_terminates U fuel repos initial_state Hclosed
                  consistent_initial Hroots Hsize) as Hterm.
    pose proof (process_repos_not_raised fuel repos initial_state Hrepos) as Hraise.
    by destruct (process_repos fuel repos initial_state) as [[| |] st].
  - intros repos -> Hrepos.
    pose proof (process_repos_malformed fuel repos initial_state Hrepos) as Hbad.
    split.
    + by destruct (process_repos fuel repos initial_state) as [[| |] st].
    + intros Hclosed Hroots Hsize.
      pose proof (process_repos_terminates U fuel repos initial_state Hclosed
                    consistent_initial Hroots Hsize) as Hterm.
      by destruct (process_repos fuel repos initial_state) as [[| |] st].
  - intros before repo rest [url commit_hash] st -> Hbefore Hkey Hrefused Hfuel.
    rewrite process_repos_app, Hbefore,
      (process_repos_entry _ _ _ _ _ _ Hkey).
    destruct fuel as [|fuel]; [lia|]. split.
    + intros Hnew.
      pose proof (process_requirements_refused fuel (url, commit_hash) st
                    Hrefused (entry_key_url _ _ _ Hkey) Hnew) as Hraised.
      cbn [fst snd] in Hraised.
      destruct (process_requirements_from_repo (S fuel) url commit_hash st)
        as [[| |] st1]; by cbn [fst] in Hraised.
    + intros Hseen. cbn [process_requirements_from_repo].
      rewrite (entry_key_url _ _ _ Hkey), bool_decide_eq_true_2 by done. done.
Qed.

(** ** Running twice *)

Lemma load_repositories_same json_file (fs fs' : gmap string string) :
  fs' !! json_file = fs !! json_file →
  load_repositories json_file fs' = load_repositories json_file fs.
Proof. unfold load_repositories. by intros ->. Qed.

(** C5. A second run on the files the first run left, with the input file
    unchanged, ends as the first did: the same status, the same trace and the
    same files, so the same [requirements.txt] character for character. *)
Theorem consolidation_is_idempotent fuel json_file fs :
  let r := consolidate_requirements fuel json_file fs in
  files r !! json_file = fs !! json_file →
  consolidate_requirements fuel json_file (files r) = r.
Proof.
  intros r Hsame. subst r. unfold consolidate_requirements in *.
  rewrite (load_repositories_same _ _ _ Hsame).
  destruct (load_repositories json_file fs) as [repos|]; [|done].
  destruct (process_repos fuel repos initial_state) as [[| |] st]; simpl; try done.
  by rewrite insert_insert_eq.
Qed.

(** ** The emitted manifest *)

Lemma sorted_requirements (d : gmap string SpecifierSet) :
  Sorted String.le (Str.sorted (consolidated_requirements d)) ∧
  Str.sorted (consolidated_requirements d) ≡ₚ consolidated_requirements d ∧
  ∀ line, line ∈ Str.sorted (consolidated_requirements d) ↔
          ∃ name specifier,
            d !! name = Some specifier ∧
            line = if bool_decide (specifier ≠ ∅)
                   then name +:+ SpecifierSet_str specifier else name.
Proof.
  unfold Str.sorted. split; [apply Sorted_merge_sort, _|].
  split; [apply merge_sort_Permutation|].
  intros line. rewrite merge_sort_Permutation. unfold consolidated_requirements.
  rewrite list_elem_of_fmap. split.
  - intros ([name specifier] & -> & Hin%elem_of_map_to_list). by exists name, specifier.
  - intros (name & specifier & Hin & ->). exists (name, specifier).
    split; [done|]. by apply elem_of_map_to_list.
Qed.

Lemma written_manifest fuel json_file fs :
  let r := consolidate_requirements fuel json_file fs in
  match exit_status r with
  | Some 0%Z =>
      files r = <["requirements.txt" := manifest_text (dependency_dict (final r))]> fs
  | _ => files r = fs
  end.
Proof.
  unfold consolidate_requirements.
  destruct (load_repositories json_file fs) as [repos|]; [|done].
  by destruct (process_repos fuel repos initial_state) as [[| |] st].
Qed.

(** ** The trace only grows *)

Lemma quiet_step_prefix st st' : quiet_step st st' → trace st `prefix_of` trace st'.
Proof. intros (es & _ & ->). by exists es. Qed.

Lemma plain_line_prefix repo_url req_line st :
  trace st `prefix_of` trace (plain_line repo_url req_line st).
Proof.
  unfold plain_line.
  destruct (Str.is_empty (Str.strip req_line) || Str.startswith "#" (Str.strip req_line));
    [done|].
  destruct (Requirement (Str.strip req_line)); simpl; try done.
  - by destruct (Str.startswith "git+" (Str.strip req_line)).
  - by apply prefix_app_r.
Qed.

Lemma process_requirements_trace_prefix fuel repo_url commit_hash st :
  trace st `prefix_of`
    trace (process_requirements_from_repo fuel repo_url commit_hash st).2.
Proof.
  revert repo_url commit_hash st.
  induction fuel as [|fuel IH]; intros repo_url commit_hash st; [done|].
  simpl. destruct (Str.is_empty repo_url); [done|].
  case_bool_decide as Hseen; [done|].
  set (key := (repo_url, commit_hash)) in *.
  pose proof (quiet_step_prefix _ _
    (resolve_commit_quiet repo_url commit_hash (mark_visited key st))) as Hq.
  destruct (resolve_commit repo_url commit_hash (mark_visited key st))
    as [resolved st2]; simpl in Hq.
  assert (trace st `prefix_of` trace st2) as Hst2
    by (etrans; [|done]; by apply prefix_app_r).
  destruct resolved as [[commit|]|]; [|done..].
  destruct (raw_requirements_url repo_url commit) as [url|]; [|done].
  assert (∀ t, trace (emit (FetchManifest key url) st2) `prefix_of` t →
               trace st `prefix_of` t) as Hext.
  { intros t Ht. etrans; [|done]. simpl. by apply prefix_app_r. }
  destruct (requests_get url) as [status_code text|]; simpl;
    [|by do 3 apply prefix_app_r].
  destruct (status_code =? 200)%Z; simpl; [|by do 3 apply prefix_app_r].
  destruct (process_lines_rule
    (λ st', trace (emit (FetchManifest key url) st2) `prefix_of` trace st')
    (λ _, True) (process_requirements_from_repo fuel) repo_url
    (Str.splitlines text)) with (st := emit (FetchManifest key url) st2)
    as [_ Hp]; [done| | |done|].
  - intros l st' _ _ Hp. etrans; [done|]. apply plain_line_prefix.
  - intros l u c st' _ _ Hp. split; [done|]. etrans; [done|]. apply IH.
  - destruct (process_lines _ _ _ _) as [[| |] st4]; simpl in *.
    + apply Hext. by apply prefix_app_r.
    + apply Hext. by do 2 apply prefix_app_r.
    + by apply Hext.
Qed.

(** ** The default branch of a repository without a commit *)

Lemma resolve_commit_failure repo_url commit_hash st path owner repo_name rest m :
  unset commit_hash = true →
  urlparse_path repo_url = Some path →
  Str.split "/" (Str.strip_char "/" path) = owner :: repo_name :: rest →
  let api_url := "https://api.github.com/repos/" +:+ owner +:+ "/" +:+ repo_name in
  query_failure repo_url api_url = Some m →
  resolve_commit repo_url commit_hash st =
    (Value (Some "main"), print m (emit (QueryApi api_url) st)).
Proof.
  intros Hunset Hpath Hparts api_url. subst api_url.
  unfold query_failure, resolve_commit, default_branch_or_skip, get_default_branch.
  rewrite Hunset, Hpath, Hparts.
  destruct (requests_get _) as [status_code text|]; [|by intros [= <-]].
  destruct (status_code =? 200)%Z; [|by intros [= <-]].
  by destruct (json_loads text) as [[| | | | |repo_info]|]; intros [= <-].
Qed.

(** C9, as the code has it.  A repository without a commit.  When its URL
    path has an owner and a repository name, the metadata API is queried
    first.  An answer with status 200 that decodes to an object settles the
    commit: a true [default_branch] is the commit, a missing one leaves
    [main], and a false one ([null], empty) has the repository reported and
    skipped.  When the query fails (an exception, a status other than 200, an
    answer that is no object) the failure is printed, the commit is [main],
    and the call goes on to request the manifest at [main] instead of
    raising.  When the path has fewer than two parts no query is made: the
    URL is reported as invalid and the repository is skipped.  When the URL
    library refuses the URL its exception leaves the call.  A skipped
    repository is marked visited, and no manifest is requested for it. *)
Theorem default_branch_query_and_fallback fuel repo_url commit_hash st :
  unset commit_hash = true →
  (∀ path owner repo_name rest,
     urlparse_path repo_url = Some path →
     Str.split "/" (Str.strip_char "/" path) = owner :: repo_name :: rest →
     let api_url := "https://api.github.com/repos/" +:+ owner +:+ "/" +:+ repo_name in
     let queried := emit (QueryApi api_url) st in
     quiet_step queried (resolve_commit repo_url commit_hash st).2 ∧
     (∀ text repo_info,
        requests_get api_url = HttpResponse 200 text →
        json_loads text = Some (JObject repo_info) →
        resolve_commit repo_url commit_hash st =
          match dict_get "default_branch" repo_info with
          | Some branch =>
              if truthy branch
              then (Value (Some (format_value branch)), queried)
              else (Value None, print (SkippingRepository repo_url) queried)
          | None => (Value (Some "main"), queried)
          end) ∧
     (∀ m,
        query_failure repo_url api_url = Some m →
        resolve_commit repo_url commit_hash st =
          (Value (Some "main"), print m queried) ∧
        ∀ url,
          Str.is_empty repo_url = false →
          (repo_url, commit_hash) ∉ visited_repos st →
          raw_requirements_url repo_url "main" = Some url →
          let r := process_requirements_from_repo (S fuel) repo_url commit_hash st in
          r.1 ≠ Raised ∧ FetchManifest (repo_url, commit_hash) url ∈ trace r.2)) ∧
  (∀ path,
     urlparse_path repo_url = Some path →
     length (Str.split "/" (Str.strip_char "/" path)) < 2 →
     resolve_commit repo_url commit_hash st =
       (Value None,
        print (SkippingRepository repo_url)
          (print (InvalidRepositoryURL repo_url) st))) ∧
  (urlparse_path repo_url = None →
   resolve_commit repo_url commit_hash st = (Raise, st)) ∧
  ((resolve_commit repo_url commit_hash st).1 = Value None →
   Str.is_empty repo_url = false →
   (repo_url, commit_hash) ∉ visited_repos st →
   let marked := mark_visited (repo_url, commit_hash) st in
   let r := process_requirements_from_repo (S fuel) repo_url commit_hash st in
   r = (Returned, (resolve_commit repo_url commit_hash marked).2) ∧
   fetches (trace r.2) = fetches (trace st)).
Proof.
  intros Hunset. split; [|split; [|split]].
  - intros path owner repo_name rest Hpath Hparts api_url queried.
    split; [|split].
    + subst queried api_url.
      unfold resolve_commit, default_branch_or_skip, get_default_branch.
      rewrite Hunset, Hpath, Hparts.
      destruct (requests_get _) as [status_code text|];
        [|by apply quiet_step_emit].
      destruct (status_code =? 200)%Z; [|by apply quiet_step_emit].
      destruct (json_loads text) as [[| | | | |repo_info]|];
        try (by apply quiet_step_emit).
      destruct (dict_get "default_branch" repo_info) as [branch|];
        [|apply quiet_step_refl].
      destruct (truthy branch); [apply quiet_step_refl|by apply quiet_step_emit].
    + intros text repo_info Hget Hjson. subst queried api_url.
      unfold resolve_commit, default_branch_or_skip, get_default_branch.
      rewrite Hunset, Hpath, Hparts, Hget. simpl. rewrite Hjson.
      destruct (dict_get "default_branch" repo_info) as [branch|]; [|done].
      by destruct (truthy branch).
    + intros m Hfail.
      split; [exact (resolve_commit_failure _ _ _ _ _ _ _ m Hunset Hpath Hparts Hfail)|].
      intros url Hne Hnew Hurl r. subst r. simpl. rewrite Hne.
      rewrite bool_decide_eq_false_2 by done.
      rewrite (resolve_commit_failure _ _ _ _ _ _ _ m Hunset Hpath Hparts Hfail).
      rewrite Hurl.
      set (st3 := emit (FetchManifest _ url) _).
      assert (FetchManifest (repo_url, commit_hash) url ∈ trace st3) as Hin.
      { subst st3. simpl. apply elem_of_app. right. apply list_elem_of_here. }
      assert (∀ t, trace st3 `prefix_of` t →
                   FetchManifest (repo_url, commit_hash) url ∈ t) as Hext.
      { intros t [es ->]. apply elem_of_app. by left. }
      destruct (requests_get url) as [status_code text|]; simpl;
        [|split; [done|apply Hext; by do 2 apply prefix_app_r]].
      destruct (status_code =? 200)%Z; simpl;
        [|split; [done|apply Hext; by do 2 apply prefix_app_r]].
      destruct (process_lines_rule
        (λ st', trace st3 `prefix_of` trace st') (λ _, True)
        (process_requirements_from_repo fuel) repo_url
        (Str.splitlines text)) with (st := st3) as [_ Hp]; [done| | |done|].
      * intros l st' _ _ Hp. etrans; [done|]. apply plain_line_prefix.
      * intros l u c st' _ _ Hp. split; [done|]. etrans; [done|].
        apply process_requirements_trace_prefix.
      * destruct (process_lines _ _ _ _) as [[| |] st4]; simpl in *.
        -- split; [done|]. apply Hext. by apply prefix_app_r.
        -- split; [done|]. apply Hext. by do 2 apply prefix_app_r.
        -- split; [done|]. by apply Hext.
  - intros path Hpath Hparts.
    unfold resolve_commit, default_branch_or_skip, get_default_branch.
    rewrite Hunset, Hpath.
    destruct (Str.split "/" (Str.strip_char "/" path)) as [|owner [|repo_name rest]];
      [done|done|simpl in Hparts; lia].
  - intros Hpath.
    unfold resolve_commit, default_branch_or_skip, get_default_branch.
    by rewrite Hunset, Hpath.
  - intros Hnone Hne Hnew marked r. subst r.
    cbn [process_requirements_from_repo].
    rewrite Hne, bool_decide_eq_false_2 by done. fold marked.
    pose proof (resolve_commit_value repo_url commit_hash st marked) as Hvalue.
    pose proof (resolve_commit_quiet repo_url commit_hash marked) as Hquiet.
    rewrite Hnone in Hvalue.
    destruct (resolve_commit repo_url commit_hash marked) as [v st1].
    simpl in Hvalue, Hquiet |- *. subst v. split; [done|].
    destruct Hquiet as (es & Hes & ->). simpl.
    rewrite !fetches_app. simpl. rewrite (fetches_quiet es Hes). by rewrite !app_nil_r.
Qed.

Lemma quiet_step_recorded st st' : quiet_step st st' → recorded st' = recorded st.
Proof. by intros (es & _ & ->). Qed.

Lemma line_reference_no_requirement req_line key :
  line_reference req_line = Some key → line_requirement req_line = None.
Proof.
  unfold line_requirement, line_reference.
  destruct (Str.is_empty (Str.strip req_line) || Str.startswith "#" (Str.strip req_line));
    [done|].
  by destruct (Requirement (Str.strip req_line)).
Qed.

Lemma plain_line_visits repo_url req_line st :
  visits (trace (plain_line repo_url req_line st)) = visits (trace st).
Proof.
  unfold plain_line.
  destruct (Str.is_empty (Str.strip req_line) || Str.startswith "#" (Str.strip req_line));
    [done|].
  destruct (Requirement (Str.strip req_line)); simpl; try done.
  - by destruct (Str.startswith "git+" (Str.strip req_line)).
  - by rewrite visits_app, app_nil_r.
Qed.

Lemma plain_line_recorded repo_url req_line st :
  recorded (plain_line repo_url req_line st) =
  recorded st ++ option_list (line_requirement req_line).
Proof.
  unfold plain_line, line_requirement.
  destruct (Str.is_empty (Str.strip req_line) || Str.startswith "#" (Str.strip req_line));
    simpl; [by rewrite app_nil_r|].
  destruct (Requirement (Str.strip req_line)); simpl; [done| |by rewrite app_nil_r].
  destruct (Str.startswith "git+" (Str.strip req_line)); simpl; by rewrite app_nil_r.
Qed.

(** ** What the traversal visits *)

Lemma line_reference_url req_line u c :
  line_reference req_line = Some (u, c) → Str.is_empty u = false.
Proof.
  unfold line_reference.
  destruct (Str.is_empty (Str.strip req_line) || Str.startswith "#" (Str.strip req_line));
    [done|].
  destruct (Requirement (Str.strip req_line)); try done.
  destruct (Str.startswith "git+" (Str.strip req_line)); [|done].
  destruct (parse_git_requirement (Str.strip req_line)) as [[u'|] c']; [|done].
  destruct (Str.is_empty u') eqn:Hu; [done|]. by intros [= <- _].
Qed.

Lemma manifest_of_unresolved repo_url commit_hash st st' :
  resolve_commit repo_url commit_hash st = (Value None, st') →
  manifest_of (repo_url, commit_hash) = [].
Proof.
  intros Hres. unfold manifest_of, resolved_commit. simpl.
  by rewrite (resolve_commit_value _ _ _ st), Hres.
Qed.

Lemma manifest_of_unfetched repo_url commit_hash st commit st' url :
  resolve_commit repo_url commit_hash st = (Value (Some commit), st') →
  raw_requirements_url repo_url commit = Some url →
  match requests_get url with
  | HttpResponse status_code _ => (status_code =? 200)%Z = false
  | RequestException => True
  end →
  manifest_of (repo_url, commit_hash) = [].
Proof.
  intros Hres Hurl Hget. unfold manifest_of, resolved_commit. simpl.
  rewrite (resolve_commit_value _ _ _ st), Hres. simpl. rewrite Hurl.
  destruct (requests_get url); [by rewrite Hget|done].
Qed.

(** Whatever is visited is a root or was referred to by a visited key. *)
Lemma process_requirements_sound (R : RepoKey → Prop) fuel repo_url commit_hash st :
  (∀ k k', R k → k' ∈ references k → R k') →
  R (repo_url, commit_hash) →
  (∀ k, k ∈ visited_repos st → R k) →
  ∀ k, k ∈ visited_repos
             (process_requirements_from_repo fuel repo_url commit_hash st).2 → R k.
Proof.
  intros HR. revert repo_url commit_hash st.
  induction fuel as [|fuel IH]; intros repo_url commit_hash st Hkey Hst; [done|].
  simpl. destruct (Str.is_empty repo_url); [done|].
  case_bool_decide as Hseen; [done|].
  set (key := (repo_url, commit_hash)) in *.
  pose proof (resolve_commit_quiet repo_url commit_hash (mark_visited key st)) as Hq.
  destruct (resolve_commit repo_url commit_hash (mark_visited key st))
    as [resolved st2] eqn:Hres; simpl in Hq.
  assert (∀ k, k ∈ visited_repos st2 → R k) as Hst2.
  { intros k. rewrite (quiet_step_visited _ _ Hq). simpl.
    intros [->%elem_of_singleton|Hk]%elem_of_union; auto. }
  destruct resolved as [[commit|]|]; [|done..].
  destruct (raw_requirements_url repo_url commit) as [url|] eqn:Hurl; [|done].
  destruct (requests_get url) as [status_code text|] eqn:Hget; [|done].
  destruct (status_code =? 200)%Z eqn:Hok; [|done].
  destruct (process_lines_rule (λ st', ∀ k, k ∈ visited_repos st' → R k)
    (λ _, True) (process_requirements_from_repo fuel) repo_url
    (Str.splitlines text)) with (st := emit (FetchManifest key url) st2)
    as [_ Hp]; [done| | |done|].
  - intros l st' _ _ Hp. by rewrite plain_line_visited.
  - intros l u c st' Hl Href Hp. split; [done|]. apply IH; [|done].
    apply (HR key); [done|]. unfold references, key.
    rewrite (manifest_of_fetched _ _ _ _ _ _ _ _ Hres Hurl Hget Hok).
    apply list_elem_of_omap. eauto.
  - by destruct (process_lines _ _ _ _) as [[| |] st4].
Qed.

Lemma process_repos_sound (R : RepoKey → Prop) fuel repos st :
  (∀ k k', R k → k' ∈ references k → R k') →
  (∀ k, k ∈ roots repos → R k) →
  (∀ k, k ∈ visited_repos st → R k) →
  ∀ k, k ∈ visited_repos (process_repos fuel repos st).2 → R k.
Proof.
  intros HR. revert st. induction repos as [|repo repos IH]; intros st Hroots Hst;
    [done|].
  assert (∀ k, k ∈ roots repos → R k) as Hroots'.
  { intros k Hk. apply Hroots. unfold roots in *. simpl.
    destruct (entry_key repo); [by apply list_elem_of_further|done]. }
  assert (∀ k, entry_key repo = Some k → R k) as Hroot.
  { intros k Hk. apply Hroots. unfold roots. simpl. rewrite Hk.
    apply list_elem_of_here. }
  simpl. simpl in Hroot. destruct repo as [| | | | |fields]; try done.
  destruct (default (JString "") (dict_get "commit" fields))
    as [| | |commit| |] eqn:Hcommit; try done.
  destruct (dict_get "repo" fields) as [[| | |url| |]|] eqn:Hrepo;
    repeat match goal with
    | |- context [if ?b then _ else _] => destruct b eqn:?
    end; try done; try (by apply IH).
  pose proof (process_requirements_sound R fuel url (Some (Str.strip commit)) st HR)
    as Hsound.
  destruct (process_requirements_from_repo _ _ _ _) as [[| |] st'] eqn:Hcall;
    simpl in *.
  - apply IH; [done|]. apply Hsound; [|done]. apply Hroot.
    by rewrite Hrepo, Hcommit, Heqb.
  - apply Hsound; [|done]. apply Hroot. by rewrite Hrepo, Hcommit, Heqb.
  - apply Hsound; [|done]. apply Hroot. by rewrite Hrepo, Hcommit, Heqb.
Qed.

(** The loop visits what its lines refer to. *)
Lemma process_lines_visits_references (P : State → Prop) recurse repo_url lines :
  (∀ l st, l ∈ lines → line_reference l = None → P st →
           P (plain_line repo_url l st)) →
  (∀ l u c st, l ∈ lines → line_reference l = Some (u, c) → P st →
               (recurse u c st).1 = Returned ∧ P (recurse u c st).2 ∧
               (u, c) ∈ visited_repos (recurse u c st).2 ∧
               visited_repos st ⊆ visited_repos (recurse u c st).2) →
  ∀ st, P st →
        (process_lines recurse repo_url lines st).1 = Returned ∧
        P (process_lines recurse repo_url lines st).2 ∧
        visited_repos st ⊆ visited_repos (process_lines recurse repo_url lines st).2 ∧
        ∀ l k, l ∈ lines → line_reference l = Some k →
               k ∈ visited_repos (process_lines recurse repo_url lines st).2.
Proof.
  induction lines as [|l lines IH]; intros Hplain Hrec st Hst.
  { repeat split; try done. by intros l k ?%elem_of_nil. }
  assert (∀ st, P st →
    (process_lines recurse repo_url lines st).1 = Returned ∧
    P (process_lines recurse repo_url lines st).2 ∧
    visited_repos st ⊆ visited_repos (process_lines recurse repo_url lines st).2 ∧
    ∀ l k, l ∈ lines → line_reference l = Some k →
           k ∈ visited_repos (process_lines recurse repo_url lines st).2) as IH'.
  { apply IH.
    - intros l' st' Hl'. apply Hplain. by apply list_elem_of_further.
    - intros l' u c st' Hl'. apply Hrec. by apply list_elem_of_further. }
  simpl. rewrite process_line_unfold.
  destruct (line_reference l) as [[u c]|] eqn:Href.
  - destruct (Hrec l u c st) as (Hout & HP & Hin & Hmono);
      [apply list_elem_of_here|done..|].
    destruct (recurse u c st) as [o st']; simpl in *. subst o.
    destruct (IH' st' HP) as (Hout' & HP' & Hmono' & Hrefs).
    repeat split; [done..|by etrans|].
    intros l' k [->|Hl']%elem_of_cons Hk.
    + rewrite Href in Hk. injection Hk as <-. by apply Hmono'.
    + by eapply Hrefs.
  - destruct (IH' (plain_line repo_url l st)) as (Hout' & HP' & Hmono' & Hrefs).
    { apply Hplain; [apply list_elem_of_here|done..]. }
    rewrite plain_line_visited in Hmono'.
    repeat split; [done..|].
    intros l' k [->|Hl']%elem_of_cons Hk; [congruence|by eapply Hrefs].
Qed.

Section Finite_graph.
Variable U : gset RepoKey.
Hypothesis U_closed : closed U.
Hypothesis U_accepted : ∀ k, k ∈ U → url_accepted k.

Lemma explored_mark (S V V' : gset RepoKey) key :
  explored (S ∪ {[key]}) V' →
  (∀ k', k' ∈ references key → k' ∈ V') →
  explored S V'.
Proof.
  intros Hexp Hkey k k' Hk HS Hk'.
  destruct (decide (k = key)) as [->|Hne]; [by apply Hkey|].
  apply (Hexp k); [done| |done].
  intros [?| ->%elem_of_singleton]%elem_of_union; done.
Qed.

Lemma explored_leaf (S V : gset RepoKey) key :
  explored S V → references key = [] → explored S ({[key]} ∪ V).
Proof.
  intros Hexp Hleaf k k' [->%elem_of_singleton|Hk]%elem_of_union HS Hk'.
  - rewrite Hleaf in Hk'. by apply elem_of_nil in Hk'.
  - apply elem_of_union_r. by apply (Hexp k).
Qed.

Lemma process_requirements_explores fuel repo_url commit_hash st S :
  consistent st →
  (repo_url, commit_hash) ∈ U →
  Str.is_empty repo_url = false →
  size (U ∖ visited_repos st) < fuel →
  explored S (visited_repos st) →
  (process_requirements_from_repo fuel repo_url commit_hash st).1 = Returned ∧
  (repo_url, commit_hash)
    ∈ visited_repos (process_requirements_from_repo fuel repo_url commit_hash st).2 ∧
  explored S
    (visited_repos (process_requirements_from_repo fuel repo_url commit_hash st).2).
Proof.
  revert repo_url commit_hash st S.
  induction fuel as [|fuel IH]; intros repo_url commit_hash st S Hst HU Hne Hsize Hexp;
    [lia|].
  simpl. rewrite Hne. case_bool_decide as Hseen; [done|].
  set (key := (repo_url, commit_hash)) in *.
  destruct (U_accepted key HU) as [Hresolved Hjoin].
  unfold resolved_commit in Hresolved, Hjoin. simpl in Hresolved, Hjoin.
  rewrite (resolve_commit_value _ _ _ (mark_visited key st)) in Hresolved, Hjoin.
  pose proof (resolve_commit_quiet repo_url commit_hash (mark_visited key st)) as Hq.
  destruct (resolve_commit repo_url commit_hash (mark_visited key st))
    as [resolved st2] eqn:Hres; simpl in Hq, Hresolved, Hjoin.
  pose proof (quiet_step_visited _ _ Hq) as Hvis2. simpl in Hvis2.
  assert (key ∈ visited_repos st2) as Hin2
    by (rewrite Hvis2; by apply elem_of_union_l, elem_of_singleton).
  destruct resolved as [[commit|]|]; [|simpl|done].
  2:{ split; [done|]. split; [done|]. rewrite Hvis2. apply explored_leaf; [done|].
      unfold references, key. by rewrite (manifest_of_unresolved _ _ _ _ Hres). }
  specialize (Hjoin commit eq_refl).
  destruct (raw_requirements_url repo_url commit) as [url|] eqn:Hurl; [|done].
  assert (match requests_get url with
          | HttpResponse status_code _ => (status_code =? 200)%Z = false
          | RequestException => True
          end → explored S (visited_repos st2)) as Hleaf.
  { intros Hget. rewrite Hvis2. apply explored_leaf; [done|]. unfold references, key.
    by rewrite (manifest_of_unfetched _ _ _ _ _ _ Hres Hurl Hget). }
  destruct (requests_get url) as [status_code text|] eqn:Hget; simpl; [|by auto].
  destruct (status_code =? 200)%Z eqn:Hok; simpl; [|by auto].
  clear Hleaf.
  assert (consistent (emit (FetchManifest key url) st2)) as Hst3.
  { apply consistent_fetch.
    - rewrite (quiet_step_visits _ _ Hq). simpl. rewrite visits_app.
      apply elem_of_app. right. apply list_elem_of_here.
    - rewrite (quiet_step_fetches _ _ Hq). simpl. rewrite fetches_app, app_nil_r.
      intros Hk. destruct Hst as (_ & Hvs & _ & Ho & _).
      by apply Hseen, Hvs, fetches_in_visits.
    - eapply consistent_quiet_step; [done|]. by apply consistent_mark_visited. }
  destruct (process_lines_visits_references
    (λ st', consistent st' ∧ {[key]} ∪ visited_repos st ⊆ visited_repos st' ∧
            explored (S ∪ {[key]}) (visited_repos st'))
    (process_requirements_from_repo fuel) repo_url (Str.splitlines text))
    with (st := emit (FetchManifest key url) st2)
    as (Hout & (Hc & Hsub & Hexp') & Hmono & Hrefs).
  - intros l st' _ _ (Hc & Hv & He). rewrite plain_line_visited.
    split; [by apply consistent_plain_line|done].
  - intros l u c st' Hl Href (Hc & Hv & He).
    destruct (process_requirements_consistent fuel u c st' Hc) as [Hc' Hv'].
    destruct (IH u c st' (S ∪ {[key]})) as (Hout & Hin & He'); [done| | | |done|].
    + apply (U_closed key); [done|]. unfold references, key.
      rewrite (manifest_of_fetched _ _ _ _ _ _ _ _ Hres Hurl Hget Hok).
      apply list_elem_of_omap. eauto.
    + by eapply line_reference_url.
    + pose proof (size_unvisited_decreases U _ _ key HU Hseen Hv). lia.
    + split; [done|]. split; [|by split].
      split; [done|]. split; [by etrans|done].
  - split; [done|]. simpl. rewrite Hvis2. split; [done|].
    intros k k' [->%elem_of_singleton|Hk]%elem_of_union HS Hk'.
    + exfalso. apply HS. by apply elem_of_union_r, elem_of_singleton.
    + apply elem_of_union_r. apply (Hexp k); [done| |done].
      intros ?. apply HS. by apply elem_of_union_l.
  - destruct (process_lines _ _ _ _) as [o st4]; simpl in *. subst o. simpl.
    split; [done|]. split.
    + apply Hsub. by apply elem_of_union_l, elem_of_singleton.
    + apply (explored_mark S (visited_repos st) _ key); [done|].
      intros k' Hk'. unfold references, key in Hk'.
      rewrite (manifest_of_fetched _ _ _ _ _ _ _ _ Hres Hurl Hget Hok) in Hk'.
      apply list_elem_of_omap in Hk' as (l & Hl & Href). by eapply Hrefs.
Qed.

Lemma process_repos_explores fuel repos st :
  Forall descriptor repos →
  (∀ k, k ∈ roots repos → k ∈ U) →
  size U < fuel →
  consistent st →
  explored ∅ (visited_repos st) →
  (process_repos fuel repos st).1 = Returned ∧
  explored ∅ (visited_repos (process_repos fuel repos st).2) ∧
  visited_repos st ⊆ visited_repos (process_repos fuel repos st).2 ∧
  ∀ k, k ∈ roots repos → k ∈ visited_repos (process_repos fuel repos st).2.
Proof.
  intros Hrepos Hroots Hsize. revert st Hroots.
  induction Hrepos as [|repo repos Hrepo _ IH]; intros st Hroots Hst Hexp.
  { split; [done|]. split; [done|]. split; [done|]. by intros k ?%elem_of_nil. }
  assert (∀ k, k ∈ roots repos → k ∈ U) as Hroots'.
  { intros k Hk. apply Hroots. unfold roots in *. simpl.
    destruct (entry_key repo); [by apply list_elem_of_further|done]. }
  rewrite (process_repos_descriptor _ _ _ _ Hrepo).
  unfold roots in *. simpl in *.
  destruct (entry_key repo) as [[url commit_hash]|] eqn:Hkey; simpl.
  - destruct (process_requirements_consistent fuel url commit_hash st Hst)
      as [Hc Hv].
    destruct (process_requirements_explores fuel url commit_hash st ∅)
      as (Hout & Hin & He); [done| | | |done|].
    { apply Hroots, list_elem_of_here. }
    { by apply (entry_key_url repo url commit_hash). }
    { assert (U ∖ visited_repos st ⊆ U) as Hsub
        by (intros k [? _]%elem_of_difference; done).
      apply subseteq_size in Hsub. lia. }
    destruct (process_requirements_from_repo _ _ _ _) as [o st']; simpl in *.
    subst o.
    destruct (IH st' Hroots' Hc He) as (Hout' & He' & Hv' & Hroots'').
    split; [done|]. split; [done|]. split; [by etrans|].
    intros k [->|Hk]%elem_of_cons; [by apply Hv'|by apply Hroots''].
  - destruct (IH (print (InvalidRepositoryEntry repo) st) Hroots')
      as (Hout' & He' & Hv' & Hroots''); [by consistent_emits|done|].
    by split.
Qed.

(** The requirements recorded are those of the manifests of the keys
    visited. *)
Lemma process_lines_records (P : State → Prop) recurse repo_url lines :
  (∀ l st, l ∈ lines → line_reference l = None → P st →
           P (plain_line repo_url l st)) →
  (∀ l u c st, l ∈ lines → line_reference l = Some (u, c) → P st →
     (recurse u c st).1 = Returned ∧ P (recurse u c st).2 ∧
     ∃ vs, visits (trace (recurse u c st).2) = visits (trace st) ++ vs ∧
           recorded (recurse u c st).2 ≡ₚ recorded st ++ (vs ≫= requirements_of)) →
  ∀ st, P st →
    (process_lines recurse repo_url lines st).1 = Returned ∧
    ∃ vs,
      visits (trace (process_lines recurse repo_url lines st).2)
        = visits (trace st) ++ vs ∧
      recorded (process_lines recurse repo_url lines st).2
        ≡ₚ recorded st ++ omap line_requirement lines ++ (vs ≫= requirements_of).
Proof.
  induction lines as [|l lines IH]; intros Hplain Hrec st Hst.
  { split; [done|]. exists []. simpl. by rewrite !app_nil_r. }
  assert (∀ st, P st →
    (process_lines recurse repo_url lines st).1 = Returned ∧
    ∃ vs,
      visits (trace (process_lines recurse repo_url lines st).2)
        = visits (trace st) ++ vs ∧
      recorded (process_lines recurse repo_url lines st).2
        ≡ₚ recorded st ++ omap line_requirement lines ++ (vs ≫= requirements_of))
    as IH'.
  { apply IH.
    - intros l' st' Hl'. apply Hplain. by apply list_elem_of_further.
    - intros l' u c st' Hl'. apply Hrec. by apply list_elem_of_further. }
  simpl. rewrite process_line_unfold.
  destruct (line_reference l) as [[u c]|] eqn:Href.
  - destruct (Hrec l u c st) as (Hout & HP & vs & Hvs & Hrecorded);
      [apply list_elem_of_here|done..|].
    destruct (recurse u c st) as [o st']; simpl in *. subst o.
    destruct (IH' st' HP) as (Hout' & vs' & Hvs' & Hrecorded').
    split; [done|]. exists (vs ++ vs'). split.
    + by rewrite Hvs', Hvs, (assoc_L (++)).
    + rewrite (line_reference_no_requirement _ _ Href).
      rewrite Hrecorded', Hrecorded, bind_app, <- !(assoc_L (++)).
      apply Permutation_app_head. rewrite !(assoc_L (++)).
      apply Permutation_app_tail, Permutation_app_comm.
  - destruct (IH' (plain_line repo_url l st)) as (Hout' & vs' & Hvs' & Hrecorded').
    { apply Hplain; [apply list_elem_of_here|done..]. }
    split; [done|]. exists vs'. split.
    + by rewrite Hvs', plain_line_visits.
    + rewrite Hrecorded', plain_line_recorded.
      destruct (line_requirement l); simpl; by rewrite <- ?(assoc_L (++)), ?app_nil_r.
Qed.

Lemma process_requirements_records fuel repo_url commit_hash st :
  consistent st →
  (repo_url, commit_hash) ∈ U →
  Str.is_empty repo_url = false →
  size (U ∖ visited_repos st) < fuel →
  ∃ vs,
    visits (trace (process_requirements_from_repo fuel repo_url commit_hash st).2)
      = visits (trace st) ++ vs ∧
    recorded (process_requirements_from_repo fuel repo_url commit_hash st).2
      ≡ₚ recorded st ++ (vs ≫= requirements_of).
Proof.
  revert repo_url commit_hash st.
  induction fuel as [|fuel IH]; intros repo_url commit_hash st Hst HU Hne Hsize;
    [lia|].
  simpl. rewrite Hne. case_bool_decide as Hseen.
  { exists []. simpl. by rewrite !app_nil_r. }
  set (key := (repo_url, commit_hash)) in *.
  destruct (U_accepted key HU) as [Hresolved Hjoin].
  unfold resolved_commit in Hresolved, Hjoin. simpl in Hresolved, Hjoin.
  rewrite (resolve_commit_value _ _ _ (mark_visited key st)) in Hresolved, Hjoin.
  pose proof (resolve_commit_quiet repo_url commit_hash (mark_visited key st)) as Hq.
  destruct (resolve_commit repo_url commit_hash (mark_visited key st))
    as [resolved st2] eqn:Hres; simpl in Hq, Hresolved, Hjoin.
  pose proof (quiet_step_visited _ _ Hq) as Hvis2. simpl in Hvis2.
  pose proof (quiet_step_visits _ _ Hq) as Hvisits2. simpl in Hvisits2.
  rewrite visits_app in Hvisits2. simpl in Hvisits2.
  pose proof (quiet_step_recorded _ _ Hq) as Hrec2. simpl in Hrec2.
  assert (requirements_of key = [] → ∀ t rcd,
            visits t = visits (trace st2) →
            rcd = recorded st2 →
            ∃ vs, visits t = visits (trace st) ++ vs ∧
                  rcd ≡ₚ recorded st ++ (vs ≫= requirements_of)) as Hleaf.
  { intros Hnone t rcd Hv' Hr'. exists [key]. rewrite Hv', Hr', Hvisits2, Hrec2.
    split; [done|]. by rewrite bind_singleton, Hnone, app_nil_r. }
  destruct resolved as [[commit|]|]; [|simpl|done].
  2:{ apply Hleaf; [|done..]. unfold requirements_of, key.
      by rewrite (manifest_of_unresolved _ _ _ _ Hres). }
  specialize (Hjoin commit eq_refl).
  destruct (raw_requirements_url repo_url commit) as [url|] eqn:Hurl; [|done].
  assert (match requests_get url with
          | HttpResponse status_code _ => (status_code =? 200)%Z = false
          | RequestException => True
          end → requirements_of key = []) as Hnone.
  { intros Hget. unfold requirements_of, key.
    by rewrite (manifest_of_unfetched _ _ _ _ _ _ Hres Hurl Hget). }
  destruct (requests_get url) as [status_code text|] eqn:Hget; simpl;
    [|apply Hleaf; [by apply Hnone|by rewrite !visits_app, !app_nil_r|done]].
  destruct (status_code =? 200)%Z eqn:Hok; simpl;
    [|apply Hleaf; [by apply Hnone|by rewrite !visits_app, !app_nil_r|done]].
  clear Hleaf Hnone.
  assert (consistent (emit (FetchManifest key url) st2)) as Hst3.
  { apply consistent_fetch.
    - rewrite (quiet_step_visits _ _ Hq). simpl. rewrite visits_app.
      apply elem_of_app. right. apply list_elem_of_here.
    - rewrite (quiet_step_fetches _ _ Hq). simpl. rewrite fetches_app, app_nil_r.
      intros Hk. destruct Hst as (_ & Hvs & _ & Ho & _).
      by apply Hseen, Hvs, fetches_in_visits.
    - eapply consistent_quiet_step; [done|]. by apply consistent_mark_visited. }
  destruct (process_lines_records
    (λ st', consistent st' ∧ {[key]} ∪ visited_repos st ⊆ visited_repos st')
    (process_requirements_from_repo fuel) repo_url (Str.splitlines text))
    with (st := emit (FetchManifest key url) st2) as (Hout & vs & Hvs & Hrecorded).
  - intros l st' _ _ (Hc & Hv). rewrite plain_line_visited.
    split; [by apply consistent_plain_line|done].
  - intros l u c st' Hl Href (Hc & Hv).
    assert ((u, c) ∈ U) as HU'.
    { apply (U_closed key); [done|]. unfold references, key.
      rewrite (manifest_of_fetched _ _ _ _ _ _ _ _ Hres Hurl Hget Hok).
      apply list_elem_of_omap. eauto. }
    assert (size (U ∖ visited_repos st') < fuel) as Hsize'.
    { pose proof (size_unvisited_decreases U _ _ key HU Hseen Hv). lia. }
    destruct (process_requirements_consistent fuel u c st' Hc) as [Hc' Hv'].
    destruct (process_requirements_explores fuel u c st' (visited_repos st'))
      as (Hout & _ & _); [done|done|by eapply line_reference_url|done| |].
    { by intros k k' Hk Hk'. }
    split; [done|]. split; [split; [done|by etrans]|].
    apply IH; [done|done|by eapply line_reference_url|done].
  - split; [done|]. simpl. by rewrite Hvis2.
  - destruct (process_lines _ _ _ _) as [o st4]; simpl in Hout, Hvs, Hrecorded.
    subst o. exists (key :: vs). split.
    + simpl. rewrite visits_app, app_nil_r, Hvs, visits_app, Hvisits2. simpl.
      by rewrite app_nil_r, <- (assoc_L (++)).
    + change (recorded (Returned, sleep st4).2) with (recorded st4).
      rewrite Hrecorded, Hrec2, bind_cons. unfold requirements_of at 2, key.
      by rewrite (manifest_of_fetched _ _ _ _ _ _ _ _ Hres Hurl Hget Hok).
Qed.

Lemma process_repos_records fuel repos st :
  Forall descriptor repos →
  (∀ k, k ∈ roots repos → k ∈ U) →
  size U < fuel →
  consistent st →
  ∃ vs,
    visits (trace (process_repos fuel repos st).2) = visits (trace st) ++ vs ∧
    recorded (process_repos fuel repos st).2
      ≡ₚ recorded st ++ (vs ≫= requirements_of).
Proof.
  intros Hrepos Hroots Hsize. revert st Hroots.
  induction Hrepos as [|repo repos Hrepo _ IH]; intros st Hroots Hst.
  { exists []. simpl. by rewrite !app_nil_r. }
  assert (∀ k, k ∈ roots repos → k ∈ U) as Hroots'.
  { intros k Hk. apply Hroots. unfold roots in *. simpl.
    destruct (entry_key repo); [by apply list_elem_of_further|done]. }
  rewrite (process_repos_descriptor _ _ _ _ Hrepo).
  unfold roots in *. simpl in *.
  destruct (entry_key repo) as [[url commit_hash]|] eqn:Hkey; simpl.
  - assert (size (U ∖ visited_repos st) < fuel) as Hsize'.
    { assert (U ∖ visited_repos st ⊆ U) as Hsub
        by (intros k [? _]%elem_of_difference; done).
      apply subseteq_size in Hsub. lia. }
    assert ((url, commit_hash) ∈ U) as HU by apply Hroots, list_elem_of_here.
    pose proof (entry_key_url repo url commit_hash Hkey) as Hne.
    destruct (process_requirements_consistent fuel url commit_hash st Hst)
      as [Hc Hv].
    destruct (process_requirements_explores fuel url commit_hash st (visited_repos st))
      as (Hout & _ & _); [done..| |].
    { by intros k k' Hk Hk'. }
    destruct (process_requirements_records fuel url commit_hash st)
      as (vs & Hvs & Hrecorded); [done..|].
    destruct (process_requirements_from_repo _ _ _ _) as [o st']; simpl in *.
    subst o.
    destruct (IH st' Hroots' Hc) as (vs' & Hvs' & Hrecorded').
    exists (vs ++ vs'). split.
    + by rewrite Hvs', Hvs, (assoc_L (++)).
    + by rewrite Hrecorded', Hrecorded, bind_app, (assoc_L (++)).
  - destruct (IH (print (InvalidRepositoryEntry repo) st) Hroots')
      as (vs & Hvs & Hrecorded); [by consistent_emits|].
    exists vs. simpl in Hvs. rewrite visits_app, app_nil_r in Hvs. by split.
Qed.

End Finite_graph.

Lemma process_repos_visits_reachable (U : gset RepoKey) fuel repos :
  closed U →
  (∀ k, k ∈ U → url_accepted k) →
  Forall descriptor repos →
  (∀ k, k ∈ roots repos → k ∈ U) →
  size U < fuel →
  ∀ k, reachable repos k ↔
       k ∈ visited_repos (process_repos fuel repos initial_state).2.
Proof.
  intros Hclosed Haccepted Hrepos Hroots Hsize k. split.
  - destruct (process_repos_explores U Hclosed Haccepted fuel repos initial_state)
      as (_ & Hexp & _ & Hin); [done|done|done|apply consistent_initial| |].
    { by intros k0 k' ?%elem_of_empty. }
    induction 1 as [k0 Hk0|k0 k' _ IH Hk']; [by apply Hin|].
    apply (Hexp k0); [done| |done]. by intros ?%elem_of_empty.
  - apply (process_repos_sound (reachable repos)).
    + intros k0 k' Hk0 Hk'. by eapply reachable_reference.
    + intros k0 Hk0. by apply reachable_root.
    + by intros k0 ?%elem_of_empty.
Qed.

Lemma final_of_run fuel json_file fs repos :
  load_repositories json_file fs = Some repos →
  let st := (process_repos fuel repos initial_state).2 in
  let r := consolidate_requirements fuel json_file fs in
  visited_repos (final r) = visited_repos st ∧
  visits (trace (final r)) = visits (trace st) ∧
  recorded (final r) = recorded st ∧
  dependency_dict (final r) = dependency_dict st.
Proof.
  intros Hload. unfold consolidate_requirements. rewrite Hload.
  destruct (process_repos fuel repos initial_state) as [[| |] st]; simpl;
    try done.
  by rewrite visits_app, app_nil_r.
Qed.

Lemma reachable_roots repos1 repos2 k :
  (∀ k, k ∈ roots repos1 → k ∈ roots repos2) →
  reachable repos1 k → reachable repos2 k.
Proof.
  intros Hroots. induction 1 as [k Hk|k k' _ IH Hk'].
  - by apply reachable_root, Hroots.
  - by eapply reachable_reference.
Qed.

(** C3. When the keys the input can reach lie in a finite set [U] that is
    closed under references (cycles among them allowed), a run with a
    recursion budget above the size of [U] ends, and every key it marked
    visited was marked exactly once.  When moreover the input is a list of
    descriptors and the URL library accepts the URLs of [U], the keys visited
    are exactly the keys of the traversal graph. *)
Theorem traversal_terminates_visiting_once (U : gset RepoKey) fuel json_file fs repos :
  load_repositories json_file fs = Some repos →
  closed U →
  (∀ k, k ∈ roots repos → k ∈ U) →
  size U < fuel →
  let r := consolidate_requirements fuel json_file fs in
  exit_status r ≠ None ∧
  (∀ k, k ∈ visited_repos (final r) →
        length (filter (λ k', k' = k) (visits (trace (final r)))) = 1) ∧
  (Forall descriptor repos → (∀ k, k ∈ U → url_accepted k) →
   ∀ k, reachable repos k ↔ k ∈ visited_repos (final r)).
Proof.
  intros Hload Hclosed Hroots Hsize r. split; [|split].
  - subst r. unfold consolidate_requirements. rewrite Hload.
    pose proof (process_repos_terminates U fuel repos initial_state Hclosed
                  consistent_initial Hroots Hsize) as Hterm.
    by destruct (process_repos fuel repos initial_state) as [[| |] st].
  - intros k Hk.
    destruct (consolidate_requirements_consistent fuel json_file fs)
      as (Hv & Hvs & _).
    apply visited_exactly_once; [done|]. by apply Hvs.
  - intros Hrepos Haccepted k.
    destruct (final_of_run fuel json_file fs repos Hload) as (Hvisited & _).
    subst r. rewrite Hvisited.
    by apply (process_repos_visits_reachable U).
Qed.

(** ** The order of traversal *)

Lemma specifier_and_comm (a b : SpecifierSet) :
  clauses (specifier_and a b) = clauses (specifier_and b a) ∧
  ∀ v, SpecifierSet_contains (specifier_and a b) v =
       SpecifierSet_contains (specifier_and b a) v.
Proof.
  assert (clauses (specifier_and a b) = clauses (specifier_and b a)) as Hab.
  { rewrite !clauses_and. apply (comm_L (∪)). }
  split; [done|]. intros v. by apply SpecifierSet_contains_clauses.
Qed.

Lemma recorded_of_visited (U : gset RepoKey) fuel repos :
  closed U →
  (∀ k, k ∈ U → url_accepted k) →
  Forall descriptor repos →
  (∀ k, k ∈ roots repos → k ∈ U) →
  size U < fuel →
  let st := (process_repos fuel repos initial_state).2 in
  recorded st ≡ₚ visits (trace st) ≫= requirements_of.
Proof.
  intros Hclosed Haccepted Hrepos Hroots Hsize.
  destruct (process_repos_records U Hclosed Haccepted fuel repos initial_state)
    as (vs & Hvs & Hrecorded); [done|done|done|apply consistent_initial|].
  simpl in *. by rewrite Hvs.
Qed.

(** C6. Merging is commutative on the clauses: [a & b] and [b & a] have the
    same clauses and hold the same versions.  Two runs that recorded the same
    requirements, in whatever order their traversals met them, end with
    [dependency_dict]s of the same names with the same clauses; and two runs
    over the same descriptors listed in different orders do record the same
    requirements, when the traversal graph is finite and the URL library
    accepts its URLs. *)
Theorem traversal_order_does_not_matter :
  (∀ a b : SpecifierSet,
     clauses (specifier_and a b) = clauses (specifier_and b a) ∧
     ∀ v, SpecifierSet_contains (specifier_and a b) v =
          SpecifierSet_contains (specifier_and b a) v) ∧
  (∀ fuel1 json_file1 fs1 fuel2 json_file2 fs2,
     let r1 := consolidate_requirements fuel1 json_file1 fs1 in
     let r2 := consolidate_requirements fuel2 json_file2 fs2 in
     recorded (final r1) ≡ₚ recorded (final r2) →
     same_constraints (dependency_dict (final r1)) (dependency_dict (final r2))) ∧
  (∀ (U : gset RepoKey) fuel json_file1 fs1 json_file2 fs2 repos1 repos2,
     load_repositories json_file1 fs1 = Some repos1 →
     load_repositories json_file2 fs2 = Some repos2 →
     repos1 ≡ₚ repos2 →
     Forall descriptor repos1 →
     closed U →
     (∀ k, k ∈ roots repos1 → k ∈ U) →
     (∀ k, k ∈ U → url_accepted k) →
     size U < fuel →
     let r1 := consolidate_requirements fuel json_file1 fs1 in
     let r2 := consolidate_requirements fuel json_file2 fs2 in
     recorded (final r1) ≡ₚ recorded (final r2) ∧
     same_constraints (dependency_dict (final r1)) (dependency_dict (final r2))).
Proof.
  assert (∀ fuel1 json_file1 fs1 fuel2 json_file2 fs2,
     let r1 := consolidate_requirements fuel1 json_file1 fs1 in
     let r2 := consolidate_requirements fuel2 json_file2 fs2 in
     recorded (final r1) ≡ₚ recorded (final r2) →
     same_constraints (dependency_dict (final r1)) (dependency_dict (final r2)))
    as Hsame.
  { intros fuel1 json_file1 fs1 fuel2 json_file2 fs2 r1 r2 Hperm. subst r1 r2.
    destruct (consolidate_requirements_consistent fuel1 json_file1 fs1)
      as (_ & _ & _ & _ & ->).
    destruct (consolidate_requirements_consistent fuel2 json_file2 fs2)
      as (_ & _ & _ & _ & ->).
    apply merge_all_same_constraints. intros e. by rewrite Hperm. }
  split; [apply specifier_and_comm|]. split; [exact Hsame|].
  intros U fuel json_file1 fs1 json_file2 fs2 repos1 repos2 Hload1 Hload2 Hperm
    Hrepos1 Hclosed Hroots1 Haccepted Hsize r1 r2.
  assert (recorded (final r1) ≡ₚ recorded (final r2)) as Hrecorded;
    [|split; [done|by apply Hsame]].
  assert (roots repos1 ≡ₚ roots repos2) as Hroots by by apply omap_Permutation.
  assert (Forall descriptor repos2) as Hrepos2 by by rewrite <- Hperm.
  assert (∀ k, k ∈ roots repos2 → k ∈ U) as Hroots2.
  { intros k Hk. apply Hroots1. by rewrite Hroots. }
  destruct (final_of_run fuel json_file1 fs1 repos1 Hload1) as (_ & Hv1 & Hr1 & _).
  destruct (final_of_run fuel json_file2 fs2 repos2 Hload2) as (_ & Hv2 & Hr2 & _).
  subst r1 r2. rewrite Hr1, Hr2.
  rewrite (recorded_of_visited U fuel repos1), (recorded_of_visited U fuel repos2)
    by done.
  apply bind_Permutation, NoDup_Permutation.
  - by destruct (process_repos_consistent fuel repos1 _ consistent_initial) as [? _].
  - by destruct (process_repos_consistent fuel repos2 _ consistent_initial) as [? _].
  - intros k.
    destruct (process_repos_consistent fuel repos1 _ consistent_initial)
      as (_ & Hvs1 & _).
    destruct (process_repos_consistent fuel repos2 _ consistent_initial)
      as (_ & Hvs2 & _).
    rewrite Hvs1, Hvs2.
    rewrite <- (process_repos_visits_reachable U fuel repos1) by done.
    rewrite <- (process_repos_visits_reachable U fuel repos2) by done.
    split; apply reachable_roots; intros k0; by rewrite Hroots.
Qed.

End Consolidator.

(** * Runs in the small world *)

Section Runs.
#[local] Existing Instance World.packaging.
#[local] Existing Instance World.urllib.
#[local] Existing Instance World.network.
#[local] Existing Instance World.json_lib.

(** Closed goals are settled by evaluation, through the decision procedure
    where the statement has one. *)
Ltac evaluate :=
  first [ apply (bool_decide_unpack _); vm_compute; exact I
        | vm_compute; repeat split; reflexivity
        | by vm_compute ].

(** C1. The script keeps the opaque line [-e .] in [url_requirements] and
    then writes only [dependency_dict]: the line is not in the file. *)
Theorem opaque_line_kept_but_not_written :
  let r := consolidate_requirements 3 "repos.json"
             (World.input (JArray [World.repository "https://github.com/a/opaque" "main"])) in
  exit_status r = Some 0%Z ∧
  url_requirements (final r) = {["-e ."]} ∧
  files r !! "requirements.txt" = Some ("foo>=1.0" +:+ Str.nl).
Proof. repeat split; evaluate. Qed.

(** C2, refuted as stated: the repository [a/b] given once without a commit
    and once pinned to its default branch [main] resolves to [main] both
    times, is traversed under two keys, and has the manifest at [main]
    requested twice. *)
Lemma default_branch_manifest_fetched_twice :
  let unset_key : RepoKey := ("https://github.com/a/b", Some "") in
  let pinned_key : RepoKey := ("https://github.com/a/b", Some "main") in
  let r := consolidate_requirements 3 "repos.json"
             (World.input (JArray [World.repository "https://github.com/a/b" "";
                                   World.repository "https://github.com/a/b" "main"])) in
  resolved_commit unset_key = Value (Some "main") ∧
  resolved_commit pinned_key = Value (Some "main") ∧
  visits (trace (final r)) = [unset_key; pinned_key] ∧
  length (filter (λ url, url = "https://raw.githubusercontent.com/a/b/main/requirements.txt")
                 (requests (trace (final r)))) = 2.
Proof. repeat split; evaluate. Qed.

(** C3 at the cycle [c/x] → [c/y] → [c/x]. *)
Lemma traversal_terminates_visiting_once_witness :
  let x : RepoKey := ("https://github.com/c/x", Some "main") in
  let y : RepoKey := ("https://github.com/c/y", Some "main") in
  let repos := [World.repository "https://github.com/c/x" "main"] in
  let r := consolidate_requirements 3 "repos.json" (World.input (JArray repos)) in
  references x = [y] ∧ references y = [x] ∧
  visited_repos (final r) = {[x; y]} ∧
  exit_status r ≠ None ∧
  (∀ k, k ∈ visited_repos (final r) →
        length (filter (λ k', k' = k) (visits (trace (final r)))) = 1) ∧
  (∀ k, reachable repos k ↔ k ∈ visited_repos (final r)).
Proof.
  intros x y repos r.
  split; [evaluate|]. split; [evaluate|].
  split; [evaluate|].
  destruct (traversal_terminates_visiting_once {[x; y]} 3 "repos.json"
              (World.input (JArray repos)) repos) as (Hends & Honce & Hall).
  - evaluate.
  - apply closedb_closed. evaluate.
  - intros k Hk. change (roots repos) with [x] in Hk.
    apply list_elem_of_singleton in Hk as ->. evaluate.
  - vm_compute. lia.
  - split; [exact Hends|]. split; [exact Honce|]. apply Hall.
    + apply Forall_cons. split; [|by apply Forall_nil].
      right. split; [evaluate|by intros commit _].
    + intros k [->%elem_of_singleton| ->%elem_of_singleton]%elem_of_union;
        (split; [evaluate|by intros commit _]).
Defined.



(** C5 at the repository [a/b]. *)
Lemma consolidation_is_idempotent_witness :
  let fs := World.input (JArray [World.repository "https://github.com/a/b" "main"]) in
  let r := consolidate_requirements 3 "repos.json" fs in
  files r !! "repos.json" = fs !! "repos.json" ∧
  consolidate_requirements 3 "repos.json" (files r) = r.
Proof.
  intros fs r. split; [evaluate|].
  apply (consolidation_is_idempotent 3 "repos.json" fs). evaluate.
Defined.

(** C6 at the repositories [c/x] and [a/b], listed in either order: the two
    runs record the same four requirements in different orders. *)
Lemma traversal_order_does_not_matter_witness :
  let x := World.repository "https://github.com/c/x" "main" in
  let b := World.repository "https://github.com/a/b" "main" in
  let r1 := consolidate_requirements 4 "repos.json" (World.input (JArray [x; b])) in
  let r2 := consolidate_requirements 4 "repos.json" (World.input (JArray [b; x])) in
  recorded (final r1) =
    [("Foo", World.specifiers ">=1.0"); ("foo", World.specifiers "<2.0");
     ("foo", World.specifiers ">=1.0"); ("bar", World.specifiers "==2.0")] ∧
  recorded (final r2) =
    [("foo", World.specifiers ">=1.0"); ("bar", World.specifiers "==2.0");
     ("Foo", World.specifiers ">=1.0"); ("foo", World.specifiers "<2.0")] ∧
  recorded (final r1) ≡ₚ recorded (final r2) ∧
  same_constraints (dependency_dict (final r1)) (dependency_dict (final r2)).
Proof.
  intros x b r1 r2. split; [evaluate|]. split; [evaluate|].
  destruct traversal_order_does_not_matter as (_ & _ & Horder).
  apply (Horder {[("https://github.com/c/x", Some "main");
                  ("https://github.com/c/y", Some "main");
                  ("https://github.com/a/b", Some "main")]}
                4 "repos.json" (World.input (JArray [x; b]))
                "repos.json" (World.input (JArray [b; x])) [x; b] [b; x]).
  - evaluate.
  - evaluate.
  - apply perm_swap.
  - repeat (apply Forall_cons; split;
              [right; split; [evaluate|by intros commit _]|]).
    by apply Forall_nil.
  - apply closedb_closed. evaluate.
  - intros k Hk.
    change (roots [x; b]) with [("https://github.com/c/x", Some "main");
                                ("https://github.com/a/b", Some "main")] in Hk.
    apply elem_of_cons in Hk as [->|Hk]; [evaluate|].
    apply list_elem_of_singleton in Hk as ->. evaluate.
  - intros k [[->%elem_of_singleton| ->%elem_of_singleton]%elem_of_union
             | ->%elem_of_singleton]%elem_of_union;
      (split; [evaluate|by intros commit _]).
  - vm_compute. lia.
Defined.

(** C7, refuted as stated: the input [[1]] is read and is a list, and the run
    exits with status 1. *)
Lemma list_of_non_descriptors_exits_1 :
  let fs := World.input (JArray [JNumber 1]) in
  load_repositories "repos.json" fs = Some [JNumber 1] ∧
  exit_status (consolidate_requirements 3 "repos.json" fs) = Some 1%Z.
Proof. repeat split; evaluate. Qed.

(** C7 at a missing input file, at two repositories of which the first has
    no manifest (status 404), and at the list [[1]]. *)
Lemma exit_status_of_run_witness :
  let fs := World.input (JArray [World.repository "https://github.com/n/a" "main";
                                 World.repository "https://github.com/a/b" "main"]) in
  let fs' := World.input (JArray [JNumber 1]) in
  requests_get "https://raw.githubusercontent.com/n/a/main/requirements.txt"
    = HttpResponse 404 "" ∧
  exit_status (consolidate_requirements 3 "missing.json" fs) = Some 1%Z ∧
  exit_status (consolidate_requirements 3 "repos.json" fs) = Some 0%Z ∧
  exit_status (consolidate_requirements 3 "repos.json" fs') = Some 1%Z.
Proof.
  intros fs fs'. split; [evaluate|]. split; [|split].
  - apply (proj1 (exit_status_of_run ∅ 3 "missing.json" fs)). evaluate.
  - apply (proj1 (proj2 (exit_status_of_run
                    {[("https://github.com/n/a", Some "main");
                      ("https://github.com/a/b", Some "main")]}
                    3 "repos.json" fs))
             [World.repository "https://github.com/n/a" "main";
              World.repository "https://github.com/a/b" "main"]).
    + evaluate.
    + repeat (apply Forall_cons; split;
                [right; split; [evaluate|by intros commit _]|]).
      by apply Forall_nil.
    + apply closedb_closed. evaluate.
    + intros k Hk.
      change (roots [World.repository "https://github.com/n/a" "main";
                     World.repository "https://github.com/a/b" "main"])
        with [("https://github.com/n/a", Some "main");
              ("https://github.com/a/b", Some "main")] in Hk.
      apply elem_of_cons in Hk as [->|Hk]; [evaluate|].
      apply list_elem_of_singleton in Hk as ->. evaluate.
    + vm_compute. lia.
  - destruct (proj1 (proj2 (proj2 (exit_status_of_run ∅ 3 "repos.json" fs')))
                [JNumber 1]) as [_ Hfatal].
    + evaluate.
    + by apply Exists_cons_hd.
    + apply Hfatal.
      * by intros k k' Hk%not_elem_of_empty.
      * by intros k Hk%elem_of_nil.
      * vm_compute. lia.
Defined.

(** C9, refuted as stated: the URL [https://github.com/a] has no repository
    name, no request is made for it and its commit stays unresolved. *)
Lemma no_query_without_repository_name :
  let r := consolidate_requirements 3 "repos.json"
             (World.input (JArray [JObject [("repo", JString "https://github.com/a")]])) in
  resolved_commit ("https://github.com/a", Some "") = Value None ∧
  requests (trace (final r)) = [] ∧
  trace (final r) =
    [Visit ("https://github.com/a", Some "");
     Print (InvalidRepositoryURL "https://github.com/a");
     Print (SkippingRepository "https://github.com/a");
     Print Generated].
Proof. repeat split; evaluate. Qed.

(** C9 at [d/e], whose metadata query is answered 503. *)
Lemma default_branch_query_and_fallback_witness :
  let key : RepoKey := ("https://github.com/d/e", Some "") in
  let api_url := "https://api.github.com/repos/d/e" in
  let r := process_requirements_from_repo 3 key.1 key.2 initial_state in
  requests_get api_url = HttpResponse 503 "" ∧
  resolve_commit key.1 key.2 initial_state =
    (Value (Some "main"),
     print (FailedDefaultBranch key.1 503) (emit (QueryApi api_url) initial_state)) ∧
  r.1 ≠ Raised ∧
  FetchManifest key "https://raw.githubusercontent.com/d/e/main/requirements.txt"
    ∈ trace r.2.
Proof.
  intros key api_url r. split; [evaluate|].
  destruct (default_branch_query_and_fallback 2 key.1 key.2 initial_state)
    as (Hnamed & _); [evaluate|].
  destruct (Hnamed "/d/e" "d" "e" []) as (_ & _ & Hfail); [evaluate..|].
  destruct (Hfail (FailedDefaultBranch key.1 503)) as [Hresolved Hgoes_on];
    [evaluate|].
  split; [exact Hresolved|].
  apply Hgoes_on; evaluate.
Defined.

(** C10 at an [ssh] line. *)
Lemma unmatched_git_line_contributes_nothing_witness :
  let req_line := "git+ssh://git@github.com/a/b.git" in
  Str.startswith "git+" (Str.strip req_line) = true ∧
  Requirement (Str.strip req_line) = InvalidRequirement ∧
  parse_git_requirement (Str.strip req_line) = (None, None) ∧
  process_line (process_requirements_from_repo 3) "https://github.com/a/b"
               req_line initial_state = (Returned, initial_state).
Proof.
  intros req_line. repeat (split; [evaluate|]).
  apply (unmatched_git_line_contributes_nothing (process_requirements_from_repo 3)
           "https://github.com/a/b" req_line initial_state); evaluate.
Defined.

End Runs.

(** * Runs at the edges *)

Section Runs_at_the_edges.
#[local] Existing Instance World.packaging.
#[local] Existing Instance Edge.urllib.
#[local] Existing Instance Edge.network.
#[local] Existing Instance Edge.json_lib.

Ltac evaluate :=
  first [ apply (bool_decide_unpack _); vm_compute; exact I
        | vm_compute; repeat split; reflexivity
        | by vm_compute ].

(** C3, refuted as stated: in the cycle [r/x] → [r/y] → [r/x], the
    repository [r/x] is reached pinned to [main], its default branch, and
    then without a branch.  The two keys differ, both are visited, and the
    pair of [r/x] and [main] has its manifest requested twice. *)
Lemma resolved_pair_visited_twice :
  let pinned : RepoKey := ("https://github.com/r/x", Some "main") in
  let y : RepoKey := ("https://github.com/r/y", Some "main") in
  let unpinned : RepoKey := ("https://github.com/r/x", None) in
  let r := consolidate_requirements 4 "repos.json"
             (World.input (JArray [World.repository "https://github.com/r/x" "main"])) in
  references pinned = [y] ∧ references y = [unpinned] ∧ references unpinned = [y] ∧
  resolved_commit pinned = Value (Some "main") ∧
  resolved_commit unpinned = Value (Some "main") ∧
  exit_status r = Some 0%Z ∧
  visits (trace (final r)) = [pinned; y; unpinned] ∧
  length (filter (λ url, url = "https://raw.githubusercontent.com/r/x/main/requirements.txt")
                 (requests (trace (final r)))) = 2.
Proof. repeat split; evaluate. Qed.

(** C6, refuted as stated: the manifests of [e/p] and [e/q] both begin with
    a reference to a host the URL library refuses.  Whichever is read first
    meets the reference new, and the exception ends its loop before its
    requirement; the other finds the reference visited and records its own.
    The two orders write different manifests. *)
Lemma order_decides_what_is_recorded :
  let p := World.repository "https://github.com/e/p" "main" in
  let q := World.repository "https://github.com/e/q" "main" in
  let r1 := consolidate_requirements 3 "repos.json" (World.input (JArray [p; q])) in
  let r2 := consolidate_requirements 3 "repos.json" (World.input (JArray [q; p])) in
  manifest_of ("https://github.com/e/p", Some "main") = ["git+https://[bad"; "pkgp==1.0"] ∧
  manifest_of ("https://github.com/e/q", Some "main") = ["git+https://[bad"; "pkgq==2.0"] ∧
  exit_status r1 = Some 0%Z ∧ exit_status r2 = Some 0%Z ∧
  recorded (final r1) = [("pkgq", World.specifiers "==2.0")] ∧
  recorded (final r2) = [("pkgp", World.specifiers "==1.0")] ∧
  files r1 !! "requirements.txt" = Some ("pkgq==2.0" +:+ Str.nl) ∧
  files r2 !! "requirements.txt" = Some ("pkgp==1.0" +:+ Str.nl) ∧
  ¬ same_constraints (dependency_dict (final r1)) (dependency_dict (final r2)).
Proof.
  intros p q r1 r2. do 8 (split; [evaluate|]).
  intros Hsame. specialize (Hsame "pkgp").
  assert (dependency_dict (final r1) !! "pkgp" = None) as H1 by evaluate.
  assert (is_Some (dependency_dict (final r2) !! "pkgp")) as [S H2] by evaluate.
  by rewrite H1, H2 in Hsame.
Qed.

(** The entry [https://[bad] at [x] has a URL [urljoin] refuses.  Alone it
    ends the run with status 1; after [e/pin], whose manifest refers to the
    same key, it is passed over and the run ends with status 0. *)
Lemma refused_entry_after_its_reference :
  let bad := World.repository "https://[bad" "x" in
  let pin := World.repository "https://github.com/e/pin" "main" in
  entry_key bad = Some ("https://[bad", Some "x") ∧
  references ("https://github.com/e/pin", Some "main") = [("https://[bad", Some "x")] ∧
  resolved_commit ("https://[bad", Some "x") = Value (Some "x") ∧
  raw_requirements_url "https://[bad" "x" = None ∧
  exit_status (consolidate_requirements 3 "repos.json" (World.input (JArray [bad])))
    = Some 1%Z ∧
  exit_status (consolidate_requirements 3 "repos.json" (World.input (JArray [pin; bad])))
    = Some 0%Z.
Proof. repeat split; evaluate. Qed.

End Runs_at_the_edges.

(** C8. For the input [[{"repo": "https://github.com/a/b", "commit":
    "main"}]] with the manifest [foo>=1.0], [bar==2.0], the file written is
    [bar==2.0] then [foo>=1.0].  In every run that exits with status 0 the
    file holds the lines of [dependency_dict], sorted, a newline after each;
    a line is the name followed by the specifier, or the name alone when the
    specifier is empty; other runs write nothing. *)
Theorem emitted_manifest :
  (let r := @consolidate_requirements World.packaging World.urllib World.network
              World.json_lib 3 "repos.json"
              (World.input (JArray [World.repository "https://github.com/a/b" "main"])) in
   @manifest_of World.packaging World.urllib World.network World.json_lib
     ("https://github.com/a/b", Some "main") = ["foo>=1.0"; "bar==2.0"] ∧
   exit_status r = Some 0%Z ∧
   files r !! "requirements.txt" =
     Some ("bar==2.0" +:+ Str.nl +:+ "foo>=1.0" +:+ Str.nl)) ∧
  ∀ (Pkg : Packaging) (Url : Urllib) (Net : Requests) (Js : Json)
    fuel json_file fs,
    let r := @consolidate_requirements Pkg Url Net Js fuel json_file fs in
    let d := @dependency_dict Pkg (final r) in
    let lines := Str.sorted (@consolidated_requirements Pkg d) in
    match exit_status r with
    | Some 0%Z =>
        files r =
          <["requirements.txt" :=
              String.concat "" ((λ req, req +:+ Str.nl) <$> lines)]> fs
    | _ => files r = fs
    end ∧
    Sorted String.le lines ∧
    ∀ line, line ∈ lines ↔
            ∃ name specifier,
              d !! name = Some specifier ∧
              line = if bool_decide (specifier ≠ ∅)
                     then name +:+ @SpecifierSet_str Pkg specifier else name.
Proof.
  split; [vm_compute; repeat split; reflexivity|].
  intros Pkg Url Net Js fuel json_file fs r d lines.
  split; [apply written_manifest|].
  destruct (sorted_requirements d) as (Hsorted & _ & Hlines). by split.
Qed.

(** * Further properties of the code *)

(** ** Strings *)

Lemma string_app_cons (c : ascii) (a b : string) : String c a +:+ b = String c (a +:+ b).
Proof. reflexivity. Qed.

Lemma string_app_empty_l (s : string) : "" +:+ s = s.
Proof. reflexivity. Qed.

Lemma string_app_empty_r (s : string) : s +:+ "" = s.
Proof. induction s as [|c s IH]; [done|]. by rewrite string_app_cons, IH. Qed.

Lemma string_app_assoc (a b c : string) : (a +:+ b) +:+ c = a +:+ b +:+ c.
Proof. induction a as [|x a IH]; [done|]. by rewrite !string_app_cons, IH. Qed.

Lemma string_rev_app_spec (s1 s2 : string) : String.rev_app s1 s2 = String.rev s1 +:+ s2.
Proof.
  unfold String.rev. revert s2.
  induction s1 as [|c s1 IH]; intros s2; [done|].
  cbn. rewrite IH, (IH (String c "")), string_app_assoc. done.
Qed.

Lemma string_rev_cons (c : ascii) (s : string) :
  String.rev (String c s) = String.rev s +:+ String c "".
Proof. unfold String.rev at 1. cbn. apply string_rev_app_spec. Qed.

Lemma string_rev_app_distr (a b : string) :
  String.rev (a +:+ b) = String.rev b +:+ String.rev a.
Proof.
  induction a as [|c a IH].
  - by rewrite string_app_empty_l, string_app_empty_r.
  - rewrite string_app_cons, !string_rev_cons, IH, string_app_assoc. done.
Qed.

Lemma string_rev_involutive (s : string) : String.rev (String.rev s) = s.
Proof.
  induction s as [|c s IH]; [done|].
  rewrite string_rev_cons, string_rev_app_distr, IH. done.
Qed.

Lemma string_length_app (a b : string) :
  String.length (a +:+ b) = String.length a + String.length b.
Proof. induction a as [|c a IH]; [done|]. rewrite string_app_cons. cbn. by rewrite IH. Qed.

Lemma string_prefix_app (p s : string) : String.prefix p (p +:+ s) = true.
Proof.
  induction p as [|c p IH]; [by destruct s|].
  rewrite string_app_cons. cbn. destruct (Ascii.ascii_dec c c); [done|congruence].
Qed.

Lemma string_prefix_inv (p s : string) :
  String.prefix p s = true → ∃ t, s = p +:+ t.
Proof.
  revert s. induction p as [|c p IH]; intros s Hp.
  - by exists s.
  - destruct s as [|d s]; [done|]. cbn in Hp.
    destruct (Ascii.ascii_dec c d) as [->|]; [|done].
    destruct (IH s Hp) as [t ->]. by exists t.
Qed.

Lemma string_substring_app (a b : string) :
  String.substring 0 (String.length a) (a +:+ b) = a.
Proof.
  induction a as [|c a IH]; [by destruct b|].
  rewrite string_app_cons. cbn. by rewrite IH.
Qed.

Lemma endswith_app (s p : string) : Str.endswith p (s +:+ p) = true.
Proof. unfold Str.endswith. rewrite string_rev_app_distr. apply string_prefix_app. Qed.

Lemma endswith_inv (p s : string) :
  Str.endswith p s = true → ∃ s', s = s' +:+ p.
Proof.
  unfold Str.endswith. intros [t Ht]%string_prefix_inv.
  exists (String.rev t).
  rewrite <- (string_rev_involutive s), Ht, string_rev_app_distr, string_rev_involutive. done.
Qed.

Lemma drop_last_app (s p : string) :
  Str.drop_last (String.length p) (s +:+ p) = s.
Proof.
  unfold Str.drop_last. rewrite string_length_app.
  replace (String.length s + String.length p - String.length p)
    with (String.length s) by lia.
  apply string_substring_app.
Qed.

Lemma strip_prefix_app (p s : string) : Str.strip_prefix p (p +:+ s) = Some s.
Proof.
  induction p as [|c p IH]; [by destruct s|].
  rewrite string_app_cons. cbn. by rewrite bool_decide_eq_true_2.
Qed.

Lemma strip_prefix_inv (p s t : string) :
  Str.strip_prefix p s = Some t → s = p +:+ t.
Proof.
  revert s. induction p as [|c p IH]; intros s Hp.
  - destruct s; cbn in Hp; by simplify_eq.
  - destruct s as [|d s]; [done|]. cbn in Hp.
    case_bool_decide; [|done]. subst d. rewrite string_app_cons. f_equal. by apply IH.
Qed.

(** [all_chars p s]: every character of [s] satisfies [p]. *)
Lemma span_all (p : ascii → bool) (a : string) :
  World.all_chars p a = true → Str.span p a = (a, "").
Proof.
  induction a as [|c a IH]; [done|]. cbn.
  intros [Hc Ha]%andb_true_iff. rewrite Hc, (IH Ha). done.
Qed.

Lemma span_app (p : ascii → bool) (a : string) (c : ascii) (b : string) :
  World.all_chars p a = true → p c = false →
  Str.span p (a +:+ String c b) = (a, String c b).
Proof.
  intros Ha Hc. induction a as [|x a IH].
  - rewrite string_app_empty_l. cbn. by rewrite Hc.
  - cbn in Ha. apply andb_true_iff in Ha as [Hx Ha].
    rewrite string_app_cons. cbn. rewrite Hx, (IH Ha). done.
Qed.

Lemma span_spec (p : ascii → bool) (s a b : string) :
  Str.span p s = (a, b) →
  s = a +:+ b ∧ World.all_chars p a = true ∧
  match b with String c _ => p c = false | EmptyString => True end.
Proof.
  revert a b. induction s as [|c s IH]; intros a b Hs.
  - cbn in Hs. by simplify_eq.
  - cbn in Hs. destruct (p c) eqn:Hc.
    + destruct (Str.span p s) as [a' b'] eqn:Hs'. simplify_eq.
      destruct (IH a' b eq_refl) as (-> & Ha & Hb).
      split; [done|]. split; [|done]. cbn. by rewrite Hc, Ha.
    + simplify_eq. split; [done|]. split; [done|]. done.
Qed.

(** ** [parse_git_requirement] *)

Lemma without_app c a b : without c (a +:+ b) = without c a && without c b.
Proof.
  unfold without. induction a as [|x a IH]; [done|].
  rewrite string_app_cons. simpl. by rewrite IH, andb_assoc.
Qed.

Lemma is_empty_app_false a b : Str.is_empty b = false → Str.is_empty (a +:+ b) = false.
Proof. destruct a; [done|]. by rewrite string_app_cons. Qed.

Lemma endswith_git_https h :
  Str.endswith ".git" ("https://" +:+ h) = Str.endswith ".git" h.
Proof.
  unfold Str.endswith. rewrite string_rev_app_distr.
  generalize (String.rev h). intros x.
  change (String.rev ".git") with "tig.". change (String.rev "https://") with "//:sptth".
  destruct x as [|c1 [|c2 [|c3 [|c4 x]]]];
    rewrite ?string_app_cons, ?string_app_empty_l; cbn [String.prefix];
    repeat (destruct (Ascii.ascii_dec _ _); try done).
  by destruct x.
Qed.

(** The revision of a reference: what follows the [@], up to a [#]. *)
Lemma span_revision rev tail :
  without "#" rev = true →
  (tail = "" ∨ ∃ t, tail = String "#" t) →
  Str.span (λ c, negb (bool_decide (c = "#"%char))) (rev +:+ tail) = (rev, tail).
Proof.
  intros Hrev [->|[t ->]].
  - rewrite string_app_empty_r. by apply span_all.
  - by apply span_app.
Qed.

Lemma parse_git_requirement_at h rev tail :
  without "@" h = true → Str.is_empty h = false →
  without "#" rev = true → Str.is_empty rev = false →
  (tail = "" ∨ ∃ t, tail = String "#" t) →
  parse_git_requirement ("git+https://" +:+ h +:+ "@" +:+ rev +:+ tail) =
  (Some (if Str.endswith ".git" h then Str.drop_last 4 ("https://" +:+ h)
         else "https://" +:+ h), Some rev).
Proof.
  intros Hh Hne Hrev Hrne Htail. unfold parse_git_requirement.
  rewrite strip_prefix_app.
  change ("@" +:+ rev +:+ tail) with (String "@" (rev +:+ tail)).
  rewrite (span_app _ h "@" (rev +:+ tail) Hh) by done.
  rewrite Hne, (span_revision rev tail Hrev Htail), Hrne.
  by rewrite endswith_git_https.
Qed.

(** X1. A reference [git+https://HOST/PATH@REV], with or without a trailing
    [#...] annotation, is read as the URL [https://HOST/PATH] and the
    revision [REV]; one [.git] at the end of the path is dropped. *)
Theorem parse_git_requirement_pinned (h rev tail : string) :
  without "@" h = true →
  without "#" rev = true →
  Str.is_empty rev = false →
  (tail = "" ∨ ∃ t, tail = String "#" t) →
  parse_git_requirement ("git+https://" +:+ h +:+ ".git" +:+ "@" +:+ rev +:+ tail)
    = (Some ("https://" +:+ h), Some rev) ∧
  (Str.is_empty h = false → Str.endswith ".git" h = false →
   parse_git_requirement ("git+https://" +:+ h +:+ "@" +:+ rev +:+ tail)
     = (Some ("https://" +:+ h), Some rev)).
Proof.
  intros Hh Hrev Hrne Htail. split.
  - rewrite <- (string_app_assoc h ".git").
    rewrite parse_git_requirement_at; try done.
    + rewrite endswith_app, <- string_app_assoc.
      change 4 with (String.length ".git").
      by rewrite (drop_last_app ("https://" +:+ h) ".git").
    + by rewrite without_app, Hh.
    + by apply is_empty_app_false.
  - intros Hne Hgit. rewrite parse_git_requirement_at; try done.
    by rewrite Hgit.
Qed.

(** X2. Without an [@], everything after [git+] is taken for the URL, a
    [#egg=] annotation included, and no revision is returned. *)
Theorem parse_git_requirement_unpinned (rest : string) :
  without "@" rest = true →
  Str.is_empty rest = false →
  Str.endswith ".git" rest = false →
  parse_git_requirement ("git+https://" +:+ rest)
    = (Some ("https://" +:+ rest), None).
Proof.
  intros Hrest Hne Hgit. unfold parse_git_requirement.
  rewrite strip_prefix_app, (span_all _ rest Hrest), Hne.
  by rewrite endswith_git_https, Hgit.
Qed.

(** X3. What [parse_git_requirement] returns: no URL comes with no revision;
    a URL starts with [https://], so it is never empty, and a revision is
    never empty and holds no [#].  Hence the referred repository is
    traversed with its default branch exactly when the line has no
    revision. *)
Theorem parse_git_requirement_result (req_line : string) u c :
  parse_git_requirement req_line = (u, c) →
  (u = None → c = None) ∧
  (∀ url, u = Some url →
     Str.startswith "git+https://" req_line = true ∧
     Str.startswith "https://" url = true ∧
     Str.is_empty url = false ∧
     (unset c = true ↔ c = None) ∧
     ∀ rev, c = Some rev → without "#" rev = true).
Proof.
  unfold parse_git_requirement.
  destruct (Str.strip_prefix "git+https://" req_line) as [rest|] eqn:Hrest;
    [|by intros [= <- <-]].
  apply strip_prefix_inv in Hrest as ->.
  destruct (Str.span _ rest) as [host_path after] eqn:Hspan.
  destruct (Str.is_empty host_path) eqn:Hne; [by intros [= <- <-]|].
  intros [= <- <-]. split; [done|]. intros url [= <-].
  split; [apply string_prefix_app|].
  assert (Str.startswith "https://"
            (if Str.endswith ".git" ("https://" +:+ host_path)
             then Str.drop_last 4 ("https://" +:+ host_path)
             else "https://" +:+ host_path) = true) as Hstart.
  { destruct (Str.endswith _ _) eqn:Hgit; [|apply string_prefix_app].
    apply endswith_inv in Hgit as [s' Hs'].
    rewrite Hs'. change 4 with (String.length ".git").
    rewrite (drop_last_app s' ".git").
    destruct s' as [|c1 [|c2 [|c3 [|c4 [|c5 [|c6 [|c7 [|c8 s']]]]]]]];
      rewrite !string_app_cons, ?string_app_empty_l in Hs';
      simplify_eq; try done.
    apply (string_prefix_app "https://"). }
  split; [done|]. split.
  { destruct (if Str.endswith _ _ then _ else _); done. }
  destruct after as [|at_sign revision]; [done|].
  destruct (Str.span _ revision) as [rev more] eqn:Hrev.
  apply span_spec in Hrev as (_ & Hclean & _).
  destruct (Str.is_empty rev) eqn:Hrne; [done|]. split.
  - simpl. rewrite Hrne. done.
  - by intros ? [= <-].
Qed.

Lemma lower_char_idemp (c : ascii) :
  Str.lower_char (Str.lower_char c) = Str.lower_char c.
Proof. destruct c as [[] [] [] [] [] [] [] []]; by vm_compute. Qed.

Lemma lower_idemp (s : string) : Str.lower (Str.lower s) = Str.lower s.
Proof.
  induction s as [|c s IH]; [done|]. simpl. by rewrite lower_char_idemp, IH.
Qed.

Section Traversal_facts.
Context {Pkg : Packaging} {Url : Urllib} {Net : Requests} {Js : Json}.

Lemma merge_all_is_Some (l : list (string * SpecifierSet)) n :
  is_Some (merge_all l ∅ !! n) ↔ ∃ name' S', (name', S') ∈ l ∧ Str.lower name' = n.
Proof.
  rewrite merge_all_lookup.
  destruct (filter _ l) as [|[name' S'] es] eqn:E.
  - split; [by intros [? ?]|]. intros (name' & S' & Hin & Hn).
    exfalso. apply (elem_of_nil (name', S')). rewrite <- E.
    by apply list_elem_of_filter.
  - split; [|by eexists]. intros _. exists name', S'.
    assert ((name', S') ∈ filter (λ e, Str.lower e.1 = n) l) as Hin.
    { rewrite E. apply list_elem_of_here. }
    by apply list_elem_of_filter in Hin as [? ?].
Qed.

(** X4. The names [dependency_dict] holds at the end of a run are exactly the
    lowercased names of the requirements recorded, and each of them is its
    own lowercase form. *)
Theorem package_names_are_lowercased fuel json_file fs name :
  let r := consolidate_requirements fuel json_file fs in
  (is_Some (dependency_dict (final r) !! name) ↔
   ∃ name' S', (name', S') ∈ recorded (final r) ∧ Str.lower name' = name) ∧
  (is_Some (dependency_dict (final r) !! name) → Str.lower name = name).
Proof.
  intros r. subst r.
  destruct (consolidate_requirements_consistent fuel json_file fs)
    as (_ & _ & _ & _ & ->).
  split; [apply merge_all_is_Some|].
  intros (name' & S' & _ & <-)%merge_all_is_Some. apply lower_idemp.
Qed.

Lemma extends_refl st : extends st st.
Proof. repeat split; try done. intros name S HS. by exists S. Qed.

Lemma extends_trans st1 st2 st3 : extends st1 st2 → extends st2 st3 → extends st1 st3.
Proof.
  intros (Hv & Hu & Hr & Ht & Hd) (Hv' & Hu' & Hr' & Ht' & Hd').
  split; [by etrans|]. split; [by etrans|]. split; [by etrans|].
  split; [by etrans|]. intros name S HS.
  destruct (Hd name S HS) as (S' & HS' & Hsub).
  destruct (Hd' name S' HS') as (S3 & HS3 & Hsub').
  exists S3. split; [done|]. by etrans.
Qed.

Lemma extends_quiet_step st st' : quiet_step st st' → extends st st'.
Proof.
  intros (es & _ & ->). repeat split; simpl; try done.
  - by apply prefix_app_r.
  - intros name S HS. by exists S.
Qed.

Lemma extends_emit e st : extends st (emit e st).
Proof.
  repeat split; simpl; try done.
  - by apply prefix_app_r.
  - intros name S HS. by exists S.
Qed.

Lemma extends_mark_visited key st : extends st (mark_visited key st).
Proof.
  repeat split; simpl; try done.
  - apply union_subseteq_r.
  - by apply prefix_app_r.
  - intros name S HS. by exists S.
Qed.

Lemma extends_record name specifier st :
  extends st (record_requirement name specifier st).
Proof.
  repeat split; simpl; try done.
  - by apply prefix_app_r.
  - intros n S HS. rewrite lookup_merge_requirement.
    case_decide as Hn; [|by exists S].
    rewrite HS. simpl. eexists. split; [done|]. apply map_union_subseteq_l.
Qed.

Lemma extends_add_url req_line st : extends st (add_url_requirement req_line st).
Proof.
  repeat split; simpl; try done.
  - apply union_subseteq_r.
  - intros name S HS. by exists S.
Qed.

Lemma extends_plain_line repo_url req_line st :
  extends st (plain_line repo_url req_line st).
Proof.
  unfold plain_line.
  destruct (_ || _); [apply extends_refl|].
  destruct (Requirement _).
  - apply extends_record.
  - destruct (Str.startswith _ _); [apply extends_refl|apply extends_add_url].
  - apply extends_emit.
Qed.

Lemma process_requirements_extends fuel repo_url commit_hash st :
  extends st (process_requirements_from_repo fuel repo_url commit_hash st).2.
Proof.
  revert repo_url commit_hash st.
  induction fuel as [|fuel IH]; intros repo_url commit_hash st; simpl.
  { apply extends_refl. }
  destruct (Str.is_empty repo_url); [apply extends_refl|].
  case_bool_decide; [apply extends_refl|].
  pose proof (extends_mark_visited (repo_url, commit_hash) st) as Hmark.
  pose proof (resolve_commit_quiet repo_url commit_hash
                (mark_visited (repo_url, commit_hash) st)) as Hres.
  apply extends_quiet_step in Hres.
  destruct (resolve_commit _ _ _) as [[[commit|]|] st1]; simpl in *;
    try by etrans.
  all: try (eapply extends_trans; [exact Hmark|exact Hres]).
  assert (extends st st1) as H1 by (eapply extends_trans; [exact Hmark|exact Hres]).
  destruct (raw_requirements_url _ _) as [url|]; [|done].
  set (st2 := emit (FetchManifest (repo_url, commit_hash) url) st1).
  assert (extends st st2) as H2.
  { eapply extends_trans; [exact H1|apply extends_emit]. }
  destruct (requests_get url) as [status_code text|].
  - destruct (status_code =? 200)%Z.
    + destruct (process_lines_rule (extends st) (λ _, True)
                  (process_requirements_from_repo fuel) repo_url
                  (Str.splitlines text)) with (st := st2) as [_ Hlines];
        [done| | |done|].
      * intros l st' _ _ Hst'. eapply extends_trans; [exact Hst'|].
        apply extends_plain_line.
      * intros l u c st' _ _ Hst'. split; [done|].
        eapply extends_trans; [exact Hst'|apply IH].
      * destruct (process_lines _ _ _ _) as [[] st3]; simpl in *; [| |done].
        -- eapply extends_trans; [exact Hlines|apply extends_emit].
        -- eapply extends_trans; [exact Hlines|].
           eapply extends_trans; apply extends_emit.
    + eapply extends_trans; [exact H2|]. eapply extends_trans; apply extends_emit.
  - eapply extends_trans; [exact H2|]. eapply extends_trans; apply extends_emit.
Qed.

(** X5. A call never takes anything back: what was visited, kept or printed
    stays, and the specifier of a package keeps its clauses with their texts,
    so that a version that is no pre-release and satisfies the later
    specifier satisfied the earlier one. *)
Theorem traversal_only_adds fuel repo_url commit_hash st :
  let st' := (process_requirements_from_repo fuel repo_url commit_hash st).2 in
  visited_repos st ⊆ visited_repos st' ∧
  url_requirements st ⊆ url_requirements st' ∧
  trace st `prefix_of` trace st' ∧
  ∀ name S, dependency_dict st !! name = Some S →
    ∃ S', dependency_dict st' !! name = Some S' ∧
          S ⊆ S' ∧
          ∀ v, Version_is_prerelease v = false →
               SpecifierSet_contains S' v = true →
               SpecifierSet_contains S v = true.
Proof.
  intros st'. subst st'.
  destruct (process_requirements_extends fuel repo_url commit_hash st)
    as (Hv & Hu & _ & Ht & Hd).
  split; [done|]. split; [done|]. split; [done|].
  intros name S HS. destruct (Hd name S HS) as (S' & HS' & Hsub).
  exists S'. split; [done|]. split; [done|].
  intros v Hfinal. rewrite !SpecifierSet_contains_spec.
  intros [_ Hall]. split; [congruence|].
  intros c Hc. apply Hall. unfold clauses in *.
  by apply (subseteq_dom S S').
Qed.

Lemma sleeps_app t1 t2 : sleeps (t1 ++ t2) = sleeps t1 + sleeps t2.
Proof. unfold sleeps. by rewrite omap_app, length_app. Qed.

Lemma owing_refl st : owing 0 st st.
Proof. exists []. by rewrite app_nil_r. Qed.

Lemma owing_trans n m st1 st2 st3 :
  owing n st1 st2 → owing m st2 st3 → owing (n + m) st1 st3.
Proof.
  intros (es1 & Ht1 & H1) (es2 & Ht2 & H2). exists (es1 ++ es2).
  split; [by rewrite Ht2, Ht1, (assoc_L (++))|].
  rewrite sleeps_app, fetches_app, length_app. lia.
Qed.

Lemma owing_emit e st :
  match e with Sleep | FetchManifest _ _ => False | _ => True end →
  owing 0 st (emit e st).
Proof. intros He. exists [e]. split; [done|]. by destruct e. Qed.

Lemma owing_print m n st st' : owing n st st' → owing n st (print m st').
Proof.
  intros H. replace n with (n + 0) by lia.
  eapply owing_trans; [exact H|]. by apply (owing_emit (Print m)).
Qed.

Lemma owing_sleep n st st' : owing (S n) st st' → owing n st (sleep st').
Proof.
  intros (es & Ht & Hn). exists (es ++ [Sleep]). split.
  - simpl. by rewrite Ht, (assoc_L (++)).
  - rewrite sleeps_app, fetches_app, length_app. simpl.
    change (sleeps [Sleep]) with 1. lia.
Qed.

Lemma owing_fetch n key url st st' :
  owing n st st' → owing (S n) st (emit (FetchManifest key url) st').
Proof.
  intros H. replace (S n) with (n + 1) by lia.
  eapply owing_trans; [exact H|]. by exists [FetchManifest key url].
Qed.

Lemma owing_plain_line repo_url req_line st :
  owing 0 st (plain_line repo_url req_line st).
Proof.
  unfold plain_line.
  destruct (_ || _); [apply owing_refl|].
  destruct (Requirement _).
  - exists []. simpl. by rewrite app_nil_r.
  - destruct (Str.startswith _ _); [apply owing_refl|].
    exists []. simpl. by rewrite app_nil_r.
  - apply owing_print, owing_refl.
Qed.

Lemma owing_get_default_branch repo_url st :
  owing 0 st (get_default_branch repo_url st).2.
Proof.
  unfold get_default_branch.
  destruct (urlparse_path repo_url) as [path|]; [|apply owing_refl].
  destruct (Str.split _ _) as [|owner [|repo_name rest]];
    try apply owing_print, owing_refl.
  set (api_url := _ +:+ _).
  assert (owing 0 st (emit (QueryApi api_url) st)) as Hq
    by by apply (owing_emit (QueryApi api_url)).
  destruct (requests_get _) as [status_code text|]; [|by apply owing_print].
  destruct (status_code =? 200)%Z; [|by apply owing_print].
  destruct (json_loads text) as [[| | | | |repo_info]|];
    try by apply owing_print.
  by destruct (dict_get _ _).
Qed.

Lemma owing_resolve_commit repo_url commit_hash st :
  owing 0 st (resolve_commit repo_url commit_hash st).2.
Proof.
  unfold resolve_commit, default_branch_or_skip.
  destruct (unset commit_hash); [|apply owing_refl].
  pose proof (owing_get_default_branch repo_url st) as H.
  destruct (get_default_branch repo_url st) as [[[branch|]|] st1]; simpl in *;
    try done; try by apply owing_print.
  destruct (truthy branch); [done|by apply owing_print].
Qed.

(** The loop over a manifest's lines, for a property the calls keep whenever
    they end. *)
Lemma process_lines_ended (P : State → Prop) recurse repo_url lines :
  (∀ l st, P st → P (plain_line repo_url l st)) →
  (∀ u c st, P st → (recurse u c st).1 ≠ OutOfFuel → P (recurse u c st).2) →
  ∀ st, P st →
        (process_lines recurse repo_url lines st).1 ≠ OutOfFuel →
        P (process_lines recurse repo_url lines st).2.
Proof.
  intros Hplain Hrec. induction lines as [|l lines IH]; intros st Hst; [done|].
  simpl. rewrite process_line_unfold.
  destruct (line_reference l) as [[u c]|].
  - specialize (Hrec u c st Hst).
    destruct (recurse u c st) as [[] st1]; simpl in *; auto.
  - apply IH. by apply Hplain.
Qed.

Lemma process_requirements_paced fuel repo_url commit_hash st :
  (process_requirements_from_repo fuel repo_url commit_hash st).1 ≠ OutOfFuel →
  owing 0 st (process_requirements_from_repo fuel repo_url commit_hash st).2.
Proof.
  revert repo_url commit_hash st.
  induction fuel as [|fuel IH]; intros repo_url commit_hash st; simpl; [done|].
  destruct (Str.is_empty repo_url); [intros _; apply owing_refl|].
  case_bool_decide; [intros _; apply owing_refl|].
  assert (owing 0 st (mark_visited (repo_url, commit_hash) st)) as Hmark
    by by exists [Visit (repo_url, commit_hash)].
  pose proof (owing_resolve_commit repo_url commit_hash
                (mark_visited (repo_url, commit_hash) st)) as Hres.
  pose proof (owing_trans _ _ _ _ _ Hmark Hres) as H1. simpl in H1.
  destruct (resolve_commit _ _ _) as [[[commit|]|] st1]; simpl in *; try done.
  destruct (raw_requirements_url _ _) as [url|]; [|done].
  pose proof (owing_fetch _ (repo_url, commit_hash) url _ _ H1) as H2.
  destruct (requests_get url) as [status_code text|].
  - destruct (status_code =? 200)%Z.
    + assert (∀ l st', owing 1 st st' → owing 1 st (plain_line repo_url l st'))
        as Hplain.
      { intros l st' Hst'. replace 1 with (1 + 0) by lia.
        eapply owing_trans; [exact Hst'|apply owing_plain_line]. }
      assert (∀ u c st', owing 1 st st' →
                (process_requirements_from_repo fuel u c st').1 ≠ OutOfFuel →
                owing 1 st (process_requirements_from_repo fuel u c st').2)
        as Hrec.
      { intros u c st' Hst' Hend. replace 1 with (1 + 0) by lia.
        eapply owing_trans; [exact Hst'|by apply IH]. }
      pose proof (process_lines_ended (owing 1 st)
                    (process_requirements_from_repo fuel) repo_url
                    (Str.splitlines text) Hplain Hrec _ H2) as Hlines.
      destruct (process_lines _ _ _ _) as [[] st3]; simpl in *;
        [| |done]; intros _.
      * by apply owing_sleep, Hlines.
      * by apply owing_sleep, owing_print, Hlines.
    + intros _. by apply owing_sleep, owing_print.
  - intros _. by apply owing_sleep, owing_print.
Qed.

Lemma process_repos_paced fuel repos st :
  (process_repos fuel repos st).1 ≠ OutOfFuel →
  owing 0 st (process_repos fuel repos st).2.
Proof.
  revert st. induction repos as [|repo rest IH]; intros st; simpl.
  { intros _. apply owing_refl. }
  assert (∀ m, (process_repos fuel rest (print m st)).1 ≠ OutOfFuel →
               owing 0 st (process_repos fuel rest (print m st)).2) as Hskip.
  { intros m Hend. change 0 with (0 + 0).
    eapply owing_trans; [apply owing_print, owing_refl|by apply IH]. }
  destruct repo as [| | | | |fields]; try (intros _; apply owing_refl).
  destruct (default _ _) as [| | |commit| |]; try (intros _; apply owing_refl).
  destruct (dict_get "repo" fields) as [[| | |url| |]|]; try apply Hskip.
  all: try (destruct (truthy _); [intros _; apply owing_refl|apply Hskip]).
  destruct (Str.is_empty url); [apply Hskip|].
  pose proof (process_requirements_paced fuel url (Some (Str.strip commit)) st) as H1.
  destruct (process_requirements_from_repo _ _ _ _) as [[] st1]; simpl in *;
    try done.
  - intros Hend. change 0 with (0 + 0).
    eapply owing_trans; [by apply H1|by apply IH].
Qed.

(** X6. In a run that ends, every manifest request is followed by its
    [time.sleep]: the trace holds as many sleeps as manifest requests, and
    the metadata queries add none. *)
Theorem one_sleep_per_manifest_request fuel json_file fs :
  let r := consolidate_requirements fuel json_file fs in
  exit_status r ≠ None →
  sleeps (trace (final r)) = length (fetches (trace (final r))).
Proof.
  intros r. subst r. unfold consolidate_requirements.
  destruct (load_repositories json_file fs) as [repos|]; [|done].
  pose proof (process_repos_paced fuel repos initial_state) as H.
  destruct (process_repos fuel repos initial_state) as [[] st]; simpl in *;
    [| |done]; intros _.
  - destruct H as (es & Ht & Hn); [done|]. simpl in Ht.
    rewrite Ht, sleeps_app, fetches_app, length_app. simpl.
    change (sleeps [Print Generated]) with 0. lia.
  - destruct H as (es & Ht & Hn); [done|]. simpl in Ht. rewrite Ht. simpl. lia.
Qed.

Lemma queries_app t1 t2 : queries (t1 ++ t2) = queries t1 ++ queries t2.
Proof. apply omap_app. Qed.

Lemma unset_visits_app t1 t2 :
  unset_visits (t1 ++ t2) = unset_visits t1 ++ unset_visits t2.
Proof. unfold unset_visits. by rewrite visits_app, filter_app. Qed.

Lemma metered_refl st : metered st st.
Proof. exists []. rewrite app_nil_r. by repeat split. Qed.

Lemma metered_trans st1 st2 st3 : metered st1 st2 → metered st2 st3 → metered st1 st3.
Proof.
  intros (es1 & Ht1 & H1 & F1) (es2 & Ht2 & H2 & F2). exists (es1 ++ es2).
  split; [by rewrite Ht2, Ht1, (assoc_L (++))|].
  rewrite queries_app, unset_visits_app, !length_app.
  split; [lia|]. by apply Forall_app.
Qed.

Lemma metered_emit e st :
  match e with QueryApi _ => False | _ => True end → metered st (emit e st).
Proof.
  intros He. exists [e]. split; [done|].
  destruct e; try done; simpl; (split; [lia|by apply Forall_nil]).
Qed.

Lemma metered_same_trace st st' : trace st' = trace st → metered st st'.
Proof. intros Ht. exists []. rewrite app_nil_r. by repeat split. Qed.

Lemma metered_plain_line repo_url req_line st :
  metered st (plain_line repo_url req_line st).
Proof.
  unfold plain_line.
  destruct (_ || _); [apply metered_refl|].
  destruct (Requirement _).
  - by apply metered_same_trace.
  - destruct (Str.startswith _ _); [apply metered_refl|by apply metered_same_trace].
  - by apply metered_emit.
Qed.

(** [get_default_branch] asks the hosting service at most once, and changes
    nothing but the trace. *)
Lemma get_default_branch_queries repo_url st :
  ∃ es, trace (get_default_branch repo_url st).2 = trace st ++ es ∧
        visits es = [] ∧ length (queries es) ≤ 1 ∧
        Forall (λ u, Str.startswith "https://api.github.com/repos/" u = true)
               (queries es).
Proof.
  unfold get_default_branch.
  destruct (urlparse_path repo_url) as [path|].
  2: { exists []. rewrite app_nil_r. repeat split; simpl; [lia|by apply Forall_nil]. }
  destruct (Str.split _ _) as [|owner [|repo_name rest]].
  1,2: exists [Print (InvalidRepositoryURL repo_url)];
       repeat split; simpl; [lia|by apply Forall_nil].
  set (api_url := _ +:+ _).
  assert (Forall (λ u, Str.startswith "https://api.github.com/repos/" u = true)
                 [api_url]) as Hurl.
  { apply Forall_singleton. apply string_prefix_app. }
  destruct (requests_get _) as [status_code text|].
  2: { exists [QueryApi api_url; Print (ErrorDefaultBranch repo_url)].
       split; [simpl; by rewrite <- (assoc_L (++))|]. by repeat split. }
  destruct (status_code =? 200)%Z.
  2: { exists [QueryApi api_url; Print (FailedDefaultBranch repo_url status_code)].
       split; [simpl; by rewrite <- (assoc_L (++))|]. by repeat split. }
  destruct (json_loads text) as [[| | | | |repo_info]|].
  6: { destruct (dict_get _ _); exists [QueryApi api_url]; by repeat split. }
  all: exists [QueryApi api_url; Print (ErrorDefaultBranch repo_url)];
       (split; [simpl; by rewrite <- (assoc_L (++))|]); by repeat split.
Qed.

Lemma resolve_commit_queries repo_url commit_hash st :
  ∃ es, trace (resolve_commit repo_url commit_hash st).2 = trace st ++ es ∧
        visits es = [] ∧
        length (queries es) ≤ (if unset commit_hash then 1 else 0) ∧
        Forall (λ u, Str.startswith "https://api.github.com/repos/" u = true)
               (queries es).
Proof.
  unfold resolve_commit, default_branch_or_skip.
  destruct (unset commit_hash).
  2: { exists []. rewrite app_nil_r. repeat split; simpl; [lia|by apply Forall_nil]. }
  destruct (get_default_branch_queries repo_url st) as (es & Ht & Hv & Hq & Hu).
  assert (∀ m, ∃ es', trace (print m (get_default_branch repo_url st).2)
                      = trace st ++ es' ∧ visits es' = [] ∧
                      length (queries es') ≤ 1 ∧
                      Forall (λ u, Str.startswith "https://api.github.com/repos/" u = true)
                             (queries es')) as Hprint.
  { intros m. exists (es ++ [Print m]). simpl.
    rewrite Ht, (assoc_L (++)), visits_app, queries_app, Hv, !app_nil_r.
    by repeat split. }
  destruct (get_default_branch repo_url st) as [[[branch|]|] st1]; simpl in *.
  - destruct (truthy branch); [by exists es|apply Hprint].
  - apply Hprint.
  - by exists es.
Qed.

Lemma process_requirements_metered fuel repo_url commit_hash st :
  metered st (process_requirements_from_repo fuel repo_url commit_hash st).2.
Proof.
  revert repo_url commit_hash st.
  induction fuel as [|fuel IH]; intros repo_url commit_hash st; simpl.
  { apply metered_refl. }
  destruct (Str.is_empty repo_url); [apply metered_refl|].
  case_bool_decide; [apply metered_refl|].
  assert (metered st (resolve_commit repo_url commit_hash
                        (mark_visited (repo_url, commit_hash) st)).2) as H1.
  { destruct (resolve_commit_queries repo_url commit_hash
                (mark_visited (repo_url, commit_hash) st)) as (es & Ht & Hv & Hq & Hu).
    exists (Visit (repo_url, commit_hash) :: es).
    split; [rewrite Ht; simpl; by rewrite <- (assoc_L (++))|].
    split; [|done]. unfold unset_visits. simpl. rewrite Hv.
    rewrite filter_cons, filter_nil. simpl.
    change (queries (Visit (repo_url, commit_hash) :: es)) with (queries es).
    destruct (unset commit_hash); simpl in *; lia. }
  destruct (resolve_commit _ _ _) as [[[commit|]|] st1]; simpl in *; try done.
  destruct (raw_requirements_url _ _) as [url|]; [|done].
  set (st2 := emit (FetchManifest (repo_url, commit_hash) url) st1).
  assert (metered st st2) as H2.
  { eapply metered_trans; [exact H1|by apply metered_emit]. }
  assert (∀ m st', metered st st' → metered st (sleep (print m st'))) as Hend.
  { intros m st' Hst'. eapply metered_trans; [exact Hst'|].
    eapply metered_trans; by apply metered_emit. }
  destruct (requests_get url) as [status_code text|]; [|by apply Hend].
  destruct (status_code =? 200)%Z; [|by apply Hend].
  destruct (process_lines_rule (metered st) (λ _, True)
              (process_requirements_from_repo fuel) repo_url
              (Str.splitlines text)) with (st := st2) as [_ Hlines];
    [done| | |done|].
  - intros l st' _ _ Hst'. eapply metered_trans; [exact Hst'|].
    apply metered_plain_line.
  - intros l u c st' _ _ Hst'. split; [done|].
    eapply metered_trans; [exact Hst'|apply IH].
  - destruct (process_lines _ _ _ _) as [[] st3]; simpl in *; [| |done].
    + eapply metered_trans; [exact Hlines|by apply metered_emit].
    + by apply Hend.
Qed.

Lemma process_repos_metered fuel repos st :
  metered st (process_repos fuel repos st).2.
Proof.
  revert st. induction repos as [|repo rest IH]; intros st; simpl.
  { apply metered_refl. }
  assert (∀ m, metered st (process_repos fuel rest (print m st)).2) as Hskip.
  { intros m. eapply metered_trans; [by apply (metered_emit (Print m))|apply IH]. }
  destruct repo as [| | | | |fields]; try apply metered_refl.
  destruct (default _ _) as [| | |commit| |]; try apply metered_refl.
  destruct (dict_get "repo" fields) as [[| | |url| |]|]; try apply Hskip.
  all: try (destruct (truthy _); [apply metered_refl|apply Hskip]).
  destruct (Str.is_empty url); [apply Hskip|].
  pose proof (process_requirements_metered fuel url (Some (Str.strip commit)) st) as H1.
  destruct (process_requirements_from_repo _ _ _ _) as [[] st1]; simpl in *;
    try done.
  eapply metered_trans; [exact H1|apply IH].
Qed.

(** X7. The hosting service's metadata API is asked at most once for each key
    visited without a commit, and never for a key that came with one: every
    query goes to [https://api.github.com/repos/], and a run whose visited keys
    all carry a commit makes none. *)
Theorem metadata_queried_only_for_unset_commits fuel json_file fs :
  let t := trace (final (consolidate_requirements fuel json_file fs)) in
  length (queries t) ≤ length (unset_visits t) ∧
  Forall (λ u, Str.startswith "https://api.github.com/repos/" u = true) (queries t) ∧
  (Forall (λ k, unset k.2 = false) (visits t) → queries t = []).
Proof.
  intros t.
  assert (length (queries t) ≤ length (unset_visits t) ∧
          Forall (λ u, Str.startswith "https://api.github.com/repos/" u = true)
                 (queries t)) as [Hle Hu].
  { subst t. unfold consolidate_requirements.
    destruct (load_repositories json_file fs) as [repos|]; simpl.
    2: { split; [done|by apply Forall_nil]. }
    destruct (process_repos_metered fuel repos initial_state) as (es & Ht & Hq & Hu).
    simpl in Ht.
    destruct (process_repos fuel repos initial_state) as [[] st]; simpl in *;
      rewrite Ht; try done.
    rewrite queries_app, unset_visits_app, !app_nil_r. done. }
  split; [done|]. split; [done|]. intros Hpinned.
  apply length_zero_iff_nil.
  assert (unset_visits t = []) as Hnone; [|rewrite Hnone in Hle; simpl in Hle; lia].
  unfold unset_visits. induction Hpinned as [|k ks Hk _ IH]; [done|].
  rewrite filter_cons, decide_False by (rewrite Hk; done). exact IH.
Qed.

(** X8. Only keys of the traversal graph are visited and fetched: a key of the
    input list, or a key a fetched manifest refers to. *)
Theorem visited_keys_are_reachable fuel json_file fs repos :
  load_repositories json_file fs = Some repos →
  let r := consolidate_requirements fuel json_file fs in
  (∀ k, k ∈ visited_repos (final r) → reachable repos k) ∧
  (∀ k, k ∈ fetches (trace (final r)) → reachable repos k).
Proof.
  intros Hload r.
  destruct (final_of_run fuel json_file fs repos Hload) as (Hv & _ & _ & _).
  fold r in Hv.
  assert (∀ k, k ∈ visited_repos (final r) → reachable repos k) as Hreach.
  { intros k. rewrite Hv.
    apply (process_repos_sound (reachable repos) fuel repos initial_state).
    - intros k1 k2. apply reachable_reference.
    - apply reachable_root.
    - intros k0 Hk0. simpl in Hk0. by apply elem_of_empty in Hk0. }
  split; [done|]. intros k Hk. apply Hreach.
  destruct (consolidate_requirements_consistent fuel json_file fs)
    as (_ & Hvis & _ & Hbefore & _).
  apply Hvis. by apply fetches_in_visits.
Qed.

(** X9. A run touches no file but [requirements.txt]. *)
Theorem only_the_manifest_is_written fuel json_file fs f :
  f ≠ "requirements.txt" →
  files (consolidate_requirements fuel json_file fs) !! f = fs !! f.
Proof.
  intros Hf. unfold consolidate_requirements.
  destruct (load_repositories json_file fs) as [repos|]; [|done].
  destruct (process_repos fuel repos initial_state) as [[] st]; simpl; try done.
  by rewrite lookup_insert_ne.
Qed.

(** X10. The manifest has one line for each distinct lowercased name among the
    recorded requirements. *)
Theorem one_line_per_package fuel json_file fs :
  let r := consolidate_requirements fuel json_file fs in
  let lines := Str.sorted (consolidated_requirements (dependency_dict (final r))) in
  length lines =
  length (remove_dups ((λ e, Str.lower e.1) <$> recorded (final r))).
Proof.
  intros r lines. subst lines.
  destruct (sorted_requirements (dependency_dict (final r))) as (_ & Hperm & _).
  rewrite Hperm. unfold consolidated_requirements.
  rewrite length_fmap, length_map_to_list, <- size_dom.
  rewrite <- (size_list_to_set (C := gset string)) by apply NoDup_remove_dups.
  f_equal. apply set_eq. intros name.
  rewrite elem_of_dom, elem_of_list_to_set, elem_of_remove_dups, list_elem_of_fmap.
  destruct (consolidate_requirements_consistent fuel json_file fs)
    as (_ & _ & _ & _ & Hdict).
  fold r in Hdict. rewrite Hdict, merge_all_is_Some. split.
  - intros (name' & S' & Hin & Hn). by exists (name', S').
  - intros ([name' S'] & Hn & Hin). by exists name', S'.
Qed.

(** A clause of a merged set is written as one of the merged sets writes
    it. *)
Lemma union_list_lookup (l : list SpecifierSet) c t :
  (⋃ l) !! c = Some t → ∃ S, S ∈ l ∧ S !! c = Some t.
Proof.
  induction l as [|s l IH]; simpl.
  - by rewrite lookup_empty.
  - intros [Hs|[_ Hl]]%lookup_union_Some_raw.
    + exists s. split; [apply list_elem_of_here|done].
    + destruct (IH Hl) as (S & HS & Hc). exists S.
      split; [by apply list_elem_of_further|done].
Qed.

(** Two sets whose [&] is the same in either order write the clauses they
    share alike. *)
Lemma specifier_and_alike (a b : SpecifierSet) c t1 t2 :
  specifier_and a b = specifier_and b a →
  a !! c = Some t1 → b !! c = Some t2 → t1 = t2.
Proof.
  unfold specifier_and. intros Hab Ha Hb.
  assert ((a ∪ b) !! c = Some t1) as H1.
  { apply lookup_union_Some_raw. by left. }
  assert ((b ∪ a) !! c = Some t2) as H2.
  { apply lookup_union_Some_raw. by left. }
  rewrite Hab in H1. congruence.
Qed.

Lemma union_list_lookup_alike (l : list SpecifierSet) S c t :
  (∀ S1 S2, S1 ∈ l → S2 ∈ l → specifier_and S1 S2 = specifier_and S2 S1) →
  S ∈ l → S !! c = Some t → (⋃ l) !! c = Some t.
Proof.
  intros Hcomm HS Hc.
  destruct ((⋃ l) !! c) as [t'|] eqn:E.
  - apply union_list_lookup in E as (S' & HS' & Hc').
    f_equal. apply (specifier_and_alike S' S c); auto.
  - exfalso. clear Hcomm. induction l as [|s l IH]; [by apply elem_of_nil in HS|].
    simpl in E. apply lookup_union_None in E as [Hs Hl].
    apply elem_of_cons in HS as [->|HS]; [congruence|auto].
Qed.

(** Merged sets whose [&] does not depend on the order: the merge depends
    only on which sets are merged. *)
Lemma union_list_same_elements (l1 l2 : list SpecifierSet) :
  (∀ S, S ∈ l1 ↔ S ∈ l2) →
  (∀ S1 S2, S1 ∈ l1 → S2 ∈ l1 → specifier_and S1 S2 = specifier_and S2 S1) →
  ⋃ l1 = ⋃ l2.
Proof.
  intros Hsame Hcomm.
  assert (∀ S1 S2, S1 ∈ l2 → S2 ∈ l2 →
                   specifier_and S1 S2 = specifier_and S2 S1) as Hcomm'.
  { intros S1 S2 H1 H2. apply Hcomm; by apply Hsame. }
  apply map_eq. intros c.
  destruct ((⋃ l1) !! c) as [t|] eqn:E1.
  - apply union_list_lookup in E1 as (S & HS & Hc). symmetry.
    apply (union_list_lookup_alike l2 S); [done| |done]. by apply Hsame.
  - destruct ((⋃ l2) !! c) as [t|] eqn:E2; [|done].
    apply union_list_lookup in E2 as (S & HS & Hc).
    rewrite (union_list_lookup_alike l1 S c t) in E1; [done|done| |done].
    by apply Hsame.
Qed.

Lemma merge_all_same_elements (l1 l2 : list (string * SpecifierSet)) :
  (∀ e, e ∈ l1 ↔ e ∈ l2) →
  (∀ S1 S2, S1 ∈ l1.*2 → S2 ∈ l1.*2 →
            specifier_and S1 S2 = specifier_and S2 S1) →
  merge_all l1 ∅ = merge_all l2 ∅.
Proof.
  intros Hsame Hcomm. apply map_eq. intros n. rewrite !merge_all_lookup.
  set (es1 := filter (λ e, Str.lower e.1 = n) l1).
  set (es2 := filter (λ e, Str.lower e.1 = n) l2).
  assert (∀ e, e ∈ es1 ↔ e ∈ es2) as Hes.
  { intros e. unfold es1, es2. rewrite !list_elem_of_filter, Hsame. tauto. }
  assert (⋃ es1.*2 = ⋃ es2.*2) as Hunion.
  { apply union_list_same_elements.
    - intros S. rewrite !list_elem_of_fmap. split; intros (e & -> & He);
        exists e; (split; [done|]); by apply Hes.
    - intros S1 S2 H1 H2. apply Hcomm.
      + apply list_elem_of_fmap in H1 as (e & -> & [_ He]%list_elem_of_filter).
        apply list_elem_of_fmap. by exists e.
      + apply list_elem_of_fmap in H2 as (e & -> & [_ He]%list_elem_of_filter).
        apply list_elem_of_fmap. by exists e. }
  destruct es1 as [|e1 es1'] eqn:E1, es2 as [|e2 es2'] eqn:E2.
  - done.
  - exfalso. apply (elem_of_nil e2), Hes, list_elem_of_here.
  - exfalso. apply (elem_of_nil e1), Hes, list_elem_of_here.
  - by rewrite Hunion.
Qed.

(** X11. The clauses of [dependency_dict] depend only on which requirements
    were recorded, not on how often or in what order; and where the recorded
    specifiers merge alike in either order, so do the entries themselves and
    the manifest written. *)
Theorem repeated_requirements_change_nothing
    fuel1 json_file1 fs1 fuel2 json_file2 fs2 :
  let r1 := consolidate_requirements fuel1 json_file1 fs1 in
  let r2 := consolidate_requirements fuel2 json_file2 fs2 in
  (∀ e, e ∈ recorded (final r1) ↔ e ∈ recorded (final r2)) →
  same_constraints (dependency_dict (final r1)) (dependency_dict (final r2)) ∧
  ((∀ S1 S2, S1 ∈ (recorded (final r1)).*2 → S2 ∈ (recorded (final r1)).*2 →
             specifier_and S1 S2 = specifier_and S2 S1) →
   dependency_dict (final r1) = dependency_dict (final r2) ∧
   manifest_text (dependency_dict (final r1)) =
   manifest_text (dependency_dict (final r2))).
Proof.
  intros r1 r2 Hsame.
  destruct (consolidate_requirements_consistent fuel1 json_file1 fs1)
    as (_ & _ & _ & _ & H1).
  destruct (consolidate_requirements_consistent fuel2 json_file2 fs2)
    as (_ & _ & _ & _ & H2).
  fold r1 in H1. fold r2 in H2. rewrite H1, H2. split.
  - by apply merge_all_same_constraints.
  - intros Hcomm.
    assert (merge_all (recorded (final r1)) ∅ = merge_all (recorded (final r2)) ∅)
      as Hdict by by apply merge_all_same_elements.
    split; [done|]. by rewrite Hdict.
Qed.

(** X12. A repository whose manifest cannot be had (a status other than 200,
    or an exception of the request) is marked visited, reported and slept
    for, and contributes nothing: the call returns with the three
    containers as they were, the new key apart. *)
Theorem failed_fetch_contributes_nothing
    fuel repo_url commit_hash st commit url m :
  Str.is_empty repo_url = false →
  (repo_url, commit_hash) ∉ visited_repos st →
  resolved_commit (repo_url, commit_hash) = Value (Some commit) →
  raw_requirements_url repo_url commit = Some url →
  fetch_failure repo_url commit url = Some m →
  let key := (repo_url, commit_hash) in
  let r := process_requirements_from_repo (S fuel) repo_url commit_hash st in
  r.1 = Returned ∧
  dependency_dict r.2 = dependency_dict st ∧
  url_requirements r.2 = url_requirements st ∧
  recorded r.2 = recorded st ∧
  visited_repos r.2 = {[key]} ∪ visited_repos st ∧
  ∃ es, Forall quiet es ∧
        trace r.2 =
          trace st ++ [Visit key] ++ es ++ [FetchManifest key url; Print m; Sleep].
Proof.
  intros Hurl Hnew Hres Hraw Hfail key r. subst r. simpl.
  rewrite Hurl, bool_decide_eq_false_2 by done. fold key.
  pose proof (resolve_commit_value repo_url commit_hash initial_state
                (mark_visited key st)) as Hval.
  unfold resolved_commit in Hres. simpl in Hres. rewrite Hres in Hval.
  destruct (resolve_commit_quiet repo_url commit_hash (mark_visited key st))
    as (es & Hes & Hst).
  destruct (resolve_commit repo_url commit_hash (mark_visited key st))
    as [v st1]. simpl in *. subst v st1. rewrite Hraw.
  unfold fetch_failure in Hfail.
  assert (∀ st', (Returned, sleep (print m st')).1 = Returned) as _ by done.
  destruct (requests_get url) as [status_code text|].
  - destruct (status_code =? 200)%Z; [done|]. injection Hfail as <-. simpl.
    repeat split. exists es. split; [done|]. by rewrite <- !(assoc_L (++)).
  - injection Hfail as <-. simpl.
    repeat split. exists es. split; [done|]. by rewrite <- !(assoc_L (++)).
Qed.

Lemma process_lines_plain recurse repo_url before more st :
  Forall (λ x, line_reference x = None) before →
  process_lines recurse repo_url (before ++ more) st =
  process_lines recurse repo_url more
    (foldl (λ st x, plain_line repo_url x st) st before).
Proof.
  intros Hplain. revert st.
  induction Hplain as [|x before Hx _ IH]; intros st; [done|].
  simpl. rewrite process_line_unfold, Hx. apply IH.
Qed.

Lemma plain_lines_recorded repo_url before st :
  recorded (foldl (λ st x, plain_line repo_url x st) st before) =
  recorded st ++ omap line_requirement before.
Proof.
  revert st. induction before as [|x before IH]; intros st; simpl.
  { by rewrite app_nil_r. }
  rewrite IH, plain_line_recorded, <- (assoc_L (++)). f_equal.
  by destruct (line_requirement x).
Qed.

Lemma plain_lines_visited repo_url before st :
  visited_repos (foldl (λ st x, plain_line repo_url x st) st before) =
  visited_repos st.
Proof.
  revert st. induction before as [|x before IH]; intros st; simpl; [done|].
  by rewrite IH, plain_line_visited.
Qed.

(** X13. When the URL library raises for a repository a manifest line refers
    to, the loop over that manifest ends there with the exception: the lines
    before it are recorded, the lines after it are never read. *)
Theorem failing_reference_ends_manifest
    fuel repo_url before l rest st u c :
  Forall (λ x, line_reference x = None) before →
  line_reference l = Some (u, c) →
  (u, c) ∉ visited_repos st →
  (resolved_commit (u, c) = Raise ∨
   ∃ commit, resolved_commit (u, c) = Value (Some commit) ∧
             raw_requirements_url u commit = None) →
  let r := process_lines (process_requirements_from_repo (S fuel)) repo_url
             (before ++ l :: rest) st in
  r.1 = Raised ∧
  recorded r.2 = recorded st ++ omap line_requirement before ∧
  visited_repos r.2 = {[(u, c)]} ∪ visited_repos st.
Proof.
  intros Hbefore Hl Hnew Hraise r. subst r.
  rewrite (process_lines_plain _ _ _ _ _ Hbefore).
  set (st0 := foldl _ st before).
  assert (recorded st0 = recorded st ++ omap line_requirement before) as Hrec
    by apply plain_lines_recorded.
  assert (visited_repos st0 = visited_repos st) as Hvis
    by apply plain_lines_visited.
  rewrite <- Hrec, <- Hvis. rewrite <- Hvis in Hnew. clearbody st0.
  cbn [process_lines]. rewrite process_line_unfold, Hl.
  cbn [process_requirements_from_repo].
  rewrite (line_reference_url _ _ _ Hl), bool_decide_eq_false_2 by done.
  pose proof (resolve_commit_value u c initial_state (mark_visited (u, c) st0))
    as Hval.
  destruct (resolve_commit_quiet u c (mark_visited (u, c) st0))
    as (es & Hes & Hst).
  unfold resolved_commit in Hraise. simpl in Hraise.
  destruct (resolve_commit u c (mark_visited (u, c) st0)) as [v st1].
  simpl in *. subst st1.
  destruct Hraise as [Hraise|(commit & Hraise & Hraw)];
    rewrite Hraise in Hval; subst v; [done|].
  by rewrite Hraw.
Qed.


(** X14. A [commit] that is not a string ([null], say) is fatal when its
    entry is reached, whether or not the entry has a [repo]: the run exits
    with status 1, prints nothing for it and writes no manifest, whatever the
    entries before it contributed. *)
Theorem non_string_commit_is_fatal
    fuel json_file fs before fields rest v st :
  load_repositories json_file fs = Some (before ++ JObject fields :: rest) →
  process_repos fuel before initial_state = (Returned, st) →
  dict_get "commit" fields = Some v →
  (∀ s, v ≠ JString s) →
  consolidate_requirements fuel json_file fs = mkRun (Some 1%Z) fs st.
Proof.
  intros Hload Hbefore Hcommit Hv. unfold consolidate_requirements.
  rewrite Hload, process_repos_app, Hbefore.
  cbn [process_repos]. rewrite Hcommit. simpl.
  destruct v as [| | |s| |]; try done. by destruct (Hv s).
Qed.

(** X15. When the metadata query succeeds but [default_branch] is [null] (or
    false, zero or empty), the repository is skipped: it is marked visited and
    reported, and no manifest is requested. *)
Theorem false_default_branch_is_skipped
    fuel repo_url commit_hash st path owner repo_name rest text repo_info branch :
  Str.is_empty repo_url = false →
  (repo_url, commit_hash) ∉ visited_repos st →
  unset commit_hash = true →
  urlparse_path repo_url = Some path →
  Str.split "/" (Str.strip_char "/" path) = owner :: repo_name :: rest →
  let api_url := "https://api.github.com/repos/" +:+ owner +:+ "/" +:+ repo_name in
  requests_get api_url = HttpResponse 200 text →
  json_loads text = Some (JObject repo_info) →
  dict_get "default_branch" repo_info = Some branch →
  truthy branch = false →
  process_requirements_from_repo (S fuel) repo_url commit_hash st =
    (Returned,
     print (SkippingRepository repo_url)
       (emit (QueryApi api_url) (mark_visited (repo_url, commit_hash) st))).
Proof.
  intros Hurl Hnew Hunset Hpath Hparts api_url Hget Hjson Hbranch Hfalse.
  cbn [process_requirements_from_repo].
  rewrite Hurl, bool_decide_eq_false_2 by done.
  unfold resolve_commit, default_branch_or_skip, get_default_branch.
  rewrite Hunset, Hpath, Hparts. fold api_url.
  rewrite Hget. simpl. rewrite Hjson, Hbranch, Hfalse. done.
Qed.

End Traversal_facts.

(** ** Runs in the two worlds *)

Section Further_runs.
#[local] Existing Instance World.packaging.
#[local] Existing Instance World.urllib.
#[local] Existing Instance World.network.
#[local] Existing Instance World.json_lib.

Ltac evaluate :=
  first [ apply (bool_decide_unpack _); vm_compute; exact I
        | vm_compute; repeat split; reflexivity
        | by vm_compute ].

(** The two repositories that refer to each other: two manifest requests,
    two sleeps. *)
Lemma one_sleep_per_manifest_request_witness :
  let r := consolidate_requirements 3 "repos.json"
             (World.input (JArray [World.repository "https://github.com/c/x" "main"])) in
  exit_status r ≠ None ∧
  length (fetches (trace (final r))) = 2 ∧
  sleeps (trace (final r)) = length (fetches (trace (final r))).
Proof.
  intros r. split; [evaluate|]. split; [evaluate|].
  apply (one_sleep_per_manifest_request 3 "repos.json"). evaluate.
Defined.

Lemma visited_keys_are_reachable_witness :
  let repos := [World.repository "https://github.com/c/x" "main"] in
  let fs := World.input (JArray repos) in
  let r := consolidate_requirements 3 "repos.json" fs in
  load_repositories "repos.json" fs = Some repos ∧
  (∀ k, k ∈ visited_repos (final r) → reachable repos k) ∧
  (∀ k, k ∈ fetches (trace (final r)) → reachable repos k).
Proof.
  intros repos fs r. split; [evaluate|].
  apply (visited_keys_are_reachable 3 "repos.json" fs repos). evaluate.
Defined.

(** The input file is still there after the run. *)
Lemma only_the_manifest_is_written_witness :
  let fs := World.input (JArray [World.repository "https://github.com/a/b" "main"]) in
  "repos.json" ≠ "requirements.txt" ∧
  files (consolidate_requirements 3 "repos.json" fs) !! "repos.json"
    = fs !! "repos.json".
Proof.
  intros fs. split; [done|].
  by apply (only_the_manifest_is_written 3 "repos.json" fs "repos.json").
Defined.

(** [a/b] listed twice, under two keys, against [a/b] listed once: the
    manifest is read twice, and the result is the same. *)
Lemma repeated_requirements_change_nothing_witness :
  let twice := World.input (JArray [World.repository "https://github.com/a/b" "";
                                    World.repository "https://github.com/a/b" "main"]) in
  let once := World.input (JArray [World.repository "https://github.com/a/b" "main"]) in
  let r1 := consolidate_requirements 3 "repos.json" twice in
  let r2 := consolidate_requirements 3 "repos.json" once in
  recorded (final r1) = recorded (final r2) ++ recorded (final r2) ∧
  length (recorded (final r2)) = 2 ∧
  same_constraints (dependency_dict (final r1)) (dependency_dict (final r2)) ∧
  dependency_dict (final r1) = dependency_dict (final r2) ∧
  manifest_text (dependency_dict (final r1)) =
  manifest_text (dependency_dict (final r2)).
Proof.
  intros twice once r1 r2.
  assert (recorded (final r1) = recorded (final r2) ++ recorded (final r2)) as Hrec
    by evaluate.
  split; [done|]. split; [evaluate|].
  destruct (repeated_requirements_change_nothing
              3 "repos.json" twice 3 "repos.json" once) as [Hclauses Hdict].
  { intros e. fold r1 r2. rewrite Hrec, elem_of_app. tauto. }
  split; [done|]. apply Hdict. fold r1.
  assert (Forall (λ S1, Forall (λ S2, specifier_and S1 S2 = specifier_and S2 S1)
                               (recorded (final r1)).*2)
                 (recorded (final r1)).*2) as Hall by evaluate.
  intros S1 S2 HS1 HS2.
  by apply (proj1 (Forall_forall _ _) (proj1 (Forall_forall _ _) Hall S1 HS1)).
Defined.

(** [n/a] has no manifest: the request is answered 404. *)
Lemma failed_fetch_contributes_nothing_witness :
  let key : RepoKey := ("https://github.com/n/a", Some "main") in
  let url := "https://raw.githubusercontent.com/n/a/main/requirements.txt" in
  let st := record_requirement "foo" (World.specifiers ">=1.0") initial_state in
  let r := process_requirements_from_repo 1 key.1 key.2 st in
  fetch_failure key.1 "main" url = Some (NoRequirementsFound key.1 "main" 404) ∧
  r.1 = Returned ∧
  dependency_dict r.2 = dependency_dict st ∧
  url_requirements r.2 = url_requirements st ∧
  recorded r.2 = recorded st ∧
  visited_repos r.2 = {[key]} ∪ visited_repos st ∧
  ∃ es, Forall quiet es ∧
        trace r.2 =
          trace st ++ [Visit key] ++ es ++
          [FetchManifest key url;
           Print (NoRequirementsFound key.1 "main" 404); Sleep].
Proof.
  intros key url st r. split; [evaluate|].
  apply (failed_fetch_contributes_nothing 0 key.1 key.2 st "main" url);
    evaluate.
Defined.

(** [git+https://github.com/a/b.git@v1#egg=pkg] and
    [git+https://github.com/a/b@v1#egg=pkg]. *)
Lemma parse_git_requirement_pinned_witness :
  let h := "github.com/a/b" in
  let rev := "v1" in
  let tail := "#egg=pkg" in
  without "@" h = true ∧ without "#" rev = true ∧
  parse_git_requirement ("git+https://" +:+ h +:+ ".git" +:+ "@" +:+ rev +:+ tail)
    = (Some ("https://" +:+ h), Some rev) ∧
  (Str.is_empty h = false → Str.endswith ".git" h = false →
   parse_git_requirement ("git+https://" +:+ h +:+ "@" +:+ rev +:+ tail)
     = (Some ("https://" +:+ h), Some rev)).
Proof.
  intros h rev tail. split; [done|]. split; [done|].
  apply (parse_git_requirement_pinned h rev tail); [done|done|done|].
  right. by eexists.
Defined.

(** [git+https://github.com/a/b#egg=pkg]: the annotation ends up in the URL. *)
Lemma parse_git_requirement_unpinned_witness :
  parse_git_requirement ("git+https://" +:+ "github.com/a/b#egg=pkg")
    = (Some ("https://" +:+ "github.com/a/b#egg=pkg"), None).
Proof. by apply (parse_git_requirement_unpinned "github.com/a/b#egg=pkg"). Defined.

Lemma parse_git_requirement_result_witness :
  let req_line := "git+https://github.com/a/b.git@v1" in
  parse_git_requirement req_line = (Some "https://github.com/a/b", Some "v1") ∧
  (Some "https://github.com/a/b" = None → Some "v1" = None) ∧
  (∀ url, Some "https://github.com/a/b" = Some url →
     Str.startswith "git+https://" req_line = true ∧
     Str.startswith "https://" url = true ∧
     Str.is_empty url = false ∧
     (unset (Some "v1") = true ↔ Some "v1" = None) ∧
     ∀ rev, Some "v1" = Some rev → without "#" rev = true).
Proof.
  intros req_line. split; [done|].
  by apply (parse_git_requirement_result req_line).
Defined.

End Further_runs.

Section Edge_runs.
#[local] Existing Instance World.packaging.
#[local] Existing Instance Edge.urllib.
#[local] Existing Instance Edge.network.
#[local] Existing Instance Edge.json_lib.

Ltac evaluate :=
  first [ apply (bool_decide_unpack _); vm_compute; exact I
        | vm_compute; repeat split; reflexivity
        | by vm_compute ].

(** The manifest of [e/bad]: [foo>=1.0], a reference to a host the URL
    library refuses, [bar==2.0].  The run records [foo] alone, reports the
    failure as one of fetching and ends with status 0. *)
Lemma failing_reference_ends_manifest_witness :
  let bad : RepoKey := ("https://[bad", None) in
  let parent := "https://github.com/e/bad" in
  let r := process_lines (process_requirements_from_repo 1) parent
             (["foo>=1.0"] ++ "git+https://[bad" :: ["bar==2.0"]) initial_state in
  let run := consolidate_requirements 3 "repos.json"
               (World.input (JArray [World.repository parent "main"])) in
  manifest_of (parent, Some "main") = ["foo>=1.0"; "git+https://[bad"; "bar==2.0"] ∧
  line_reference "git+https://[bad" = Some bad ∧
  resolved_commit bad = Raise ∧
  (r.1 = Raised ∧
   recorded r.2 = recorded initial_state ++ omap line_requirement ["foo>=1.0"] ∧
   visited_repos r.2 = {[bad]} ∪ visited_repos initial_state) ∧
  exit_status run = Some 0%Z ∧
  recorded (final run) = [("foo", World.specifiers ">=1.0")] ∧
  Print (ErrorFetchingRequirements parent) ∈ trace (final run).
Proof.
  intros bad parent r run.
  split; [evaluate|]. split; [evaluate|]. split; [evaluate|].
  split.
  - apply (failing_reference_ends_manifest 0 parent ["foo>=1.0"]
             "git+https://[bad" ["bar==2.0"] initial_state "https://[bad" None).
    + apply Forall_singleton. evaluate.
    + evaluate.
    + apply not_elem_of_empty.
    + left. evaluate.
  - split; [evaluate|]. split; [evaluate|].
    assert (trace (final run) !! 3 = Some (Print (ErrorFetchingRequirements parent)))
      as Hat by evaluate.
    by apply list_elem_of_lookup_2 in Hat.
Defined.

(** The second entry has a [null] commit: the manifest of the first is read,
    and then the run ends with status 1 and writes nothing. *)
Lemma non_string_commit_is_fatal_witness :
  let first := World.repository "https://github.com/a/b" "main" in
  let fields := [("repo", JString "https://github.com/c/x"); ("commit", JNull)] in
  let fs := World.input (JArray [first; JObject fields]) in
  let st := (process_repos 3 [first] initial_state).2 in
  length (recorded st) = 2 ∧
  consolidate_requirements 3 "repos.json" fs = mkRun (Some 1%Z) fs st.
Proof.
  intros first fields fs st. split; [evaluate|].
  apply (non_string_commit_is_fatal 3 "repos.json" fs [first] fields [] JNull st).
  - evaluate.
  - rewrite (surjective_pairing (process_repos 3 [first] initial_state)).
    f_equal.
  - evaluate.
  - done.
Defined.

(** The hosting service answers 200 for [e/nobranch], with a [null] default
    branch. *)
Lemma false_default_branch_is_skipped_witness :
  let repo_url := "https://github.com/e/nobranch" in
  let api_url := "https://api.github.com/repos/e/nobranch" in
  let text := World.json_dumps (JObject [("default_branch", JNull)]) in
  requests_get api_url = HttpResponse 200 text ∧
  process_requirements_from_repo 1 repo_url None initial_state =
    (Returned,
     print (SkippingRepository repo_url)
       (emit (QueryApi api_url) (mark_visited (repo_url, None) initial_state))).
Proof.
  intros repo_url api_url text. split; [evaluate|].
  apply (false_default_branch_is_skipped 0 repo_url None initial_state
           "/e/nobranch" "e" "nobranch" []
           text [("default_branch", JNull)] JNull);
    evaluate.
Defined.

End Edge_runs.

(** ** [update_workflow] *)

Section Workflow_facts.
Context {A : Type}.
Implicit Types (items fields : list (string * PyValue A)) (workflow inputs x : PyValue A).

Lemma items_get_set key x items key' :
  items_get key' (items_set key x items) =
  if bool_decide (key' = key) then Some x else items_get key' items.
Proof.
  induction items as [|[k v] items IH]; simpl.
  - case_bool_decide as H1; case_bool_decide as H2; congruence.
  - destruct (bool_decide (k = key)) eqn:Hk; simpl.
    + apply bool_decide_eq_true in Hk as ->.
      case_bool_decide as H1; case_bool_decide as H2; congruence.
    + apply bool_decide_eq_false in Hk. rewrite IH.
      case_bool_decide as H1; case_bool_decide as H2; try done. congruence.
Qed.

Lemma items_set_same key x items :
  items_get key items = Some x → items_set key x items = items.
Proof.
  induction items as [|[k v] items IH]; simpl; [done|].
  case_bool_decide; [by intros [= ->]|]. intros H1. by rewrite IH.
Qed.

Lemma items_set_set key x y items :
  items_set key y (items_set key x items) = items_set key y items.
Proof.
  induction items as [|[k v] items IH]; simpl.
  - by rewrite bool_decide_eq_true_2.
  - case_bool_decide as Hk; simpl.
    + by rewrite bool_decide_eq_true_2.
    + by rewrite bool_decide_eq_false_2, IH.
Qed.

(** The parts of a workflow that has [workflow[node]["inputs"]]. *)
Lemma inputs_of_inv workflow node inputs :
  inputs_of workflow node = inr inputs →
  ∃ items fields, workflow = PyDict items ∧
                  items_get node items = Some (PyDict fields) ∧
                  items_get "inputs" fields = Some inputs.
Proof.
  unfold inputs_of, getitem.
  destruct workflow as [| |items]; try done.
  destruct (items_get node items) as [[| |fields]|] eqn:Hn; try done.
  destruct (items_get "inputs" fields) as [i|] eqn:Hi; [|done].
  intros [= <-]. by exists items, fields.
Qed.

Lemma with_inputs_same workflow node inputs :
  inputs_of workflow node = inr inputs →
  with_inputs workflow node inputs = workflow.
Proof.
  intros (items & fields & -> & Hn & Hi)%inputs_of_inv.
  unfold with_inputs. rewrite Hn, (items_set_same _ _ _ Hi).
  by rewrite (items_set_same _ _ _ Hn).
Qed.

Lemma with_inputs_twice workflow node inputs inputs1 inputs2 :
  inputs_of workflow node = inr inputs →
  with_inputs (with_inputs workflow node inputs1) node inputs2 =
  with_inputs workflow node inputs2.
Proof.
  intros (items & fields & -> & Hn & Hi)%inputs_of_inv.
  unfold with_inputs. rewrite Hn, items_get_set, bool_decide_eq_true_2 by done.
  by rewrite !items_set_set.
Qed.

Lemma getitem_with_inputs workflow node inputs inputs' node' :
  inputs_of workflow node = inr inputs →
  node' ≠ node →
  getitem (with_inputs workflow node inputs') node' = getitem workflow node'.
Proof.
  intros (items & fields & -> & Hn & Hi)%inputs_of_inv Hne.
  unfold with_inputs. rewrite Hn. simpl.
  by rewrite items_get_set, bool_decide_eq_false_2.
Qed.

Lemma node_item_with_inputs workflow node inputs inputs' node' key :
  inputs_of workflow node = inr inputs →
  node_item (with_inputs workflow node inputs') node' key =
  if bool_decide (node' = node ∧ key = "inputs") then inr inputs'
  else node_item workflow node' key.
Proof.
  intros Hin. destruct (decide (node' = node)) as [->|Hne].
  - destruct (inputs_of_inv _ _ _ Hin) as (items & fields & -> & Hn & Hi).
    unfold node_item, with_inputs. rewrite Hn. simpl.
    rewrite items_get_set, bool_decide_eq_true_2, Hn by done. simpl.
    rewrite items_get_set.
    destruct (decide (key = "inputs")) as [->|Hk].
    + by rewrite !bool_decide_eq_true_2.
    + rewrite bool_decide_eq_false_2 by done.
      by rewrite bool_decide_eq_false_2 by (by intros [_ ?]).
  - unfold node_item. rewrite (getitem_with_inputs _ _ _ _ _ Hin Hne).
    by rewrite bool_decide_eq_false_2 by (by intros [? _]).
Qed.

Lemma inputs_of_node_item workflow node :
  inputs_of workflow node = node_item workflow node "inputs".
Proof. done. Qed.

Lemma inputs_of_with_inputs workflow node inputs inputs' node' :
  inputs_of workflow node = inr inputs →
  inputs_of (with_inputs workflow node inputs') node' =
  if bool_decide (node' = node) then inr inputs' else inputs_of workflow node'.
Proof.
  intros Hin. rewrite !inputs_of_node_item, (node_item_with_inputs _ _ _ _ _ _ Hin).
  destruct (decide (node' = node)) as [->|Hne].
  - by rewrite !bool_decide_eq_true_2.
  - rewrite (bool_decide_eq_false_2 (node' = node)) by done.
    by rewrite bool_decide_eq_false_2 by (by intros [? _]).
Qed.

Lemma assign_inputs_returns kwargs node targets fields workflow :
  inputs_of workflow node = inr (PyDict fields) →
  assign_inputs kwargs node (PyDict fields) targets workflow =
  match fields_after kwargs targets fields with
  | Some fields' => (None, with_inputs workflow node (PyDict fields'))
  | None => assign_inputs kwargs node (PyDict fields) targets workflow
  end ∧
  (fields_after kwargs targets fields = None →
   (assign_inputs kwargs node (PyDict fields) targets workflow).1 ≠ None).
Proof.
  revert fields workflow.
  induction targets as [|[field arg] targets IH]; intros fields workflow Hin.
  - simpl. by rewrite with_inputs_same.
  - cbn [assign_inputs fields_after].
    destruct (kwargs !! arg) as [x|]; [|done]. cbn [setitem].
    destruct (IH (items_set field x fields)
                 (with_inputs workflow node (PyDict (items_set field x fields))))
      as [Hok Hfail].
    { by rewrite (inputs_of_with_inputs _ _ _ _ _ Hin), bool_decide_eq_true_2. }
    split; [|done].
    destruct (fields_after _ _ _) as [fields'|]; [|done].
    by rewrite Hok, (with_inputs_twice _ _ _ _ _ Hin).
Qed.

(** [assign] returns exactly on a node with an [inputs] dict and keywords
    that are all there. *)
Lemma assign_returns kwargs node field arg targets workflow workflow' :
  assign kwargs node ((field, arg) :: targets) workflow = (None, workflow') ↔
  ∃ fields fields',
    inputs_of workflow node = inr (PyDict fields) ∧
    fields_after kwargs ((field, arg) :: targets) fields = Some fields' ∧
    workflow' = with_inputs workflow node (PyDict fields').
Proof.
  unfold assign. split.
  - destruct (inputs_of workflow node) as [e|inputs] eqn:Hin; [done|].
    destruct inputs as [a|l|fields].
    1,2: simpl; by destruct (kwargs !! arg).
    destruct (assign_inputs_returns kwargs node ((field, arg) :: targets)
                fields workflow Hin) as [Hok Hfail].
    destruct (fields_after _ _ _) as [fields'|] eqn:Hafter.
    + rewrite Hok. intros [= <-]. by exists fields, fields'.
    + intros Hret. destruct Hfail; [done|]. by rewrite Hret.
  - intros (fields & fields' & Hin & Hafter & ->). rewrite Hin.
    destruct (assign_inputs_returns kwargs node ((field, arg) :: targets)
                fields workflow Hin) as [Hok _].
    by rewrite Hafter in Hok.
Qed.

Lemma seq_returns (s1 s2 : Stmt (A:=A)) workflow workflow1 :
  s1 workflow = (None, workflow1) → seq s1 s2 workflow = s2 workflow1.
Proof. unfold seq. by intros ->. Qed.

Lemma seq_inv (s1 s2 : Stmt (A:=A)) workflow workflow' :
  seq s1 s2 workflow = (None, workflow') →
  ∃ workflow1, s1 workflow = (None, workflow1) ∧ s2 workflow1 = (None, workflow').
Proof.
  unfold seq. destruct (s1 workflow) as [[e|] workflow1]; [done|].
  intros H. by exists workflow1.
Qed.

(** One successful [assign]: the inputs it leaves. *)
Lemma assign_effect kwargs node targets fields fields' workflow :
  inputs_of workflow node = inr (PyDict fields) →
  fields_after kwargs targets fields = Some fields' →
  let workflow' := with_inputs workflow node (PyDict fields') in
  assign kwargs node targets workflow = (None, workflow') ∧
  (∀ node', inputs_of workflow' node' =
            if bool_decide (node' = node) then inr (PyDict fields')
            else inputs_of workflow node') ∧
  (∀ node' key, key ≠ "inputs" →
                node_item workflow' node' key = node_item workflow node' key).
Proof.
  intros Hin Hafter workflow'. split; [|split].
  - unfold assign. rewrite Hin.
    destruct (assign_inputs_returns kwargs node targets fields workflow Hin)
      as [Hok _].
    by rewrite Hafter in Hok.
  - intros node'. apply (inputs_of_with_inputs _ _ _ _ _ Hin).
  - intros node' key Hkey. unfold workflow'.
    rewrite (node_item_with_inputs _ _ _ _ _ _ Hin).
    by rewrite bool_decide_eq_false_2 by (by intros [_ ?]).
Qed.

Ltac in_assigned :=
  unfold assigned;
  repeat first [apply list_elem_of_here | apply list_elem_of_further].

Ltac decide_nodes :=
  repeat first [rewrite bool_decide_eq_true_2 by done
               |rewrite bool_decide_eq_false_2 by done].

Lemma update_workflow_returns kwargs workflow f1 f2 f3 f4 f5 x1 x2 x3 x4 x5 x6 :
  inputs_of workflow "979" = inr (PyDict f1) →
  inputs_of workflow "980" = inr (PyDict f2) →
  inputs_of workflow "983" = inr (PyDict f3) →
  inputs_of workflow "991" = inr (PyDict f4) →
  inputs_of workflow "1261" = inr (PyDict f5) →
  kwargs !! "prompt" = Some x1 →
  kwargs !! "negative_prompt" = Some x2 →
  kwargs !! "seed" = Some x3 →
  kwargs !! "image_filename" = Some x4 →
  kwargs !! "crop_size" = Some x5 →
  kwargs !! "crop_margin" = Some x6 →
  let g1 := items_set "text" x1 f1 in
  let g2 := items_set "text" x2 f2 in
  let g3 := items_set "seed" x3 f3 in
  let g4 := items_set "image" x4 f4 in
  let g5 := items_set "crop_pos_margin" x6 (items_set "crop_size_margin" x5 f5) in
  let workflow' := replaced workflow g1 g2 g3 g4 g5 in
  update_workflow kwargs workflow = (None, workflow') ∧
  (∀ node, inputs_of workflow' node =
     if bool_decide (node = "1261") then inr (PyDict g5)
     else if bool_decide (node = "991") then inr (PyDict g4)
     else if bool_decide (node = "983") then inr (PyDict g3)
     else if bool_decide (node = "980") then inr (PyDict g2)
     else if bool_decide (node = "979") then inr (PyDict g1)
     else inputs_of workflow node) ∧
  (∀ node key, key ≠ "inputs" →
     node_item workflow' node key = node_item workflow node key).
Proof.
  intros H1 H2 H3 H4 H5 Hx1 Hx2 Hx3 Hx4 Hx5 Hx6 g1 g2 g3 g4 g5 workflow'.
  unfold replaced in workflow'.
  destruct (assign_effect kwargs "979" [("text", "prompt")] f1 g1 workflow H1)
    as (E1 & I1 & N1).
  { simpl. by rewrite Hx1. }
  set (w1 := with_inputs workflow "979" _) in *.
  destruct (assign_effect kwargs "980" [("text", "negative_prompt")] f2 g2 w1)
    as (E2 & I2 & N2).
  { rewrite I1. by decide_nodes. }
  { simpl. by rewrite Hx2. }
  set (w2 := with_inputs w1 "980" _) in *.
  destruct (assign_effect kwargs "983" [("seed", "seed")] f3 g3 w2)
    as (E3 & I3 & N3).
  { rewrite I2, I1. by decide_nodes. }
  { simpl. by rewrite Hx3. }
  set (w3 := with_inputs w2 "983" _) in *.
  destruct (assign_effect kwargs "991" [("image", "image_filename")] f4 g4 w3)
    as (E4 & I4 & N4).
  { rewrite I3, I2, I1. by decide_nodes. }
  { simpl. by rewrite Hx4. }
  set (w4 := with_inputs w3 "991" _) in *.
  destruct (assign_effect kwargs "1261"
              [("crop_size_margin", "crop_size"); ("crop_pos_margin", "crop_margin")]
              f5 g5 w4) as (E5 & I5 & N5).
  { rewrite I4, I3, I2, I1. by decide_nodes. }
  { simpl. by rewrite Hx5, Hx6. }
  split; [|split].
  - unfold update_workflow.
    rewrite (seq_returns _ _ _ _ E1), (seq_returns _ _ _ _ E2),
      (seq_returns _ _ _ _ E3), (seq_returns _ _ _ _ E4). exact E5.
  - intros node. unfold workflow'. by rewrite I5, I4, I3, I2, I1.
  - intros node key Hkey. unfold workflow'. by rewrite N5, N4, N3, N2, N1.
Qed.

(** X16. On a workflow that has the five nodes with their [inputs] dicts, and
    with the six keywords given, [update_workflow] returns, each of the six
    inputs holds its keyword's value afterwards, and nothing else of the
    workflow has changed. *)
Theorem update_workflow_sets_inputs kwargs workflow :
  (∀ node field arg, (node, field, arg) ∈ assigned → has_inputs workflow node) →
  (∀ node field arg, (node, field, arg) ∈ assigned → is_Some (kwargs !! arg)) →
  ∃ workflow',
    update_workflow kwargs workflow = (None, workflow') ∧
    (∀ node field arg, (node, field, arg) ∈ assigned →
       ∃ x, kwargs !! arg = Some x ∧ input workflow' node field = inr x) ∧
    (∀ node field, (∀ arg, (node, field, arg) ∉ assigned) →
       input workflow' node field = input workflow node field) ∧
    (∀ node key, key ≠ "inputs" →
       node_item workflow' node key = node_item workflow node key).
Proof.
  intros Hnodes Hargs.
  destruct (Hnodes "979" "text" "prompt") as [f1 H1]; [in_assigned|].
  destruct (Hnodes "980" "text" "negative_prompt") as [f2 H2]; [in_assigned|].
  destruct (Hnodes "983" "seed" "seed") as [f3 H3]; [in_assigned|].
  destruct (Hnodes "991" "image" "image_filename") as [f4 H4]; [in_assigned|].
  destruct (Hnodes "1261" "crop_size_margin" "crop_size") as [f5 H5]; [in_assigned|].
  destruct (Hargs "979" "text" "prompt") as [x1 Hx1]; [in_assigned|].
  destruct (Hargs "980" "text" "negative_prompt") as [x2 Hx2]; [in_assigned|].
  destruct (Hargs "983" "seed" "seed") as [x3 Hx3]; [in_assigned|].
  destruct (Hargs "991" "image" "image_filename") as [x4 Hx4]; [in_assigned|].
  destruct (Hargs "1261" "crop_size_margin" "crop_size") as [x5 Hx5]; [in_assigned|].
  destruct (Hargs "1261" "crop_pos_margin" "crop_margin") as [x6 Hx6]; [in_assigned|].
  destruct (update_workflow_returns kwargs workflow f1 f2 f3 f4 f5
              x1 x2 x3 x4 x5 x6) as (Hret & Hinputs & Hitems); try done.
  eexists. split; [exact Hret|]. split; [|split; [|exact Hitems]].
  - intros node field arg Hin. unfold assigned in Hin.
    repeat (apply elem_of_cons in Hin as [[= -> -> ->]|Hin]);
      [..|by apply elem_of_nil in Hin];
      eexists; (split; [eassumption|]);
      unfold input; rewrite Hinputs; decide_nodes; simpl;
      rewrite ?items_get_set; by decide_nodes.
  - intros node field Hfree.
    assert (∀ n f a, (n, f, a) ∈ assigned → node = n → field ≠ f) as Hne.
    { intros n f a Hin -> ->. by apply (Hfree a). }
    unfold input. rewrite Hinputs.
    repeat case_bool_decide; subst; simpl; [| | | | |done].
    + rewrite !items_get_set, H5.
      rewrite !bool_decide_eq_false_2; [done|..].
      * eapply (Hne "1261" _ "crop_size"); [in_assigned|done].
      * eapply (Hne "1261" _ "crop_margin"); [in_assigned|done].
    + rewrite !items_get_set, H4.
      rewrite !bool_decide_eq_false_2; [done|].
      eapply (Hne "991" _ "image_filename"); [in_assigned|done].
    + rewrite !items_get_set, H3.
      rewrite !bool_decide_eq_false_2; [done|].
      eapply (Hne "983" _ "seed"); [in_assigned|done].
    + rewrite !items_get_set, H2.
      rewrite !bool_decide_eq_false_2; [done|].
      eapply (Hne "980" _ "negative_prompt"); [in_assigned|done].
    + rewrite !items_get_set, H1.
      rewrite !bool_decide_eq_false_2; [done|].
      eapply (Hne "979" _ "prompt"); [in_assigned|done].
Qed.

(** A successful run, taken apart. *)
Lemma update_workflow_inv kwargs workflow workflow' :
  update_workflow kwargs workflow = (None, workflow') →
  ∃ f1 f2 f3 f4 f5 x1 x2 x3 x4 x5 x6,
    inputs_of workflow "979" = inr (PyDict f1) ∧
    inputs_of workflow "980" = inr (PyDict f2) ∧
    inputs_of workflow "983" = inr (PyDict f3) ∧
    inputs_of workflow "991" = inr (PyDict f4) ∧
    inputs_of workflow "1261" = inr (PyDict f5) ∧
    kwargs !! "prompt" = Some x1 ∧
    kwargs !! "negative_prompt" = Some x2 ∧
    kwargs !! "seed" = Some x3 ∧
    kwargs !! "image_filename" = Some x4 ∧
    kwargs !! "crop_size" = Some x5 ∧
    kwargs !! "crop_margin" = Some x6.
Proof.
  unfold update_workflow.
  intros (w1 & (f1 & g1 & H1 & A1 & ->)%assign_returns &
          (w2 & (f2 & g2 & H2 & A2 & ->)%assign_returns &
          (w3 & (f3 & g3 & H3 & A3 & ->)%assign_returns &
          (w4 & (f4 & g4 & H4 & A4 & ->)%assign_returns &
          (f5 & g5 & H5 & A5 & ->)%assign_returns)%seq_inv)%seq_inv)%seq_inv)%seq_inv.
  rewrite (inputs_of_with_inputs _ _ _ _ _ H4) in H5.
  rewrite (inputs_of_with_inputs _ _ _ _ _ H3) in H5.
  rewrite (inputs_of_with_inputs _ _ _ _ _ H3) in H4.
  rewrite (inputs_of_with_inputs _ _ _ _ _ H2) in H5.
  rewrite (inputs_of_with_inputs _ _ _ _ _ H2) in H4.
  rewrite (inputs_of_with_inputs _ _ _ _ _ H2) in H3.
  rewrite (inputs_of_with_inputs _ _ _ _ _ H1) in H5.
  rewrite (inputs_of_with_inputs _ _ _ _ _ H1) in H4.
  rewrite (inputs_of_with_inputs _ _ _ _ _ H1) in H3.
  rewrite (inputs_of_with_inputs _ _ _ _ _ H1) in H2.
  rewrite !bool_decide_eq_false_2 in H2, H3, H4, H5 by done.
  simpl in A1, A2, A3, A4, A5.
  destruct (kwargs !! "prompt") as [x1|]; [|done].
  destruct (kwargs !! "negative_prompt") as [x2|]; [|done].
  destruct (kwargs !! "seed") as [x3|]; [|done].
  destruct (kwargs !! "image_filename") as [x4|]; [|done].
  destruct (kwargs !! "crop_size") as [x5|]; [|done].
  destruct (kwargs !! "crop_margin") as [x6|]; [|done].
  by exists f1, f2, f3, f4, f5, x1, x2, x3, x4, x5, x6.
Qed.

(** X17. [update_workflow] is idempotent: run again with the same keywords on
    the workflow it left, it returns and leaves the workflow as it is. *)
Theorem update_workflow_idempotent kwargs workflow workflow' :
  update_workflow kwargs workflow = (None, workflow') →
  update_workflow kwargs workflow' = (None, workflow').
Proof.
  intros Hret.
  destruct (update_workflow_inv _ _ _ Hret)
    as (f1 & f2 & f3 & f4 & f5 & x1 & x2 & x3 & x4 & x5 & x6 &
        H1 & H2 & H3 & H4 & H5 & Hx1 & Hx2 & Hx3 & Hx4 & Hx5 & Hx6).
  destruct (update_workflow_returns kwargs workflow f1 f2 f3 f4 f5
              x1 x2 x3 x4 x5 x6) as (Hret' & Hinputs & _); try done.
  rewrite Hret in Hret'. injection Hret' as Hw.
  rewrite <- Hw in Hinputs.
  destruct (update_workflow_returns kwargs workflow' _ _ _ _ _
              x1 x2 x3 x4 x5 x6
              (Hinputs "979") (Hinputs "980") (Hinputs "983") (Hinputs "991")
              (Hinputs "1261")) as (Hagain & _ & _); try done.
  rewrite Hagain. f_equal. unfold replaced.
  rewrite !items_set_set.
  rewrite (items_set_same "crop_size_margin" x5).
  2: { rewrite !items_get_set. by decide_nodes. }
  rewrite !items_set_set.
  rewrite (with_inputs_same workflow' "979") by apply (Hinputs "979").
  rewrite (with_inputs_same workflow' "980") by apply (Hinputs "980").
  rewrite (with_inputs_same workflow' "983") by apply (Hinputs "983").
  rewrite (with_inputs_same workflow' "991") by apply (Hinputs "991").
  by rewrite (with_inputs_same workflow' "1261") by apply (Hinputs "1261").
Qed.

(** X18. When node [980] is missing, [update_workflow] raises [KeyError] after
    it has already overwritten the positive prompt: the workflow is left
    half updated. *)
Theorem update_workflow_stops_half_way kwargs workflow x :
  has_inputs workflow "979" →
  kwargs !! "prompt" = Some x →
  getitem workflow "980" = inl (KeyError "980") →
  ∃ workflow',
    update_workflow kwargs workflow = (Some (KeyError "980"), workflow') ∧
    input workflow' "979" "text" = inr x.
Proof.
  intros [f1 H1] Hx Hmissing.
  destruct (assign_effect kwargs "979" [("text", "prompt")] f1
              (items_set "text" x f1) workflow H1) as (E1 & I1 & _).
  { simpl. by rewrite Hx. }
  set (w1 := with_inputs workflow "979" _) in *.
  exists w1. split.
  - unfold update_workflow. rewrite (seq_returns _ _ _ _ E1).
    unfold seq, assign, inputs_of.
    unfold w1. rewrite (getitem_with_inputs _ _ _ _ _ H1) by done.
    by rewrite Hmissing.
  - unfold input. rewrite I1. decide_nodes. simpl.
    rewrite items_get_set. by decide_nodes.
Qed.

End Workflow_facts.
(** ** [update_workflow] on a sample *)

Lemma sample_has_inputs node field arg :
  (node, field, arg) ∈ assigned → has_inputs Sample.workflow node.
Proof.
  unfold assigned. intros Hin.
  repeat (apply elem_of_cons in Hin as [[= -> -> ->]|Hin]);
    [..|by apply elem_of_nil in Hin]; by eexists.
Qed.

Lemma sample_keywords_given node field arg :
  (node, field, arg) ∈ assigned → is_Some (Sample.kwargs !! arg).
Proof.
  unfold assigned. intros Hin.
  repeat (apply elem_of_cons in Hin as [[= -> -> ->]|Hin]);
    [..|by apply elem_of_nil in Hin]; by eexists.
Qed.

Lemma update_workflow_sets_inputs_witness :
  ∃ workflow',
    update_workflow Sample.kwargs Sample.workflow = (None, workflow') ∧
    (∀ node field arg, (node, field, arg) ∈ assigned →
       ∃ x, Sample.kwargs !! arg = Some x ∧ input workflow' node field = inr x) ∧
    (∀ node field, (∀ arg, (node, field, arg) ∉ assigned) →
       input workflow' node field = input Sample.workflow node field) ∧
    (∀ node key, key ≠ "inputs" →
       node_item workflow' node key = node_item Sample.workflow node key).
Proof.
  apply (update_workflow_sets_inputs Sample.kwargs Sample.workflow).
  - apply sample_has_inputs.
  - apply sample_keywords_given.
Defined.

Lemma update_workflow_idempotent_witness :
  let workflow' := (update_workflow Sample.kwargs Sample.workflow).2 in
  input workflow' "991" "image" = inr (Atom "image.png") ∧
  update_workflow Sample.kwargs workflow' = (None, workflow').
Proof.
  intros workflow'. split; [done|].
  by apply (update_workflow_idempotent Sample.kwargs Sample.workflow workflow').
Defined.

(** The sample workflow without node [980]. *)
Lemma update_workflow_stops_half_way_witness :
  let workflow :=
    PyDict [("979", Sample.node [("text", Atom "old")]);
            ("983", Sample.node [("seed", Atom "0")])] in
  ∃ workflow',
    update_workflow Sample.kwargs workflow = (Some (KeyError "980"), workflow') ∧
    input workflow' "979" "text" = inr (Atom "a photo").
Proof.
  intros workflow.
  apply (update_workflow_stops_half_way Sample.kwargs workflow (Atom "a photo"));
    [by eexists|done|done].
Defined.
